(** * AnimatedProps and createAnimatedComponent: prop diffing and attachment

    A shallow embedding of [Libraries/Animated/src/nodes/AnimatedProps.js]
    and of the two listings of [createAnimatedComponent], followed by the
    properties of the prop-binding engine that the specification states.

    The animation graph ([AnimatedNode], [AnimatedStyle], [AnimatedEvent]),
    the renderer and the native animation backend are collaborators whose
    code is elsewhere: every call into them is recorded, in program order, in
    the [trace] of the [world]; what they return is kept symbolic.  A
    collaborator does not call back into the instance while it runs: the
    re-entrant paths (a node that updates its children from [__addChild] or
    [__makeNative]) are outside this development. *)

From Stdlib Require Import ZArith.
From stdpp Require Import base strings list gmap.

Set Default Proof Using "Type".
Set Warnings "-register-all".

(** ** JavaScript values *)

(** Values that are neither [AnimatedNode] nor [AnimatedEvent] instances. *)
Inductive plain :=
| PUndefined
| PNull
| PBool (b : bool)
| PNum (z : Z)
| PStr (s : string)
| PFun (f : nat)
| PArr (elems : list plain)
| PObj (fields : list (string * plain)).

(** An [AnimatedEvent] instance: its identity and its own enumerable
    properties, among them [__isNative] and the cache [_attachedEvent]. *)
Record AnimatedEvent := Event {
  ev_id : nat;
  ev_fields : list (string * plain)
}.

(** What a property bag can hold.  [VNode n] is an [AnimatedNode] instance
    that is not an [AnimatedStyle]; [VStyle n] is an [AnimatedStyle]. *)
Inductive value :=
| VPlain (p : plain)
| VNode (n : nat)
| VStyle (n : nat)
| VEvent (e : AnimatedEvent).

(** A JavaScript object used as a record of properties, in insertion order. *)
Abbreviation bag V := (list (string * V)).

(** A mounted view handle as a field holds it. *)
Inductive viewref :=
| ViewUndefined
| ViewNull
| ViewObj (v : nat).

(** What [__getValue], [__getAnimatedValue] and [__getNativeConfig] put in
    their result for one key. *)
Inductive resolved :=
| RValue (n : nat)            (* value.__getValue() *)
| RAnimatedValue (n : nat)    (* value.__getAnimatedValue() *)
| RNativeTag (n : nat)        (* value.__getNativeTag() *)
| RHandler (e : AnimatedEvent) (* value.__getHandler() *)
| RPlain (p : plain).

(** Calls into the collaborators. *)
Inductive effect :=
| NewAnimatedStyle (n : nat) (wrapped : value)
| AddChild (n child : nat)
| RemoveChild (n child : nat)
| NodeMakeNative (n : nat)
| EventAttach (e target : nat) (key : string)
| EventDetach (e target : nat) (key : string)
| ConnectAnimatedNodeToView (node viewTag : nat)
| DisconnectAnimatedNodeFromView (node viewTag : nat)
| SuperAttach (node : nat)
| SuperDetach (node : nat)
| ForceUpdate
| SetNativeProps (view : nat) (props : bag resolved)
| SetNativeView (node : nat) (view : viewref).

(** The part of the heap the code reads back: which graph nodes have their
    [__isNative] flag set, the next free object identity, and the calls made
    so far. *)
Record world := World {
  native_nodes : gset nat;
  next_object : nat;
  trace : list effect
}.

(** The collaborators' answers. *)
Class Host := {
  (* require('deepDiffer') *)
  deepDiffer : value → value → bool;
  (* ReactNative.findNodeHandle(view); [None] is null *)
  findNodeHandle : nat → option nat;
  (* view.getScrollableNode(), [None] when the view has no such method *)
  getScrollableNode : nat → option nat;
  (* typeof view.setNativeProps === 'function'; the displayable-component
     contract has the operation present or absent, so this is also the
     truthiness of the property *)
  hasSetNativeProps : nat → bool
}.

Definition truthy (p : plain) : bool :=
  match p with
  | PUndefined | PNull => false
  | PBool b => b
  | PNum z => negb (z =? 0)%Z
  | PStr s => negb (String.eqb s "")
  | PFun _ | PArr _ | PObj _ => true
  end.

Definition truthy_view (v : viewref) : bool :=
  match v with ViewObj _ => true | _ => false end.

(** [a === b] on view handles. *)
Definition viewref_eqb (a b : viewref) : bool :=
  match a, b with
  | ViewUndefined, ViewUndefined => true
  | ViewNull, ViewNull => true
  | ViewObj x, ViewObj y => Nat.eqb x y
  | _, _ => false
  end.

Definition instanceof_AnimatedStyle (v : value) : bool :=
  match v with VStyle _ => true | _ => false end.

Definition instanceof_AnimatedNode (v : value) : bool :=
  match v with VNode _ | VStyle _ => true | _ => false end.

Definition instanceof_AnimatedEvent (v : value) : bool :=
  match v with VEvent _ => true | _ => false end.

Definition keys {V} (object : bag V) : list string := object.*1.

Fixpoint lookup_key {V} (object : bag V) (key : string) : option V :=
  match object with
  | [] => None
  | (k, v) :: rest => if decide (k = key) then Some v else lookup_key rest key
  end.

(** [object[key]] on a bag of values: a missing key reads [undefined]. *)
Definition prop (object : bag value) (key : string) : value :=
  default (VPlain PUndefined) (lookup_key object key).

Definition field (fields : bag plain) (key : string) : plain :=
  default PUndefined (lookup_key fields key).

(** [object[key] = v]: an existing key keeps its place. *)
Fixpoint bag_set {V} (key : string) (v : V) (object : bag V) : bag V :=
  match object with
  | [] => [(key, v)]
  | (k, x) :: rest =>
      if decide (k = key) then (k, v) :: rest else (k, x) :: bag_set key v rest
  end.

(** [value.__isNative] of an event. *)
Definition event_isNative (e : AnimatedEvent) : bool :=
  truthy (field (ev_fields e) "__isNative").

(** [({_attachedEvent, ...a} = a)]: the plain copy without the cache. *)
Definition without_attachedEvent (e : AnimatedEvent) : value :=
  VPlain (PObj (filter (λ kv, kv.1 ≠ "_attachedEvent") (ev_fields e))).

(** ** Computations that mutate an object and may throw *)

Inductive outcome (St A : Type) :=
| Returned (a : A) (s : St) (w : world)
| Thrown (msg : string) (s : St) (w : world).
Arguments Returned {St A} a s w.
Arguments Thrown {St A} msg s w.

Definition M (St A : Type) : Type := St → world → outcome St A.

Definition ret {St A} (a : A) : M St A := λ s w, Returned a s w.

Definition bind {St A B} (m : M St A) (k : A → M St B) : M St B := λ s w,
  match m s w with
  | Returned a s' w' => k a s' w'
  | Thrown msg s' w' => Thrown msg s' w'
  end.

Declare Scope js_scope.
Delimit Scope js_scope with js.
Notation "x <- m ;; k" := (bind m (λ x, k))
  (at level 100, m at next level, right associativity) : js_scope.
Notation "m ;; k" := (bind m (λ _, k))
  (at level 100, right associativity) : js_scope.
Open Scope js_scope.

Definition gets {St A} (f : St → A) : M St A := λ s w, Returned (f s) s w.
Definition modify {St} (f : St → St) : M St unit := λ s w, Returned tt (f s) w.
Definition throw {St A} (msg : string) : M St A := λ s w, Thrown msg s w.
(** The primitives on the collaborators' side of the [world].

    Modelled from the spec: the code of [AnimatedNode] and [AnimatedStyle] is
    not in this repository's listing.  [new AnimatedStyle(value)] allocates
    the next object identity; [node.__makeNative()] turns the node's
    [__isNative] on, and nothing turns it off again. *)
Definition emit {St} (e : effect) : M St unit := λ s w,
  Returned tt s (World (native_nodes w) (next_object w) (trace w ++ [e])).
Definition new_object {St} : M St nat := λ s w,
  Returned (next_object w) s (World (native_nodes w) (S (next_object w)) (trace w)).
Definition node_isNative {St} (n : nat) : M St bool := λ s w,
  Returned (bool_decide (n ∈ native_nodes w)) s w.
Definition mark_native {St} (n : nat) : M St unit := λ s w,
  Returned tt s (World ({[n]} ∪ native_nodes w) (next_object w) (trace w)).

(** [invariant(cond, msg)] of fbjs. *)
Definition invariant {St} (cond : bool) (msg : string) : M St unit :=
  if cond then ret tt else throw msg.

Fixpoint forEach {St X} (l : list X) (f : X → M St unit) : M St unit :=
  match l with
  | [] => ret tt
  | x :: rest => f x ;; forEach rest f
  end.

Fixpoint reduce {St X R} (l : list X) (f : R → X → M St R) (init : R) : M St R :=
  match l with
  | [] => ret init
  | x :: rest => r <- f init x ;; reduce rest f r
  end.

(** ** AnimatedProps.js *)

Module AnimatedProps.

(** The fields of an instance; [self] is the identity of the object, which
    is also how its native tag is named in the calls to the backend.  The
    stored [_callback] is the wrapper's and is modelled with the wrapper. *)
Record t := Make {
  self : nat;
  _view : viewref;
  _props : bag value;
  _styleProp : option nat;
  _firstValueReturned : bool;
  _reattachAll : bool;
  __isNative : bool
}.

Definition set_view (v : viewref) (s : t) : t :=
  Make (self s) v (_props s) (_styleProp s) (_firstValueReturned s)
       (_reattachAll s) (__isNative s).
Definition set_props (p : bag value) (s : t) : t :=
  Make (self s) (_view s) p (_styleProp s) (_firstValueReturned s)
       (_reattachAll s) (__isNative s).
Definition set_styleProp (sp : option nat) (s : t) : t :=
  Make (self s) (_view s) (_props s) sp (_firstValueReturned s)
       (_reattachAll s) (__isNative s).
Definition set_firstValueReturned (b : bool) (s : t) : t :=
  Make (self s) (_view s) (_props s) (_styleProp s) b
       (_reattachAll s) (__isNative s).
Definition set_reattachAll (b : bool) (s : t) : t :=
  Make (self s) (_view s) (_props s) (_styleProp s) (_firstValueReturned s)
       b (__isNative s).
Definition set_isNative (b : bool) (s : t) : t :=
  Make (self s) (_view s) (_props s) (_styleProp s) (_firstValueReturned s)
       (_reattachAll s) b.

Section Methods.
Context `{Host}.

Definition animatedKeys (object : bag value) : list string :=
  List.filter
    (λ key, bool_decide (key = "style")
            || instanceof_AnimatedNode (prop object key)
            || instanceof_AnimatedEvent (prop object key))
    (keys object).

Definition animatedDiff (a b : value) : bool :=
  let a := match a with VEvent e => without_attachedEvent e | _ => a end in
  let b := match b with VEvent e => without_attachedEvent e | _ => b end in
  deepDiffer a b.

(** *** View management *)

Definition __scrollableView : M t nat :=
  view <- gets _view ;;
  match view with
  | ViewObj v => ret (default v (getScrollableNode v))
  | _ => throw "TypeError: cannot read property getScrollableNode"
  end.

Definition ReactNative_findNodeHandle (view : viewref) : option nat :=
  match view with ViewObj v => findNodeHandle v | _ => None end.

Definition __connectView : M t unit :=
  isNative <- gets __isNative ;;
  view <- gets _view ;;
  if negb (isNative && truthy_view view) then ret tt else
  match ReactNative_findNodeHandle view with
  | None => throw "Unable to locate view in the native tree"
  | Some viewTag =>
      me <- gets self ;; emit (ConnectAnimatedNodeToView me viewTag)
  end.

Definition __disconnectView : M t unit :=
  isNative <- gets __isNative ;;
  view <- gets _view ;;
  if negb (isNative && truthy_view view) then ret tt else
  match ReactNative_findNodeHandle view with
  | None => throw "Unable to locate view in the native tree"
  | Some viewTag =>
      me <- gets self ;; emit (DisconnectAnimatedNodeFromView me viewTag)
  end.

(** *** Prop management *)

Definition __attachValueProp (key : string) (value : value) : M t unit :=
  value <-
    (if bool_decide (key = "style") && negb (instanceof_AnimatedStyle value)
     then
       sp <- gets _styleProp ;;
       invariant (negb (bool_decide (is_Some sp)))
                 "Expected last style prop to be detached" ;;
       n <- new_object ;;
       emit (NewAnimatedStyle n value) ;;
       modify (set_styleProp (Some n)) ;;
       ret (VStyle n)
     else ret value) ;;
  match value with
  | VNode n | VStyle n => me <- gets self ;; emit (AddChild n me)
  | _ => ret tt
  end.

Definition __attachValueProps : M t unit :=
  props <- gets _props ;;
  forEach props (λ '(key, value), __attachValueProp key value).

Definition __attachEventProp (key : string) (value : value) : M t unit :=
  view <- gets _view ;;
  match value with
  | VEvent e =>
      if negb (truthy_view view && event_isNative e) then ret tt else
      target <- __scrollableView ;;
      emit (EventAttach (ev_id e) target key)
  | _ => ret tt
  end.

Definition __attachEventProps : M t unit :=
  props <- gets _props ;;
  forEach props (λ '(key, value), __attachEventProp key value).

Definition __makeValuePropNative (key : string) (value : value) : M t unit :=
  isNative <- gets __isNative ;;
  if negb isNative then ret tt else
  value <-
    (if bool_decide (key = "style") then
       sp <- gets _styleProp ;;
       match sp with
       | None => throw "Expected style prop to make native"
       | Some n => ret (VStyle n)
       end
     else ret value) ;;
  match value with
  | VNode n | VStyle n => emit (NodeMakeNative n) ;; mark_native n
  | _ => ret tt
  end.

Definition __makeValuePropsNative : M t unit :=
  props <- gets _props ;;
  forEach props (λ '(key, value), __makeValuePropNative key value).

Definition __attachProp (key : string) (value : value) : M t unit :=
  __attachValueProp key value ;;
  __makeValuePropNative key value ;;
  __attachEventProp key value.

Definition __detachValueProp (key : string) (value : value) : M t unit :=
  value <-
    (if bool_decide (key = "style") && negb (instanceof_AnimatedStyle value)
     then
       sp <- gets _styleProp ;;
       match sp with
       | None => throw "Expected style prop to detach"
       | Some n => modify (set_styleProp None) ;; ret (VStyle n)
       end
     else ret value) ;;
  match value with
  | VNode n | VStyle n => me <- gets self ;; emit (RemoveChild n me)
  | _ => ret tt
  end.

Definition __detachValueProps : M t unit :=
  props <- gets _props ;;
  forEach props (λ '(key, value), __detachValueProp key value).

Definition __detachEventProp (key : string) (value : value) : M t unit :=
  view <- gets _view ;;
  match value with
  | VEvent e =>
      if negb (truthy_view view && event_isNative e) then ret tt else
      target <- __scrollableView ;;
      emit (EventDetach (ev_id e) target key)
  | _ => ret tt
  end.

Definition __detachEventProps : M t unit :=
  props <- gets _props ;;
  forEach props (λ '(key, value), __detachEventProp key value).

Definition __detachProp (key : string) (value : value) : M t unit :=
  __detachValueProp key value ;;
  __detachEventProp key value.

Definition __replaceProp (key : string) (lastValue nextValue : value)
  : M t unit :=
  lastValue <-
    (if bool_decide (key = "style") then
       sp <- gets _styleProp ;;
       match sp with
       | None => throw "Expected style prop to detach"
       | Some n => modify (set_styleProp None) ;; ret (VStyle n)
       end
     else ret lastValue) ;;
  __attachProp key nextValue ;;
  __detachProp key lastValue.

(** *** Lifecycle methods *)

Definition __attach : M t unit :=
  me <- gets self ;;
  emit (SuperAttach me) ;;
  __attachValueProps ;;
  __attachEventProps.

Definition __detach : M t unit :=
  __disconnectView ;;
  __detachEventProps ;;
  __detachValueProps ;;
  me <- gets self ;;
  emit (SuperDetach me).

(** [new AnimatedProps(props, callback)]: the fields start out unset. *)
Definition fresh (me : nat) (props : bag value) : t :=
  Make me ViewUndefined props None false false false.

Definition constructor (props : bag value) (w : world) : outcome t unit :=
  __attach (fresh (next_object w) props)
           (World (native_nodes w) (S (next_object w)) (trace w)).

Definition updateView (nextView : viewref) : M t unit :=
  view <- gets _view ;;
  if viewref_eqb view nextView then ret tt else
  __detachEventProps ;;
  __disconnectView ;;
  modify (set_view nextView) ;;
  __connectView ;;
  __attachEventProps.

Definition __makeNative : M t unit :=
  isNative <- gets __isNative ;;
  if isNative then ret tt else
  firstValueReturned <- gets _firstValueReturned ;;
  (if firstValueReturned then modify (set_reattachAll true) else ret tt) ;;
  modify (set_isNative true) ;;
  __makeValuePropsNative ;;
  __connectView.

(** The loop over [nextKeys] updates two locals, the copy of [nextProps] and
    [lastKeys]; they are the accumulator of the [reduce]. *)
Definition updateProps_step (reattachAll : bool) (lastProps : bag value)
    (acc : bag value * list string) (key : string)
  : M t (bag value * list string) :=
  let '(nextProps, lastKeys) := acc in
  nextProps <-
    (if reattachAll || animatedDiff (prop lastProps key) (prop nextProps key)
     then
       __replaceProp key (prop lastProps key) (prop nextProps key) ;;
       ret nextProps
     else ret (bag_set key (prop lastProps key) nextProps)) ;;
  ret (nextProps,
       List.filter (λ lastKey, negb (String.eqb lastKey key)) lastKeys).

Definition updateProps (nextProps : bag value) : M t unit :=
  reattachAll <- gets _reattachAll ;;
  lastProps <- gets _props ;;
  let lastKeys := animatedKeys lastProps in
  let nextKeys := animatedKeys nextProps in
  acc <- reduce nextKeys (updateProps_step reattachAll lastProps)
                (nextProps, lastKeys) ;;
  forEach acc.2 (λ key, __detachProp key (prop lastProps key)) ;;
  modify (set_props acc.1) ;;
  modify (set_reattachAll false).

(** *** Value accessors *)

(** The three accessors start each entry alike: for the [style] key the
    cached composite stands in for the stored value, and must be there. *)
Definition styleProp_or : string → value → string → M t value :=
  λ key value msg,
  if bool_decide (key = "style") then
    sp <- gets _styleProp ;;
    match sp with
    | None => throw msg
    | Some n => ret (VStyle n)
    end
  else ret value.

(** The callbacks handed to [reduce]. *)
Definition __getValue_entry (props : bag resolved) (entry : string * value)
  : M t (bag resolved) :=
  let '(key, value) := entry in
  value <- styleProp_or key value "Expected style prop" ;;
  match value with
  | VNode n | VStyle n =>
      isNative <- node_isNative n ;;
      if negb isNative || instanceof_AnimatedStyle value
      then ret (bag_set key (RValue n) props)
      else ret props
  | VEvent e => ret (bag_set key (RHandler e) props)
  | VPlain p => ret (bag_set key (RPlain p) props)
  end.

Definition __getAnimatedValue_entry (props : bag resolved)
    (entry : string * value) : M t (bag resolved) :=
  let '(key, value) := entry in
  value <- styleProp_or key value "Expected style prop" ;;
  match value with
  | VNode n | VStyle n => ret (bag_set key (RAnimatedValue n) props)
  | _ => ret props
  end.

Definition __getNativeConfig_entry (props : bag resolved)
    (entry : string * value) : M t (bag resolved) :=
  let '(key, value) := entry in
  value <- styleProp_or key value "Expected style prop" ;;
  match value with
  | VNode n | VStyle n => ret (bag_set key (RNativeTag n) props)
  | _ => ret props
  end.

Definition __getValue : M t (bag resolved) :=
  modify (set_firstValueReturned true) ;;
  entries <- gets _props ;;
  reduce entries __getValue_entry [].

Definition __getAnimatedValue : M t (bag resolved) :=
  entries <- gets _props ;;
  reduce entries __getAnimatedValue_entry [].

(** The [props] of the configuration [{type: 'props', props}]. *)
Definition __getNativeConfig : M t (bag resolved) :=
  entries <- gets _props ;;
  reduce entries __getNativeConfig_entry [].

End Methods.
End AnimatedProps.

(** ** createAnimatedComponent, first listing *)

Module createAnimatedComponent.

Record t := Make {
  props : bag value;
  _component : viewref;
  _prevComponent : viewref;
  _invokeAnimatedPropsCallbackOnMount : bool;
  _propsAnimated : option AnimatedProps.t;
  (* the static AnimatedComponent.__skipSetNativeProps_FOR_TESTS_ONLY *)
  __skipSetNativeProps_FOR_TESTS_ONLY : bool
}.

(** [this._prevComponent = this._component; this._component = c] *)
Definition set_componentRef (c : viewref) (s : t) : t :=
  Make (props s) c (_component s) (_invokeAnimatedPropsCallbackOnMount s)
       (_propsAnimated s) (__skipSetNativeProps_FOR_TESTS_ONLY s).
Definition set_invokeAnimatedPropsCallbackOnMount (b : bool) (s : t) : t :=
  Make (props s) (_component s) (_prevComponent s) b
       (_propsAnimated s) (__skipSetNativeProps_FOR_TESTS_ONLY s).
Definition set_propsAnimated (p : option AnimatedProps.t) (s : t) : t :=
  Make (props s) (_component s) (_prevComponent s)
       (_invokeAnimatedPropsCallbackOnMount s) p
       (__skipSetNativeProps_FOR_TESTS_ONLY s).

(** What [animatedPropsChanged] returns: [false], the first differing key,
    or [true]. *)
Inductive changed :=
| NotChanged
| ChangedKey (key : string)
| ChangedShape.

Definition truthy_changed (c : changed) : bool :=
  match c with
  | NotChanged => false
  | ChangedKey key => negb (String.eqb key "")
  | ChangedShape => true
  end.

Section Methods.
Context `{Host}.

Definition animatedValueKeys (object : bag value) : list string :=
  List.filter
    (λ key, bool_decide (key = "style")
            || instanceof_AnimatedNode (prop object key))
    (keys object).

Definition animatedEventKeys (object : bag value) : list string :=
  List.filter (λ key, instanceof_AnimatedEvent (prop object key)) (keys object).

Definition animatedValueDiff (a b : value) : bool := deepDiffer a b.

Definition animatedEventDiff (a b : value) : bool :=
  let a := match a with VEvent e => without_attachedEvent e | _ => a end in
  let b := match b with VEvent e => without_attachedEvent e | _ => b end in
  deepDiffer a b.

(** An array of keys as [deepDiffer] receives it. *)
Definition key_array (l : list string) : value := VPlain (PArr (PStr <$> l)).

Fixpoint first_diff (diff : value → value → bool) (lastProps nextProps : bag value)
    (lastKeys : list string) : changed :=
  match lastKeys with
  | [] => NotChanged
  | key :: rest =>
      if diff (prop lastProps key) (prop nextProps key) then ChangedKey key
      else first_diff diff lastProps nextProps rest
  end.

Definition animatedPropsChanged (lastProps nextProps : bag value)
    (getKeys : bag value → list string) (diff : value → value → bool)
  : changed :=
  let lastKeys := getKeys lastProps in
  let nextKeys := getKeys nextProps in
  if negb (deepDiffer (key_array lastKeys) (key_array nextKeys))
  then first_diff diff lastProps nextProps lastKeys
  else ChangedShape.

Definition animatedValuePropsChanged (lastProps nextProps : bag value) :=
  animatedPropsChanged lastProps nextProps animatedValueKeys animatedValueDiff.

Definition animatedEventPropsChanged (lastProps nextProps : bag value) :=
  animatedPropsChanged lastProps nextProps animatedEventKeys animatedEventDiff.

(** [this._propsAnimated.m(...)]: the method runs on the held instance. *)
Definition onProps {A} (m : M AnimatedProps.t A) : M t A := λ s w,
  match _propsAnimated s with
  | None => Thrown "TypeError: this._propsAnimated is undefined" s w
  | Some p =>
      match m p w with
      | Returned a p' w' => Returned a (set_propsAnimated (Some p') s) w'
      | Thrown msg p' w' => Thrown msg (set_propsAnimated (Some p') s) w'
      end
  end.

(** A method run on an object that no field of the wrapper holds. *)
Definition onObject {A} (obj : AnimatedProps.t) (m : M AnimatedProps.t A)
  : M t A := λ s w,
  match m obj w with
  | Returned a _ w' => Returned a s w'
  | Thrown msg _ w' => Thrown msg s w'
  end.

Definition new_AnimatedProps (nextProps : bag value) : M t AnimatedProps.t :=
  λ s w,
  match AnimatedProps.constructor nextProps w with
  | Returned _ p w' => Returned p s w'
  | Thrown msg _ w' => Thrown msg s w'
  end.

Definition _animatedPropsCallback : M t unit :=
  component <- gets _component ;;
  match component with
  | ViewUndefined | ViewNull =>
      modify (set_invokeAnimatedPropsCallbackOnMount true)
  | ViewObj c =>
      skip <- gets __skipSetNativeProps_FOR_TESTS_ONLY ;;
      if skip || negb (hasSetNativeProps c) then emit ForceUpdate else
      isNative <- onProps (gets AnimatedProps.__isNative) ;;
      if negb isNative then
        animated <- onProps AnimatedProps.__getAnimatedValue ;;
        emit (SetNativeProps c animated)
      else
        throw "Attempting to run JS driven animation on animated node that has been moved to native earlier by starting an animation with useNativeDriver: true"
  end.

(** [force] is [None] when the caller leaves the argument out. *)
Definition _attachProps (nextProps : bag value) (force : option bool)
  : M t unit :=
  oldPropsAnimated <- gets _propsAnimated ;;
  let force := default (negb (bool_decide (is_Some oldPropsAnimated))) force in
  this_props <- gets props ;;
  let changed := animatedValuePropsChanged this_props nextProps in
  if force || truthy_changed changed then
    created <- new_AnimatedProps nextProps ;;
    modify (set_propsAnimated (Some created)) ;;
    match oldPropsAnimated with
    | Some old => onObject old AnimatedProps.__detach
    | None => ret tt
    end
  else
    onProps (AnimatedProps.updateProps nextProps).

Definition componentWillMount : M t unit :=
  this_props <- gets props ;;
  _attachProps this_props None.

Definition componentWillReceiveProps (newProps : bag value) : M t unit :=
  _attachProps newProps None.

(** The props of the element that [render] returns; [ref] is not a prop. *)
Definition render : M t (bag resolved) :=
  rendered <- onProps AnimatedProps.__getValue ;;
  isNative <- onProps (gets AnimatedProps.__isNative) ;;
  ret (bag_set "collapsable"
         (if isNative then RPlain (PBool false)
          else default (RPlain PUndefined) (lookup_key rendered "collapsable"))
         rendered).

Definition _setComponentRef (c : viewref) : M t unit :=
  modify (set_componentRef c).

End Methods.
End createAnimatedComponent.

(** ** createAnimatedComponent, second listing *)

Module createAnimatedComponent_2.

Record t := Make {
  props : bag value;
  _component : viewref;
  _prevComponent : viewref;
  _animatedProps : option AnimatedProps.t
}.

(** [this._prevComponent = this._component; this._component = c] *)
Definition set_componentRef (c : viewref) (s : t) : t :=
  Make (props s) c (_component s) (_animatedProps s).
Definition set_animatedProps (p : option AnimatedProps.t) (s : t) : t :=
  Make (props s) (_component s) (_prevComponent s) p.

Section Methods.
Context `{Host}.

Definition onProps {A} (m : M AnimatedProps.t A) : M t A := λ s w,
  match _animatedProps s with
  | None => Thrown "TypeError: this._animatedProps is undefined" s w
  | Some p =>
      match m p w with
      | Returned a p' w' => Returned a (set_animatedProps (Some p') s) w'
      | Thrown msg p' w' => Thrown msg (set_animatedProps (Some p') s) w'
      end
  end.

Definition new_AnimatedProps (nextProps : bag value) : M t AnimatedProps.t :=
  λ s w,
  match AnimatedProps.constructor nextProps w with
  | Returned _ p w' => Returned p s w'
  | Thrown msg _ w' => Thrown msg s w'
  end.

Definition callback : M t unit :=
  component <- gets _component ;;
  match component with
  | ViewObj c =>
      if hasSetNativeProps c then
        isNative <- onProps (gets AnimatedProps.__isNative) ;;
        if negb isNative then
          animated <- onProps AnimatedProps.__getAnimatedValue ;;
          emit (SetNativeProps c animated)
        else
          throw "Attempting to run JS driven animation on animated node that has been moved to native earlier by starting an animation with useNativeDriver: true"
      else emit ForceUpdate
  | _ => throw "TypeError: cannot read property setNativeProps"
  end.

Definition _attachProps (nextProps : bag value) : M t unit :=
  this_props <- gets props ;;
  created <- new_AnimatedProps this_props ;;
  modify (set_animatedProps (Some created)).

Definition componentWillMount : M t unit :=
  this_props <- gets props ;;
  _attachProps this_props.

Definition componentDidMount : M t unit :=
  component <- gets _component ;;
  onProps (AnimatedProps.updateView component).

Definition componentWillReceiveProps (nextProps : bag value) : M t unit :=
  onProps (AnimatedProps.updateProps nextProps).

Definition componentDidUpdate : M t unit :=
  component <- gets _component ;;
  prevComponent <- gets _prevComponent ;;
  if negb (viewref_eqb component prevComponent)
  then onProps (AnimatedProps.updateView component)
  else ret tt.

Definition componentWillUnmount : M t unit :=
  onProps AnimatedProps.__detach.

Definition render : M t (bag resolved) :=
  rendered <- onProps AnimatedProps.__getValue ;;
  isNative <- onProps (gets AnimatedProps.__isNative) ;;
  let collapsible :=
    if isNative then RPlain (PBool false)
    else default (RPlain PUndefined) (lookup_key rendered "collapsable") in
  ret (bag_set "collapsable" collapsible rendered).

Definition _setComponentRef (c : viewref) : M t unit :=
  modify (set_componentRef c).

End Methods.
End createAnimatedComponent_2.

(** ** createAnimatedComponent, first listing: the wrapper's own event bindings *)

Module NativeEvents.

(** One element of [_eventDetachers]: the closure
    [() => prop.__detach(scrollableNode, key)], as the three values it
    captured when it was pushed. *)
Record detacher := Detacher {
  d_event : nat;
  d_target : nat;
  d_key : string
}.

(** The wrapper of the first listing together with its [_eventDetachers]. *)
Record t := Make {
  wrapper : createAnimatedComponent.t;
  _eventDetachers : list detacher
}.

Definition set_eventDetachers (l : list detacher) (s : t) : t :=
  Make (wrapper s) l.
Definition push (d : detacher) (s : t) : t :=
  Make (wrapper s) (_eventDetachers s ++ [d]).

Section Methods.
Context `{Host}.

(** A method of the wrapper, run on the wrapper part. *)
Definition onWrapper {A} (m : M createAnimatedComponent.t A) : M t A := λ s w,
  match m (wrapper s) w with
  | Returned a c w' => Returned a (Make c (_eventDetachers s)) w'
  | Thrown msg c w' => Thrown msg (Make c (_eventDetachers s)) w'
  end.

Definition _attachNativeEvents_entry (scrollableNode : nat)
    (entry : string * value) : M t unit :=
  let '(key, prop) := entry in
  match prop with
  | VEvent e =>
      if event_isNative e then
        emit (EventAttach (ev_id e) scrollableNode key) ;;
        modify (push (Detacher (ev_id e) scrollableNode key))
      else ret tt
  | _ => ret tt
  end.

Definition _attachNativeEvents : M t unit :=
  component <- gets (λ s, createAnimatedComponent._component (wrapper s)) ;;
  match component with
  | ViewObj c =>
      let scrollableNode := default c (getScrollableNode c) in
      this_props <- gets (λ s, createAnimatedComponent.props (wrapper s)) ;;
      forEach this_props (_attachNativeEvents_entry scrollableNode)
  | _ => throw "TypeError: cannot read property getScrollableNode"
  end.

Definition _detachNativeEvents : M t unit :=
  detachers <- gets _eventDetachers ;;
  forEach detachers
    (λ remove, emit (EventDetach (d_event remove) (d_target remove) (d_key remove))) ;;
  modify (set_eventDetachers []).

Definition componentWillUnmount : M t unit :=
  propsAnimated <- gets (λ s, createAnimatedComponent._propsAnimated (wrapper s)) ;;
  (match propsAnimated with
   | Some _ => onWrapper (createAnimatedComponent.onProps AnimatedProps.__detach)
   | None => ret tt
   end) ;;
  _detachNativeEvents.

(** [this._propsAnimated.setNativeView(view)].  [AnimatedProps.js] defines no
    such method, and its superclass is not among the sources: the call is
    recorded like the calls into the other collaborators, and every
    statement about [componentDidUpdate] below is about an update that
    leaves the component as it was, where the method is not called. *)
Definition setNativeView (view : viewref) : M AnimatedProps.t unit :=
  me <- gets AnimatedProps.self ;;
  emit (SetNativeView me view).

Definition componentDidUpdate (prevProps : bag value) : M t unit :=
  component <- gets (λ s, createAnimatedComponent._component (wrapper s)) ;;
  prevComponent <- gets (λ s, createAnimatedComponent._prevComponent (wrapper s)) ;;
  let componentChanged := negb (viewref_eqb component prevComponent) in
  this_props <- gets (λ s, createAnimatedComponent.props (wrapper s)) ;;
  let propsChanged :=
    createAnimatedComponent.animatedEventPropsChanged prevProps this_props in
  (if componentChanged
   then onWrapper (createAnimatedComponent.onProps (setNativeView component))
   else ret tt) ;;
  if componentChanged || createAnimatedComponent.truthy_changed propsChanged
  then _detachNativeEvents ;; _attachNativeEvents
  else ret tt.

End Methods.
End NativeEvents.

(** ** A concrete host, for running the code on examples *)

(** Modelled from the spec: [deepDiffer] (Libraries/Utilities/differ) is not
    among the sources.  The specification describes it as a value-level
    structural-equality comparison, deep and insensitive to the order of an
    object's keys; functions never differ from functions. *)
Fixpoint plain_differ (one two : plain) : bool :=
  match one, two with
  | PUndefined, PUndefined => false
  | PNull, PNull => false
  | PBool x, PBool y => negb (Bool.eqb x y)
  | PNum x, PNum y => negb (x =? y)%Z
  | PStr x, PStr y => negb (String.eqb x y)
  | PFun _, PFun _ => false
  | PArr xs, PArr ys =>
      (fix elems (xs ys : list plain) : bool :=
         match xs, ys with
         | [], [] => false
         | x :: xs', y :: ys' => plain_differ x y || elems xs' ys'
         | _, _ => true
         end) xs ys
  | PObj fs, PObj gs =>
      (fix fields (fs : list (string * plain)) : bool :=
         match fs with
         | [] => false
         | (key, x) :: fs' => plain_differ x (field gs key) || fields fs'
         end) fs
      || existsb (λ kv, match field fs kv.1, kv.2 with
                        | PUndefined, PUndefined => false
                        | PUndefined, _ => true
                        | _, _ => false
                        end) gs
  | _, _ => true
  end.

(** Two references to one object never differ; distinct graph nodes are
    taken to differ, distinct events are compared by their properties. *)
Definition deepDiffer_model (one two : value) : bool :=
  match one, two with
  | VPlain p, VPlain q => plain_differ p q
  | VNode n, VNode m => negb (Nat.eqb n m)
  | VStyle n, VStyle m => negb (Nat.eqb n m)
  | VEvent e, VEvent f =>
      negb (Nat.eqb (ev_id e) (ev_id f))
      && plain_differ (PObj (ev_fields e)) (PObj (ev_fields f))
  | _, _ => true
  end.

(** Views 1 and 2 have [setNativeProps] and native tags 101 and 102; view 3
    is a composite component without it; view 4 is a scroll container whose
    scrollable node is 41. *)
Definition example_host : Host := {|
  deepDiffer := deepDiffer_model;
  findNodeHandle := λ v, if Nat.eqb v 0 then None else Some (100 + v);
  getScrollableNode := λ v, if Nat.eqb v 4 then Some 41 else None;
  hasSetNativeProps := λ v, negb (Nat.eqb v 3)
|}.

Definition empty_world : world := World ∅ 0 [].

(** Running one computation after another, on examples. *)
Definition after {St A B} (o : outcome St A) (m : M St B) : outcome St B :=
  match o with
  | Returned _ s w => m s w
  | Thrown msg s w => Thrown msg s w
  end.

Definition example_event : AnimatedEvent :=
  Event 9 [("__isNative", PBool true); ("_attachedEvent", PNull)].

Definition example_props : bag value :=
  [("opacity", VNode 7);
   ("style", VPlain (PObj [("width", PNum 3)]));
   ("collapsable", VPlain (PBool true));
   ("onScroll", VEvent example_event)].

(** ** Observing a run *)

Definition world_of {St A} (o : outcome St A) : world :=
  match o with Returned _ _ w | Thrown _ _ w => w end.

Definition state_of {St A} (o : outcome St A) : St :=
  match o with Returned _ s _ | Thrown _ s _ => s end.

(** The world after some more calls. *)
Definition calls (d : list effect) (w : world) : world :=
  World (native_nodes w) (next_object w) (trace w ++ d).

(** The calls made between two worlds of one run. *)
Definition new_calls (w w' : world) : list effect :=
  drop (length (trace w)) (trace w').

(** What [__attach] of an event does to the event object: it stores the
    binding in [_attachedEvent]. *)
Definition cache_attachedEvent (cached : plain) (v : value) : value :=
  match v with
  | VEvent e => VEvent (Event (ev_id e) (bag_set "_attachedEvent" cached (ev_fields e)))
  | _ => v
  end.

(** A bag in which every event has had a binding stored, [cached key] under
    the key [key]. *)
Definition cache_attachedEvents (cached : string → plain) (props : bag value)
  : bag value :=
  (λ '(key, v), (key, cache_attachedEvent (cached key) v)) <$> props.

(** Computations that leave the object and the world as they were. *)
Definition reads {St A} (m : M St A) : Prop :=
  ∀ s w, state_of (m s w) = s ∧ world_of (m s w) = w.

(** Computations that leave the object as it was. *)
Definition keeps {St A} (m : M St A) : Prop :=
  ∀ s w, state_of (m s w) = s.

(** Computations that take the object to one that [R] relates to it,
    whether they return or throw. *)
Definition preserves {St A} (R : St → St → Prop) (m : M St A) : Prop :=
  ∀ s w, R s (state_of (m s w)).

(** Computations that take the world to one that [R] relates to it,
    whether they return or throw. *)
Definition advances {St A} (R : world → world → Prop) (m : M St A) : Prop :=
  ∀ s w, R w (world_of (m s w)).

(** No node stops being native. *)
Definition natives_grow (w w' : world) : Prop :=
  native_nodes w ⊆ native_nodes w'.

(** Computations that always return. *)
Definition total {St A} (m : M St A) : Prop :=
  ∀ s w, ∃ a s' w', m s w = Returned a s' w'.

(** Every call that [m] makes satisfies [P], whether [m] returns or throws. *)
Definition emits {St A} (P : effect → bool) (m : M St A) : Prop :=
  ∀ s w, ∃ d, trace (world_of (m s w)) = trace w ++ d ∧ Forall (λ e, P e = true) d.

(** The calls of [m] are some that satisfy [P] followed by some that satisfy
    [Q]. *)
Definition emits_then {St A} (P Q : effect → bool) (m : M St A) : Prop :=
  ∀ s w, ∃ d1 d2,
    trace (world_of (m s w)) = trace w ++ d1 ++ d2 ∧
    Forall (λ e, P e = true) d1 ∧ Forall (λ e, Q e = true) d2.

(** Calls that add a binding, and calls that remove one. *)
Definition is_attach (e : effect) : bool :=
  match e with
  | NewAnimatedStyle _ _ | AddChild _ _ | NodeMakeNative _
  | EventAttach _ _ _ | ConnectAnimatedNodeToView _ _ | SuperAttach _ => true
  | _ => false
  end.

Definition is_detach (e : effect) : bool :=
  match e with
  | RemoveChild _ _ | EventDetach _ _ _
  | DisconnectAnimatedNodeFromView _ _ | SuperDetach _ => true
  | _ => false
  end.

(** ** What the specification expects, in its own words *)

Section Expected.
Context `{Host}.

(** A snapshot entry: the [style] key always resolves through the cached
    composite; any other key holding a node resolves to the node's value
    unless the node is native and is not a style composite; events resolve
    to their handler; anything else passes through.  [None] is a key that
    the snapshot leaves out. *)
Definition snapshot_entry (natives : gset nat) (styleProp : option nat)
    (key : string) (v : value) : option resolved :=
  if bool_decide (key = "style") then RValue <$> styleProp else
  match v with
  | VNode n => if bool_decide (n ∈ natives) then None else Some (RValue n)
  | VStyle n => Some (RValue n)
  | VEvent e => Some (RHandler e)
  | VPlain p => Some (RPlain p)
  end.

(** The calls that bind ([call := EventAttach]) or unbind
    ([call := EventDetach]) every native event of a bag on a view. *)
Definition event_calls (call : nat → nat → string → effect) (view : viewref)
    (props : bag value) : list effect :=
  match view with
  | ViewObj v =>
      flat_map (λ '(key, value),
        match value with
        | VEvent e =>
            if event_isNative e
            then [call (ev_id e) (default v (getScrollableNode v)) key]
            else []
        | _ => []
        end) props
  | _ => []
  end.

(** The call that connects or disconnects a native instance and a view. *)
Definition view_calls (call : nat → nat → effect) (isNative : bool) (me : nat)
    (view : viewref) : list effect :=
  match view with
  | ViewObj v =>
      if isNative
      then match findNodeHandle v with Some viewTag => [call me viewTag] | None => [] end
      else []
  | _ => []
  end.

(** The backend can locate the view whenever the instance will ask. *)
Definition located (isNative : bool) (view : viewref) : Prop :=
  isNative = true → ∀ v, view = ViewObj v → is_Some (findNodeHandle v).

(** The instance will ask for the view, and the backend cannot locate it. *)
Definition unlocated (isNative : bool) (view : viewref) : Prop :=
  isNative = true ∧ ∃ v, view = ViewObj v ∧ findNodeHandle v = None.

End Expected.

Section ExpectedUpdate.
Context `{Host}.
Import AnimatedProps.

(** The animated keys of the last bag that the next bag no longer has. *)
Definition removedKeys (lastProps nextProps : bag value) : list string :=
  List.filter (λ key, negb (bool_decide (key ∈ animatedKeys nextProps)))
              (animatedKeys lastProps).

(** The animated keys of the next bag whose values differ from the last. *)
Definition changedKeys (lastProps nextProps : bag value) : list string :=
  List.filter (λ key, animatedDiff (prop lastProps key) (prop nextProps key))
              (animatedKeys nextProps).

(** The next bag with every unchanged animated key holding the last value. *)
Definition carriedOver (lastProps nextProps : bag value) : bag value :=
  fold_left
    (λ props key,
       if animatedDiff (prop lastProps key) (prop props key) then props
       else bag_set key (prop lastProps key) props)
    (animatedKeys nextProps) nextProps.

(** What the loop of [updateProps] leaves in its copy of the next bag. *)
Definition carried (reattachAll : bool) (lastProps : bag value)
    (nextKeys : list string) (nextProps : bag value) : bag value :=
  fold_left
    (λ props key,
       if reattachAll || animatedDiff (prop lastProps key) (prop props key)
       then props else bag_set key (prop lastProps key) props)
    nextKeys nextProps.

(** Of the fields of an instance, [m] writes at most [_styleProp]. *)
Definition writes_styleProp {A} (m : M t A) : Prop :=
  ∀ s w, ∃ sp, state_of (m s w) = set_styleProp sp s.

(** The style composite invariant: a composite is cached exactly when the
    bag has a [style] key whose value is not itself an [AnimatedStyle]. *)
Definition needs_composite (props : bag value) : bool :=
  match lookup_key props "style" with
  | Some v => negb (instanceof_AnimatedStyle v)
  | None => false
  end.

Definition style_inv (s : t) : Prop :=
  bool_decide (is_Some (_styleProp s)) = needs_composite (_props s).

(** Same object, more calls. *)
Definition later (a b : t * world) : Prop :=
  self b.1 = self a.1 ∧ ∃ d, trace b.2 = trace a.2 ++ d.

(** Reattach-all: every animated key of the next bag is replaced, every key
    that is gone is detached, and the next bag is stored as it came. *)
Definition reattachEverything (nextProps : bag value) : M t unit :=
  lastProps <- gets _props ;;
  forEach (animatedKeys nextProps)
    (λ key, __replaceProp key (prop lastProps key) (prop nextProps key)) ;;
  forEach (removedKeys lastProps nextProps)
    (λ key, __detachProp key (prop lastProps key)) ;;
  modify (set_props nextProps) ;;
  modify (set_reattachAll false).

(** The minimal update: only the changed keys are replaced, the keys that
    are gone are detached, and the unchanged keys are carried over. *)
Definition reattachChanged (nextProps : bag value) : M t unit :=
  lastProps <- gets _props ;;
  forEach (changedKeys lastProps nextProps)
    (λ key, __replaceProp key (prop lastProps key) (prop nextProps key)) ;;
  forEach (removedKeys lastProps nextProps)
    (λ key, __detachProp key (prop lastProps key)) ;;
  modify (set_props (carriedOver lastProps nextProps)) ;;
  modify (set_reattachAll false).

End ExpectedUpdate.

(** ** The calls of a whole loop, in closed form *)

Section ExpectedLifecycle.
Context `{Host}.
Import AnimatedProps.

(** The [style] entry whose value is not an [AnimatedStyle] goes through the
    composite. *)
Definition through_composite (key : string) (v : value) : bool :=
  bool_decide (key = "style") && negb (instanceof_AnimatedStyle v).

(** [__attachValueProps] on the instance [me], with [composite] the
    identity that a new [AnimatedStyle] receives. *)
Definition subscribe_calls (me composite : nat) (props : bag value)
  : list effect :=
  flat_map (λ '(key, v),
    if through_composite key v
    then [NewAnimatedStyle composite v; AddChild composite me]
    else match v with
         | VNode n | VStyle n => [AddChild n me]
         | _ => []
         end) props.

(** [__detachValueProps] on the instance [me] whose cached composite is
    [styleProp]. *)
Definition unsubscribe_calls (me : nat) (styleProp : option nat)
    (props : bag value) : list effect :=
  flat_map (λ '(key, v),
    if through_composite key v
    then match styleProp with
         | Some composite => [RemoveChild composite me]
         | None => []
         end
    else match v with
         | VNode n | VStyle n => [RemoveChild n me]
         | _ => []
         end) props.

(** The call that undoes a subscription. *)
Definition unsubscribed (e : effect) : option effect :=
  match e with
  | AddChild n child => Some (RemoveChild n child)
  | _ => None
  end.

(** The graph nodes that the accessors and [__makeValuePropsNative] look
    at, key by key: the cached composite for the [style] key, the node
    itself for any other key that holds one. *)
Definition animated_nodes (styleProp : option nat) (props : bag value)
  : bag nat :=
  flat_map (λ '(key, v),
    if bool_decide (key = "style")
    then match styleProp with
         | Some composite => [(key, composite)]
         | None => []
         end
    else match v with
         | VNode n | VStyle n => [(key, n)]
         | _ => []
         end) props.

(** The world once every node of [animated_nodes] was made native. *)
Definition made_native (styleProp : option nat) (props : bag value)
    (w : world) : world :=
  World (list_to_set (animated_nodes styleProp props).*2 ∪ native_nodes w)
        (next_object w)
        (trace w ++ (NodeMakeNative <$> (animated_nodes styleProp props).*2)).

(** The instance once [__makeNative] has set its flags. *)
Definition gone_native (s : t) : t :=
  set_isNative true (if _firstValueReturned s then set_reattachAll true s else s).

(** A snapshot entry of an instance all of whose nodes are native: a key
    that holds a node other than a style is left out. *)
Definition native_snapshot_entry (styleProp : option nat) (key : string)
    (v : value) : option resolved :=
  if bool_decide (key = "style") then RValue <$> styleProp else
  match v with
  | VNode _ => None
  | VStyle n => Some (RValue n)
  | VEvent e => Some (RHandler e)
  | VPlain p => Some (RPlain p)
  end.

(** What an accessor returns: the nodes of [animated_nodes], each read with
    [read]. *)
Definition read_nodes (read : nat → resolved) (styleProp : option nat)
    (props : bag value) : bag resolved :=
  prod_map id read <$> animated_nodes styleProp props.

(** The calls that bind one value to the instance [me]: the subscription
    (through the new composite [fresh] for a [style] value that is not an
    [AnimatedStyle]), then, on a native instance, making the node native,
    then the binding of a native event on the view. *)
Definition attach_calls (isNative : bool) (view : viewref) (me fresh : nat)
    (key : string) (v : value) : list effect :=
  subscribe_calls me fresh [(key, v)]
  ++ (if isNative
      then NodeMakeNative <$> (animated_nodes (Some fresh) [(key, v)]).*2
      else [])
  ++ event_calls EventAttach view [(key, v)].

(** The calls that unbind one value: the subscription is undone (on the
    cached composite [styleProp] for a [style] value that is not an
    [AnimatedStyle]), then the native event is unbound from the view. *)
Definition detach_calls (view : viewref) (me : nat) (styleProp : option nat)
    (key : string) (v : value) : list effect :=
  unsubscribe_calls me styleProp [(key, v)]
  ++ event_calls EventDetach view [(key, v)].

(** The calls that release what a key was bound to before it is replaced:
    for the [style] key that is the cached composite, whatever the bag
    held. *)
Definition released_calls (view : viewref) (me : nat) (styleProp : option nat)
    (key : string) (lastValue : value) : list effect :=
  if bool_decide (key = "style")
  then match styleProp with
       | Some composite => [RemoveChild composite me]
       | None => []
       end
  else detach_calls view me styleProp key lastValue.

(** Replacing the binding of one key: the new value is attached, and then
    the old one is released. *)
Definition replace_calls (s : t) (fresh : nat) (key : string)
    (lastValue nextValue : value) : list effect :=
  attach_calls (__isNative s) (_view s) (self s) fresh key nextValue
  ++ released_calls (_view s) (self s) (_styleProp s) key lastValue.

(** The calls of an update of the instance [s] to the bag [nextProps]: each
    of the keys [replaced] has its binding replaced, in their order, and
    then each animated key of the last bag that the next bag no longer has
    is detached.  [fresh] is the identity that a new composite receives. *)
Definition update_calls (s : t) (fresh : nat) (replaced : list string)
    (nextProps : bag value) : list effect :=
  flat_map (λ key, replace_calls s fresh key (prop (_props s) key) (prop nextProps key))
           replaced
  ++ flat_map (λ key, detach_calls (_view s) (self s) (_styleProp s) key
                        (prop (_props s) key))
              (removedKeys (_props s) nextProps).

(** The calls of [__detach] on the instance [s]. *)
Definition instance_detach_calls (s : t) : list effect :=
  view_calls DisconnectAnimatedNodeFromView (__isNative s) (self s) (_view s)
  ++ event_calls EventDetach (_view s) (_props s)
  ++ unsubscribe_calls (self s) (_styleProp s) (_props s)
  ++ [SuperDetach (self s)].

(** The calls that build a new instance [me] from a bag. *)
Definition instance_attach_calls (me : nat) (props : bag value) : list effect :=
  SuperAttach me :: subscribe_calls me (S me) props.

(** The style composite is where an update that replaces the keys
    [replaced] asserts it: when [style] is replaced the cached composite is
    there to be released, and a native instance is not given an
    [AnimatedStyle] of the caller's; when a [style] that went through a
    composite is removed, the composite is there. *)
Definition style_ready (s : t) (replaced : list string) (nextProps : bag value)
  : Prop :=
  ("style" ∈ replaced →
   is_Some (_styleProp s) ∧
   (__isNative s = true → instanceof_AnimatedStyle (prop nextProps "style") = false)) ∧
  ("style" ∉ keys nextProps → needs_composite (_props s) = true →
   is_Some (_styleProp s)).

(** The unbinding calls of a list of detachers. *)
Definition detacher_calls (detachers : list NativeEvents.detacher) : list effect :=
  (λ remove, EventDetach (NativeEvents.d_event remove) (NativeEvents.d_target remove)
               (NativeEvents.d_key remove)) <$> detachers.

(** The fields that no method but [updateView], [__makeNative] and
    [__getValue] writes. *)
Definition same_binding (s s' : t) : Prop :=
  self s' = self s ∧ _view s' = _view s ∧ __isNative s' = __isNative s ∧
  _firstValueReturned s' = _firstValueReturned s.

(** The instance as it was, or with its composite forgotten. *)
Definition forgets_composite (s s' : t) : Prop :=
  s' = s ∨ s' = set_styleProp None s.

(** Every node that the bag holds under a key other than [style] is
    native. *)
Definition nodes_native (s : t) (w : world) : Prop :=
  ∀ key n, (key, VNode n) ∈ _props s → key ≠ "style" → n ∈ native_nodes w.

(** Same mode, and no node stops being native. *)
Definition stays_native (a b : t * world) : Prop :=
  __isNative b.1 = __isNative a.1 ∧ natives_grow a.2 b.2.

(** Calls that subscribe, unsubscribe or bind an event, as opposed to the
    calls that connect a view, start or end the instance, or update the
    screen. *)
Definition is_binding (e : effect) : bool :=
  match e with
  | NewAnimatedStyle _ _ | AddChild _ _ | RemoveChild _ _ | NodeMakeNative _
  | EventAttach _ _ _ | EventDetach _ _ _ => true
  | _ => false
  end.

(** The detachers that [_attachNativeEvents] pushes for a bag on a view. *)
Definition detachers_of (view : nat) (props : bag value)
  : list NativeEvents.detacher :=
  flat_map (λ '(key, v),
    match v with
    | VEvent e =>
        if event_isNative e
        then [NativeEvents.Detacher (ev_id e) (default view (getScrollableNode view)) key]
        else []
    | _ => []
    end) props.

End ExpectedLifecycle.

(** ** Example runs *)

Section Examples.
#[local] Existing Instance example_host.
Import AnimatedProps.

(** An instance built from [example_props], bound to view 1. *)
Definition example_created : outcome t unit :=
  constructor example_props empty_world.

Definition example_mounted : outcome t unit :=
  after example_created (updateView (ViewObj 1)).

(** The same instance once a snapshot was read, and once it went native
    after that. *)
Definition example_rendered : outcome t (bag resolved) :=
  after example_mounted __getValue.

Definition example_native : outcome t unit :=
  after example_rendered __makeNative.

(** An instance that goes native before any snapshot is read. *)
Definition example_native_first : outcome t unit :=
  after example_mounted __makeNative.

(** A wrapper of the first listing around an instance. *)
Definition example_wrapper (component : viewref) (inst : t) (skip : bool)
  : createAnimatedComponent.t :=
  createAnimatedComponent.Make (_props inst) component ViewUndefined false
    (Some inst) skip.

(** A wrapper of the second listing around an instance. *)
Definition example_wrapper_2 (component : viewref) (inst : t)
  : createAnimatedComponent_2.t :=
  createAnimatedComponent_2.Make (_props inst) component ViewUndefined (Some inst).

(** Two bags over two nodes: the second drops the key [scale]. *)
Definition two_nodes : bag value := [("opacity", VNode 7); ("scale", VNode 8)].
Definition one_node : bag value := [("opacity", VNode 7)].

(** The bag [one_node] with an event key added. *)
Definition node_and_event : bag value :=
  [("opacity", VNode 7); ("onScroll", VEvent example_event)].

(** The bag [one_node] with another node under the same key. *)
Definition other_node : bag value := [("opacity", VNode 8)].

(** The bag [one_node] with a [style] key that holds [undefined]. *)
Definition node_and_undefined_style : bag value :=
  [("opacity", VNode 7); ("style", VPlain PUndefined)].

(** The runs that the examples below look at. *)
Definition example_reattached : outcome t unit :=
  after example_native (updateProps example_props).

Definition example_native_rendered : outcome t (bag resolved) :=
  after example_native_first __getValue.

Definition example_next_props : bag value :=
  bag_set "opacity" (VNode 8) example_props.

Definition example_updated : outcome t unit :=
  after example_mounted (updateProps example_next_props).

Definition two_nodes_created : outcome t unit :=
  constructor two_nodes empty_world.

Definition two_nodes_updated : outcome t unit :=
  after two_nodes_created (updateProps one_node).

Definition one_node_created : outcome t unit :=
  constructor one_node empty_world.

Definition one_node_received : outcome createAnimatedComponent.t unit :=
  createAnimatedComponent.componentWillReceiveProps node_and_event
    (example_wrapper (ViewObj 1) (state_of one_node_created) false)
    (world_of one_node_created).

Definition one_node_replaced : outcome t unit :=
  after one_node_created (updateProps other_node).

Definition one_node_styled : outcome t unit :=
  after one_node_created (updateProps node_and_undefined_style).

(** The example instance bound to view 0, which the backend cannot
    locate, and what becomes of it when it goes native. *)
Definition example_unlocated : outcome t unit :=
  after example_created (updateView (ViewObj 0)).

Definition example_failed_native : outcome t unit :=
  after example_unlocated __makeNative.

(** A native instance that receives another node under [opacity]. *)
Definition example_native_updated : outcome t unit :=
  after example_native_first (updateProps example_next_props).

(** The bag [one_node] with a [style] key that holds a plain style. *)
Definition node_and_style : bag value :=
  [("opacity", VNode 7); ("style", VPlain (PObj [("width", PNum 3)]))].

(** A bag whose [style] key holds an event. *)
Definition style_event : bag value := [("style", VEvent example_event)].

(** A component of the second listing that has not mounted yet. *)
Definition example_unmounted_2 : createAnimatedComponent_2.t :=
  createAnimatedComponent_2.Make example_props ViewUndefined ViewUndefined None.

(** A wrapper of the first listing on the scroll container 4, with no
    detacher pending; and one without an instance, with one detacher. *)
Definition example_events : NativeEvents.t :=
  NativeEvents.Make (example_wrapper (ViewObj 4) (state_of example_created) false) [].

Definition example_events_only : NativeEvents.t :=
  NativeEvents.Make
    (createAnimatedComponent.Make example_props (ViewObj 4) ViewUndefined false None false)
    [NativeEvents.Detacher 9 41 "onScroll"].

(** The wrapper of [example_events] with the detacher of [onScroll]
    pending; and a wrapper, with the same detacher, around an instance that
    lost track of its style composite. *)
Definition example_events_pending : NativeEvents.t :=
  NativeEvents.Make (example_wrapper (ViewObj 4) (state_of example_created) false)
    [NativeEvents.Detacher 9 41 "onScroll"].

Definition example_events_broken : NativeEvents.t :=
  NativeEvents.Make (example_wrapper (ViewObj 4) (state_of one_node_styled) false)
    [NativeEvents.Detacher 9 41 "onScroll"].

(** Another native event, with a mapping of its own; [example_props] with
    it under [onScroll], and [example_props] with it under one more key. *)
Definition other_event : AnimatedEvent :=
  Event 10 [("__isNative", PBool true); ("_attachedEvent", PNull);
            ("_argMapping", PStr "contentOffset.y")].

Definition example_event_props : bag value :=
  bag_set "onScroll" (VEvent other_event) example_props.

Definition two_events : bag value :=
  example_props ++ [("onMomentumScrollEnd", VEvent other_event)].

(** A wrapper of the first listing that was updated from [example_props] to
    [two_events] on the same component, the detacher of [onScroll]
    pending. *)
Definition example_events_updated : NativeEvents.t :=
  NativeEvents.Make
    (createAnimatedComponent.Make two_events (ViewObj 4) (ViewObj 4) false
       (Some (state_of example_created)) false)
    [NativeEvents.Detacher 9 41 "onScroll"].

End Examples.

(** * Properties *)

(** ** Running computations *)

Lemma bind_returned {St A B} (m : M St A) (k : A → M St B) s w b s' w' :
  bind m k s w = Returned b s' w' ↔
  ∃ a s1 w1, m s w = Returned a s1 w1 ∧ k a s1 w1 = Returned b s' w'.
Proof.
  unfold bind. split.
  - destruct (m s w) as [a s1 w1|msg s1 w1]; [eauto|discriminate].
  - intros (a & s1 & w1 & -> & Hk). exact Hk.
Qed.

Lemma bind_of_returned {St A B} (m : M St A) (k : A → M St B) s w a s1 w1 :
  m s w = Returned a s1 w1 → bind m k s w = k a s1 w1.
Proof. unfold bind. by intros ->. Qed.

Lemma bind_of_thrown {St A B} (m : M St A) (k : A → M St B) s w msg s1 w1 :
  m s w = Thrown msg s1 w1 → bind m k s w = Thrown msg s1 w1.
Proof. unfold bind. by intros ->. Qed.

Lemma bind_assoc {St A B C} (m : M St A) (f : A → M St B) (g : B → M St C) s w :
  bind (bind m f) g s w = bind m (λ x, bind (f x) g) s w.
Proof. unfold bind. by destruct (m s w). Qed.

Lemma bind_ret_l {St A B} (a : A) (k : A → M St B) s w :
  bind (ret a) k s w = k a s w.
Proof. reflexivity. Qed.

Lemma bind_gets {St A B} (f : St → A) (k : A → M St B) s w :
  bind (gets f) k s w = k (f s) s w.
Proof. reflexivity. Qed.

Lemma bind_modify {St B} (f : St → St) (k : unit → M St B) s w :
  bind (modify f) k s w = k tt (f s) w.
Proof. reflexivity. Qed.

Lemma bind_emit {St B} (e : effect) (k : unit → M St B) (s : St) w :
  bind (emit e) k s w = k tt s (calls [e] w).
Proof. reflexivity. Qed.

Lemma bind_throw {St A B} msg (k : A → M St B) s w :
  bind (throw msg) k s w = Thrown msg s w.
Proof. reflexivity. Qed.

(** Two computations with the same first part agree if their continuations
    agree on what it returns. *)
Lemma bind_ext_head {St A B} (m : M St A) (k1 k2 : A → M St B) s w :
  (∀ a s1 w1, m s w = Returned a s1 w1 → k1 a s1 w1 = k2 a s1 w1) →
  bind m k1 s w = bind m k2 s w.
Proof. unfold bind. intros Hk. destruct (m s w); [by apply Hk|done]. Qed.

Lemma bind_eq_head {St A B} (m m' : M St A) (k : A → M St B) s w :
  m s w = m' s w → bind m k s w = bind m' k s w.
Proof. unfold bind. by intros ->. Qed.

Lemma calls_nil w : calls [] w = w.
Proof. destruct w. unfold calls. simpl. by rewrite app_nil_r. Qed.

Lemma calls_app d1 d2 w : calls d2 (calls d1 w) = calls (d1 ++ d2) w.
Proof. unfold calls. simpl. by rewrite app_assoc. Qed.

Lemma emit_calls {St} (e : effect) (s : St) w :
  emit e s w = Returned tt s (calls [e] w).
Proof. reflexivity. Qed.

Section WithHost.
Context `{Host}.

Lemma reads_ret {St A} (a : A) : reads (@ret St A a).
Proof. by intros s w. Qed.

Lemma reads_throw {St A} msg : reads (@throw St A msg).
Proof. by intros s w. Qed.

Lemma reads_gets {St A} (f : St → A) : reads (gets f).
Proof. by intros s w. Qed.

Lemma reads_node_isNative {St} n : reads (@node_isNative St n).
Proof. by intros s w. Qed.

Lemma reads_bind {St A B} (m : M St A) (k : A → M St B) :
  reads m → (∀ a, reads (k a)) → reads (bind m k).
Proof.
  intros Hm Hk s w. unfold bind. specialize (Hm s w).
  destruct (m s w) as [a s1 w1|msg s1 w1]; simpl in Hm; destruct Hm as [-> ->].
  - apply Hk.
  - done.
Qed.

Lemma reads_reduce {St X R} (l : list X) (f : R → X → M St R) init :
  (∀ r x, reads (f r x)) → reads (reduce l f init).
Proof.
  intros Hf. revert init. induction l as [|x l IH]; intros init; simpl.
  - apply reads_ret.
  - apply reads_bind; [apply Hf|apply IH].
Qed.

Lemma reads_returned {St A} (m : M St A) s w a s' w' :
  reads m → m s w = Returned a s' w' → s' = s ∧ w' = w.
Proof. intros Hm E. specialize (Hm s w). by rewrite E in Hm. Qed.

Lemma reads_thrown {St A} (m : M St A) s w msg s' w' :
  reads m → m s w = Thrown msg s' w' → s' = s ∧ w' = w.
Proof. intros Hm E. specialize (Hm s w). by rewrite E in Hm. Qed.

Lemma reads_styleProp_or key value msg :
  reads (AnimatedProps.styleProp_or key value msg).
Proof.
  unfold AnimatedProps.styleProp_or. case_bool_decide; [|apply reads_ret].
  apply reads_bind; [apply reads_gets|].
  intros [n|]; [apply reads_ret|apply reads_throw].
Qed.

Lemma getAnimatedValue_reads : reads AnimatedProps.__getAnimatedValue.
Proof.
  apply reads_bind; [apply reads_gets|]. intros entries.
  apply reads_reduce. intros acc [key value].
  unfold AnimatedProps.__getAnimatedValue_entry.
  apply reads_bind; [apply reads_styleProp_or|].
  intros [p|n|n|e]; apply reads_ret.
Qed.

Lemma getAnimatedValue_returned s w animated s' w' :
  AnimatedProps.__getAnimatedValue s w = Returned animated s' w' →
  s' = s ∧ w' = w.
Proof.
  apply reads_returned, getAnimatedValue_reads.
Qed.

Lemma getAnimatedValue_thrown s w msg s' w' :
  AnimatedProps.__getAnimatedValue s w = Thrown msg s' w' →
  s' = s ∧ w' = w.
Proof.
  apply reads_thrown, getAnimatedValue_reads.
Qed.

(** With the style composite cached, the animated-only bag can be computed. *)
Lemma getAnimatedValue_returns s w :
  ("style" ∈ keys (AnimatedProps._props s) → is_Some (AnimatedProps._styleProp s)) →
  ∃ animated, AnimatedProps.__getAnimatedValue s w = Returned animated s w.
Proof.
  unfold AnimatedProps.__getAnimatedValue. rewrite bind_gets.
  generalize (@nil (string * resolved)). unfold keys.
  induction (AnimatedProps._props s) as [|[key value] rest IH]; intros acc Hstyle.
  - by eexists.
  - cbn [reduce].
    assert (∃ acc', AnimatedProps.__getAnimatedValue_entry acc (key, value) s w
                    = Returned acc' s w) as [acc' E].
    { unfold AnimatedProps.__getAnimatedValue_entry, AnimatedProps.styleProp_or.
      case_bool_decide as Hk.
      - destruct Hstyle as [n Hn]; [subst key; left|].
        rewrite bind_assoc, bind_gets, Hn, bind_ret_l. by eexists.
      - rewrite bind_ret_l. destruct value; by eexists. }
    rewrite (bind_of_returned _ _ _ _ _ _ _ E). apply IH.
    intros Hin. apply Hstyle. by right.
Qed.

(** C1, as the code has it.  When the animated-change callback fires while
    the instance is not native and a view is bound: without [setNativeProps]
    on the view, or under the test-only override of the first listing,
    exactly one call is made, [forceUpdate]; otherwise, on a bag whose
    [style] key, if any, has its composite cached, exactly one call is made,
    [setNativeProps] with the animated-only bag that [__getAnimatedValue]
    returns.  Nothing else changes.  When [__getAnimatedValue] throws, the
    callback throws the same error and makes no call. *)
Theorem callback_invokes_exactly_one (c : nat) (inst : AnimatedProps.t) (w : world) :
  AnimatedProps.__isNative inst = false →
  (∀ s : createAnimatedComponent.t,
     createAnimatedComponent._component s = ViewObj c →
     createAnimatedComponent._propsAnimated s = Some inst →
     let forced := createAnimatedComponent.__skipSetNativeProps_FOR_TESTS_ONLY s
                   || negb (hasSetNativeProps c) in
     (forced = true →
      createAnimatedComponent._animatedPropsCallback s w
      = Returned tt s (calls [ForceUpdate] w)) ∧
     (forced = false →
      ("style" ∈ keys (AnimatedProps._props inst) →
       is_Some (AnimatedProps._styleProp inst)) →
      ∃ animated,
        AnimatedProps.__getAnimatedValue inst w = Returned animated inst w ∧
        createAnimatedComponent._animatedPropsCallback s w
        = Returned tt s (calls [SetNativeProps c animated] w)) ∧
     (forced = false → ∀ msg inst' w',
      AnimatedProps.__getAnimatedValue inst w = Thrown msg inst' w' →
      createAnimatedComponent._animatedPropsCallback s w = Thrown msg s w)) ∧
  (∀ s : createAnimatedComponent_2.t,
     createAnimatedComponent_2._component s = ViewObj c →
     createAnimatedComponent_2._animatedProps s = Some inst →
     (hasSetNativeProps c = false →
      createAnimatedComponent_2.callback s w
      = Returned tt s (calls [ForceUpdate] w)) ∧
     (hasSetNativeProps c = true →
      ("style" ∈ keys (AnimatedProps._props inst) →
       is_Some (AnimatedProps._styleProp inst)) →
      ∃ animated,
        AnimatedProps.__getAnimatedValue inst w = Returned animated inst w ∧
        createAnimatedComponent_2.callback s w
        = Returned tt s (calls [SetNativeProps c animated] w)) ∧
     (hasSetNativeProps c = true → ∀ msg inst' w',
      AnimatedProps.__getAnimatedValue inst w = Thrown msg inst' w' →
      createAnimatedComponent_2.callback s w = Thrown msg s w)).
Proof.
  intros Hnat.
  split.
  - intros s Hc Hp forced. subst forced. split; [|split].
    + intros Hf. unfold createAnimatedComponent._animatedPropsCallback, bind, gets.
      rewrite Hc, Hf. reflexivity.
    + intros Hf Hstyle. destruct (getAnimatedValue_returns inst w Hstyle) as [animated Hget].
      exists animated. split; [done|].
      unfold createAnimatedComponent._animatedPropsCallback, bind, gets.
      rewrite Hc, Hf. unfold createAnimatedComponent.onProps.
      rewrite Hp, Hnat. simpl. rewrite Hget. simpl. destruct s; simpl in *. subst. reflexivity.
    + intros Hf msg inst' w' Hget.
      destruct (getAnimatedValue_thrown _ _ _ _ _ Hget) as [-> ->].
      unfold createAnimatedComponent._animatedPropsCallback, bind, gets.
      rewrite Hc, Hf. unfold createAnimatedComponent.onProps.
      rewrite Hp, Hnat. simpl. rewrite Hget. simpl. destruct s; simpl in *. subst. reflexivity.
  - intros s Hc Hp. split; [|split].
    + intros Hf. unfold createAnimatedComponent_2.callback, bind, gets.
      rewrite Hc, Hf. reflexivity.
    + intros Hf Hstyle. destruct (getAnimatedValue_returns inst w Hstyle) as [animated Hget].
      exists animated. split; [done|].
      unfold createAnimatedComponent_2.callback, bind, gets.
      rewrite Hc, Hf. unfold createAnimatedComponent_2.onProps.
      rewrite Hp, Hnat. simpl. rewrite Hget. simpl. destruct s; simpl in *. subst. reflexivity.
    + intros Hf msg inst' w' Hget.
      destruct (getAnimatedValue_thrown _ _ _ _ _ Hget) as [-> ->].
      unfold createAnimatedComponent_2.callback, bind, gets.
      rewrite Hc, Hf. unfold createAnimatedComponent_2.onProps.
      rewrite Hp, Hnat. simpl. rewrite Hget. simpl. destruct s; simpl in *. subst. reflexivity.
Qed.
End WithHost.

(** ** Bags *)

Lemma lookup_key_bag_set {V} (b : bag V) key v key' :
  lookup_key (bag_set key v b) key'
  = if decide (key = key') then Some v else lookup_key b key'.
Proof.
  induction b as [|[k x] rest IH]; simpl.
  - destruct (decide (key = key')); done.
  - destruct (decide (k = key)) as [->|Hne]; simpl.
    + destruct (decide (key = key')); done.
    + destruct (decide (k = key')) as [->|]; [|exact IH].
      destruct (decide (key = key')); congruence.
Qed.

Lemma lookup_key_None {V} (b : bag V) key :
  lookup_key b key = None ↔ key ∉ keys b.
Proof.
  unfold keys. induction b as [|[k x] rest IH]; simpl.
  - split; [intros _; apply not_elem_of_nil|done].
  - rewrite not_elem_of_cons. destruct (decide (k = key)) as [->|Hne].
    + split; [done|]. intros [? _]. done.
    + rewrite IH. split; [by intros ?; split|by intros [_ ?]].
Qed.

Lemma lookup_key_Some_elem {V} (b : bag V) key v :
  lookup_key b key = Some v → (key, v) ∈ b.
Proof.
  induction b as [|[k x] rest IH]; simpl; [done|].
  destruct (decide (k = key)) as [->|Hne].
  - intros [= ->]. left.
  - intros E. right. by apply IH.
Qed.

Lemma lookup_key_elem {V} (b : bag V) key v :
  NoDup (keys b) → (key, v) ∈ b → lookup_key b key = Some v.
Proof.
  unfold keys. induction b as [|[k x] rest IH]; simpl.
  - intros _ Hin. by apply elem_of_nil in Hin.
  - rewrite NoDup_cons. intros [Hk Hnd] Hin.
    apply elem_of_cons in Hin as [[= -> ->]|Hin].
    + by rewrite decide_True.
    + destruct (decide (k = key)) as [->|Hne]; [|by apply IH].
      exfalso. apply Hk. apply list_elem_of_fmap. by exists (key, v).
Qed.

Lemma keys_bag_set {V} (b : bag V) key v :
  key ∈ keys b → keys (bag_set key v b) = keys b.
Proof.
  unfold keys. induction b as [|[k x] rest IH]; simpl.
  - intros Hin. by apply elem_of_nil in Hin.
  - intros Hin. destruct (decide (k = key)) as [->|Hne]; simpl; [done|].
    f_equal. apply IH. apply elem_of_cons in Hin as [Hin|Hin]; [simpl in Hin; congruence|done].
Qed.

Lemma prop_bag_set (b : bag value) key v key' :
  prop (bag_set key v b) key' = if decide (key = key') then v else prop b key'.
Proof.
  unfold prop. rewrite lookup_key_bag_set. by destruct (decide (key = key')).
Qed.

Section WithHost.
Context `{Host}.

(** ** Snapshots *)

Lemma getValue_entry_snapshot s w acc key value :
  (key = "style" → is_Some (AnimatedProps._styleProp s)) →
  AnimatedProps.__getValue_entry acc (key, value) s w
  = Returned
      match snapshot_entry (native_nodes w) (AnimatedProps._styleProp s) key value with
      | Some r => bag_set key r acc
      | None => acc
      end s w.
Proof.
  intros Hstyle.
  unfold AnimatedProps.__getValue_entry, AnimatedProps.styleProp_or, snapshot_entry.
  case_bool_decide as Hk.
  - destruct Hstyle as [n Hn]; [done|].
    unfold bind, gets, node_isNative. rewrite Hn. simpl.
    by rewrite orb_true_r.
  - unfold bind, ret, node_isNative. destruct value as [p|n|n|e]; simpl; try done.
    + rewrite orb_false_r. by destruct (bool_decide (n ∈ native_nodes w)).
    + by rewrite orb_true_r.
Qed.

(** The loop of [__getValue], as a fold. *)
Lemma getValue_reduce s w entries acc :
  ("style" ∈ keys entries → is_Some (AnimatedProps._styleProp s)) →
  reduce entries AnimatedProps.__getValue_entry acc s w
  = Returned
      (fold_left (λ props '(key, value),
         match snapshot_entry (native_nodes w) (AnimatedProps._styleProp s) key value with
         | Some r => bag_set key r props
         | None => props
         end) entries acc) s w.
Proof.
  revert acc. induction entries as [|[key value] rest IH]; intros acc Hstyle; [done|].
  cbn [reduce fold_left].
  erewrite bind_of_returned; last first.
  { apply getValue_entry_snapshot. intros ->. apply Hstyle. unfold keys. simpl. left. }
  apply IH. intros Hin. apply Hstyle. unfold keys in *. simpl. by right.
Qed.

Lemma snapshot_fold_lookup natives sp (entries : bag value) acc key :
  NoDup (keys entries) →
  lookup_key
    (fold_left (λ props '(key, value),
       match snapshot_entry natives sp key value with
       | Some r => bag_set key r props
       | None => props
       end) entries acc) key
  = match lookup_key entries key with
    | Some v =>
        match snapshot_entry natives sp key v with
        | Some r => Some r
        | None => lookup_key acc key
        end
    | None => lookup_key acc key
    end.
Proof.
  revert acc. unfold keys.
  induction entries as [|[k v] rest IH]; intros acc Hnd; [done|].
  simpl in *. apply NoDup_cons in Hnd as [Hk Hnd]. rewrite IH by done.
  destruct (decide (k = key)) as [->|Hne].
  - assert (lookup_key rest key = None) as -> by by apply lookup_key_None.
    destruct (snapshot_entry natives sp key v); [|done].
    rewrite lookup_key_bag_set. by rewrite decide_True.
  - assert (∀ r, lookup_key (bag_set k r acc) key = lookup_key acc key) as Hset.
    { intros r. rewrite lookup_key_bag_set. by rewrite decide_False. }
    destruct (snapshot_entry natives sp k v); by rewrite ?Hset.
Qed.

Lemma getValue_snapshot s w :
  NoDup (keys (AnimatedProps._props s)) →
  ("style" ∈ keys (AnimatedProps._props s) → is_Some (AnimatedProps._styleProp s)) →
  ∃ rendered,
    AnimatedProps.__getValue s w
    = Returned rendered (AnimatedProps.set_firstValueReturned true s) w ∧
    ∀ key, lookup_key rendered key
           = lookup_key (AnimatedProps._props s) key
             ≫= snapshot_entry (native_nodes w) (AnimatedProps._styleProp s) key.
Proof.
  intros Hnd Hstyle. eexists. split.
  - unfold AnimatedProps.__getValue, bind at 1, modify.
    unfold bind at 1, gets. 
    rewrite getValue_reduce; [reflexivity|done].
  - intros key. simpl. rewrite snapshot_fold_lookup by done.
    destruct (lookup_key (AnimatedProps._props s) key) as [v|]; simpl; [|done].
    by destruct (snapshot_entry _ _ key v).
Qed.

Lemma getValue_entry_reads acc entry :
  reads (AnimatedProps.__getValue_entry acc entry).
Proof.
  destruct entry as [key value]. unfold AnimatedProps.__getValue_entry.
  apply reads_bind; [apply reads_styleProp_or|].
  intros [p|n|n|e]; try apply reads_ret.
  all: apply reads_bind; [apply reads_node_isNative|];
    intros b; destruct (_ || _); apply reads_ret.
Qed.

(** The marker is set before anything can throw. *)
Lemma getValue_marks s w :
  state_of (AnimatedProps.__getValue s w)
  = AnimatedProps.set_firstValueReturned true s.
Proof.
  unfold AnimatedProps.__getValue, bind at 1, modify.
  assert (reads (entries <- gets AnimatedProps._props ;;
                 reduce entries AnimatedProps.__getValue_entry [])) as Hr.
  { apply reads_bind; [apply reads_gets|]. intros entries.
    apply reads_reduce, getValue_entry_reads. }
  apply Hr.
Qed.

End WithHost.

Section WithHost.
Context `{Host}.

Lemma getValue_reduce_throws s w entries acc :
  "style" ∈ keys entries → AnimatedProps._styleProp s = None →
  reduce entries AnimatedProps.__getValue_entry acc s w
  = Thrown "Expected style prop" s w.
Proof.
  revert acc. unfold keys.
  induction entries as [|[key value] rest IH]; intros acc Hin Hsp.
  - by apply elem_of_nil in Hin.
  - cbn [reduce]. destruct (decide (key = "style")) as [->|Hne].
    + apply bind_of_thrown.
      unfold AnimatedProps.__getValue_entry, AnimatedProps.styleProp_or.
      rewrite bool_decide_eq_true_2 by done. unfold bind, gets. by rewrite Hsp.
    + erewrite bind_of_returned; [|by apply getValue_entry_snapshot].
      apply IH; [|done]. simpl in Hin. apply elem_of_cons in Hin as [|]; [done|done].
Qed.

Lemma getValue_returned_style s w rendered s' w' :
  AnimatedProps.__getValue s w = Returned rendered s' w' →
  "style" ∈ keys (AnimatedProps._props s) → is_Some (AnimatedProps._styleProp s).
Proof.
  intros E Hin. destruct (AnimatedProps._styleProp s) as [n|] eqn:Hsp; [by eexists|].
  exfalso. revert E.
  unfold AnimatedProps.__getValue, bind at 1, modify, bind at 1, gets.
  rewrite getValue_reduce_throws; done.
Qed.

(** C7, as the code has it.  On a bag with distinct keys whose [style] key,
    if any, has its composite cached, [__getValue] returns, sets the
    snapshot-returned marker and changes nothing else.  The [style] key
    resolves to the value of the cached composite, native or not.  Under any
    other key a native node that is not a style composite is left out, any
    other node resolves to its value, an event resolves to its handler, and
    a plain value passes through.  The snapshot has no other key. *)
Theorem getValue_resolves (s : AnimatedProps.t) (w : world) :
  NoDup (keys (AnimatedProps._props s)) →
  ("style" ∈ keys (AnimatedProps._props s) → is_Some (AnimatedProps._styleProp s)) →
  ∃ rendered,
    AnimatedProps.__getValue s w
    = Returned rendered (AnimatedProps.set_firstValueReturned true s) w ∧
    AnimatedProps._firstValueReturned (AnimatedProps.set_firstValueReturned true s) = true ∧
    (∀ key, key ∉ keys (AnimatedProps._props s) → lookup_key rendered key = None) ∧
    (∀ key v, lookup_key (AnimatedProps._props s) key = Some v →
       (key = "style" →
        lookup_key rendered key = RValue <$> AnimatedProps._styleProp s ∧
        is_Some (lookup_key rendered key)) ∧
       (key ≠ "style" →
        lookup_key rendered key =
        match v with
        | VNode n => if bool_decide (n ∈ native_nodes w) then None else Some (RValue n)
        | VStyle n => Some (RValue n)
        | VEvent e => Some (RHandler e)
        | VPlain p => Some (RPlain p)
        end)).
Proof.
  intros Hnd Hstyle. destruct (getValue_snapshot s w Hnd Hstyle) as (rendered & E & Hl).
  exists rendered. split; [done|]. split; [done|]. split.
  - intros key Hk. rewrite Hl. apply lookup_key_None in Hk. by rewrite Hk.
  - intros key v Hv. rewrite Hl, Hv. simpl. unfold snapshot_entry. split.
    + intros ->. rewrite bool_decide_eq_true_2 by done. split; [done|].
      destruct Hstyle as [n ->]; [|by eexists].
      apply lookup_key_Some_elem in Hv. unfold keys.
      apply list_elem_of_fmap. by exists ("style", v).
    + intros Hne. by rewrite bool_decide_eq_false_2.
Qed.

(** C10. Both listings render the snapshot with [collapsable] set over it:
    to [false] when the instance is native, whatever the caller gave, and
    otherwise to the snapshot's own [collapsable], which for a plain value of
    the caller is that value (and [undefined] when the caller gave none). *)
Theorem render_collapsable (inst inst' : AnimatedProps.t) (w w' : world)
    (rendered : bag resolved) :
  AnimatedProps.__getValue inst w = Returned rendered inst' w' →
  let collapsable :=
    if AnimatedProps.__isNative inst then RPlain (PBool false)
    else default (RPlain PUndefined) (lookup_key rendered "collapsable") in
  let element := bag_set "collapsable" collapsable rendered in
  (∀ s, createAnimatedComponent._propsAnimated s = Some inst →
        createAnimatedComponent.render s w
        = Returned element (createAnimatedComponent.set_propsAnimated (Some inst') s) w') ∧
  (∀ s, createAnimatedComponent_2._animatedProps s = Some inst →
        createAnimatedComponent_2.render s w
        = Returned element (createAnimatedComponent_2.set_animatedProps (Some inst') s) w') ∧
  (∀ key, lookup_key element key
          = if decide ("collapsable" = key) then Some collapsable
            else lookup_key rendered key) ∧
  (AnimatedProps.__isNative inst = true → collapsable = RPlain (PBool false)) ∧
  (AnimatedProps.__isNative inst = false →
   NoDup (keys (AnimatedProps._props inst)) →
   collapsable
   = match lookup_key (AnimatedProps._props inst) "collapsable" with
     | Some (VPlain p) => RPlain p
     | Some (VEvent e) => RHandler e
     | Some (VStyle n) => RValue n
     | Some (VNode n) =>
         if bool_decide (n ∈ native_nodes w) then RPlain PUndefined else RValue n
     | None => RPlain PUndefined
     end).
Proof.
  intros E collapsable element.
  assert (inst' = AnimatedProps.set_firstValueReturned true inst) as Hinst.
  { pose proof (getValue_marks inst w) as Hm. by rewrite E in Hm. }
  assert (AnimatedProps.__isNative inst' = AnimatedProps.__isNative inst) as Hnat
    by by rewrite Hinst.
  split; [|split; [|split; [|split]]].
  - intros s Hs. unfold createAnimatedComponent.render, bind at 1.
    unfold createAnimatedComponent.onProps at 1. rewrite Hs, E.
    unfold bind, createAnimatedComponent.onProps, gets. simpl. rewrite Hnat.
    reflexivity.
  - intros s Hs. unfold createAnimatedComponent_2.render, bind at 1.
    unfold createAnimatedComponent_2.onProps at 1. rewrite Hs, E.
    unfold bind, createAnimatedComponent_2.onProps, gets. simpl. rewrite Hnat.
    reflexivity.
  - intros key. apply lookup_key_bag_set.
  - intros Hn. subst collapsable. by rewrite Hn.
  - intros Hn Hnd. subst collapsable. rewrite Hn.
    pose proof (getValue_returned_style _ _ _ _ _ E) as Hstyle.
    destruct (getValue_snapshot inst w Hnd Hstyle) as (rendered' & E' & Hl).
    rewrite E in E'. injection E' as <- _ _. rewrite Hl.
    destruct (lookup_key (AnimatedProps._props inst) "collapsable") as [v|]; [|done].
    simpl. unfold snapshot_entry. rewrite bool_decide_eq_false_2 by done.
    destruct v as [p|n|n|e]; try done.
    by destruct (bool_decide (n ∈ native_nodes w)).
Qed.

(** C2, as the code has it.  When the callback fires while the instance is
    native and the bound view has [setNativeProps], the second listing
    throws, and so does the first listing when the test-only override is
    off; the throw leaves the wrapper and the world as they were, so the view
    is not mutated and no re-render is asked for. *)
Theorem native_callback_throws (c : nat) (inst : AnimatedProps.t) (w : world) :
  AnimatedProps.__isNative inst = true →
  hasSetNativeProps c = true →
  (∀ s, createAnimatedComponent._component s = ViewObj c →
        createAnimatedComponent._propsAnimated s = Some inst →
        createAnimatedComponent.__skipSetNativeProps_FOR_TESTS_ONLY s = false →
        ∃ msg, createAnimatedComponent._animatedPropsCallback s w = Thrown msg s w) ∧
  (∀ s, createAnimatedComponent_2._component s = ViewObj c →
        createAnimatedComponent_2._animatedProps s = Some inst →
        ∃ msg, createAnimatedComponent_2.callback s w = Thrown msg s w).
Proof.
  intros Hnat Hcap. split.
  - intros s Hc Hp Hskip. eexists.
    unfold createAnimatedComponent._animatedPropsCallback, bind, gets.
    rewrite Hc, Hskip, Hcap. simpl. unfold createAnimatedComponent.onProps.
    rewrite Hp, Hnat. simpl. unfold throw. f_equal.
    destruct s; simpl in *; by subst.
  - intros s Hc Hp. eexists.
    unfold createAnimatedComponent_2.callback, bind, gets.
    rewrite Hc, Hcap. unfold createAnimatedComponent_2.onProps.
    rewrite Hp, Hnat. simpl. unfold throw. f_equal.
    destruct s; simpl in *; by subst.
Qed.

(** With the override on, the first listing re-renders in native mode too. *)
Lemma skip_flag_forces_update (c : nat) (w : world) s :
  createAnimatedComponent._component s = ViewObj c →
  createAnimatedComponent.__skipSetNativeProps_FOR_TESTS_ONLY s = true →
  createAnimatedComponent._animatedPropsCallback s w
  = Returned tt s (calls [ForceUpdate] w).
Proof.
  intros Hc Hskip.
  unfold createAnimatedComponent._animatedPropsCallback, bind, gets.
  by rewrite Hc, Hskip.
Qed.

End WithHost.

Lemma viewref_eqb_refl v : viewref_eqb v v = true.
Proof. destruct v; simpl; [done|done|apply Nat.eqb_refl]. Qed.

Lemma viewref_eqb_eq a b : viewref_eqb a b = true ↔ a = b.
Proof.
  destruct a, b; simpl; try (split; [discriminate|congruence]); try done.
  rewrite Nat.eqb_eq. split; congruence.
Qed.

Section WithHost.
Context `{Host}.

(** ** Binding events and views *)

Lemma attachEventProp_calls key value s w :
  AnimatedProps.__attachEventProp key value s w
  = Returned tt s (calls (event_calls EventAttach (AnimatedProps._view s) [(key, value)]) w).
Proof.
  unfold AnimatedProps.__attachEventProp, event_calls, bind at 1, gets.
  destruct value as [p|n|n|e]; simpl.
  1-3: destruct (AnimatedProps._view s); by rewrite ?calls_nil.
  destruct (AnimatedProps._view s) as [| |v] eqn:Hv; simpl; rewrite ?calls_nil; try done.
  destruct (event_isNative e); simpl; [|by rewrite calls_nil].
  unfold AnimatedProps.__scrollableView, bind, gets. rewrite Hv. simpl.
  reflexivity.
Qed.

Lemma detachEventProp_calls key value s w :
  AnimatedProps.__detachEventProp key value s w
  = Returned tt s (calls (event_calls EventDetach (AnimatedProps._view s) [(key, value)]) w).
Proof.
  unfold AnimatedProps.__detachEventProp, event_calls, bind at 1, gets.
  destruct value as [p|n|n|e]; simpl.
  1-3: destruct (AnimatedProps._view s); by rewrite ?calls_nil.
  destruct (AnimatedProps._view s) as [| |v] eqn:Hv; simpl; rewrite ?calls_nil; try done.
  destruct (event_isNative e); simpl; [|by rewrite calls_nil].
  unfold AnimatedProps.__scrollableView, bind, gets. rewrite Hv. simpl.
  reflexivity.
Qed.

Lemma event_calls_cons call view entry (props : bag value) :
  event_calls call view (entry :: props)
  = event_calls call view [entry] ++ event_calls call view props.
Proof.
  unfold event_calls. destruct view; try done. simpl. by rewrite app_nil_r.
Qed.

Lemma attachEventProps_loop (props : bag value) s w :
  forEach props (λ '(key, value), AnimatedProps.__attachEventProp key value) s w
  = Returned tt s (calls (event_calls EventAttach (AnimatedProps._view s) props) w).
Proof.
  revert w. induction props as [|[key value] rest IH]; intros w.
  - simpl. unfold ret, event_calls. destruct (AnimatedProps._view s); simpl; by rewrite calls_nil.
  - cbn [forEach]. erewrite bind_of_returned; [|apply attachEventProp_calls].
    rewrite IH, calls_app. by rewrite (event_calls_cons _ _ (key, value) rest).
Qed.

Lemma detachEventProps_loop (props : bag value) s w :
  forEach props (λ '(key, value), AnimatedProps.__detachEventProp key value) s w
  = Returned tt s (calls (event_calls EventDetach (AnimatedProps._view s) props) w).
Proof.
  revert w. induction props as [|[key value] rest IH]; intros w.
  - simpl. unfold ret, event_calls. destruct (AnimatedProps._view s); simpl; by rewrite calls_nil.
  - cbn [forEach]. erewrite bind_of_returned; [|apply detachEventProp_calls].
    rewrite IH, calls_app. by rewrite (event_calls_cons _ _ (key, value) rest).
Qed.

Lemma attachEventProps_calls s w :
  AnimatedProps.__attachEventProps s w
  = Returned tt s (calls (event_calls EventAttach (AnimatedProps._view s)
                                      (AnimatedProps._props s)) w).
Proof. apply attachEventProps_loop. Qed.

Lemma detachEventProps_calls s w :
  AnimatedProps.__detachEventProps s w
  = Returned tt s (calls (event_calls EventDetach (AnimatedProps._view s)
                                      (AnimatedProps._props s)) w).
Proof. apply detachEventProps_loop. Qed.

Lemma connectView_calls s w :
  located (AnimatedProps.__isNative s) (AnimatedProps._view s) →
  AnimatedProps.__connectView s w
  = Returned tt s (calls (view_calls ConnectAnimatedNodeToView (AnimatedProps.__isNative s)
                                     (AnimatedProps.self s) (AnimatedProps._view s)) w).
Proof.
  intros Hloc. unfold AnimatedProps.__connectView, view_calls, bind, gets.
  destruct (AnimatedProps.__isNative s) eqn:Hn; simpl.
  - destruct (AnimatedProps._view s) as [| |v]; simpl; rewrite ?calls_nil; try done.
    destruct (Hloc eq_refl v eq_refl) as [tag ->]. done.
  - rewrite ?calls_nil. destruct (AnimatedProps._view s); by rewrite ?calls_nil.
Qed.

Lemma disconnectView_calls s w :
  located (AnimatedProps.__isNative s) (AnimatedProps._view s) →
  AnimatedProps.__disconnectView s w
  = Returned tt s (calls (view_calls DisconnectAnimatedNodeFromView (AnimatedProps.__isNative s)
                                     (AnimatedProps.self s) (AnimatedProps._view s)) w).
Proof.
  intros Hloc. unfold AnimatedProps.__disconnectView, view_calls, bind, gets.
  destruct (AnimatedProps.__isNative s) eqn:Hn; simpl.
  - destruct (AnimatedProps._view s) as [| |v]; simpl; rewrite ?calls_nil; try done.
    destruct (Hloc eq_refl v eq_refl) as [tag ->]. done.
  - rewrite ?calls_nil. destruct (AnimatedProps._view s); by rewrite ?calls_nil.
Qed.

Lemma connectView_unlocated s w :
  unlocated (AnimatedProps.__isNative s) (AnimatedProps._view s) →
  AnimatedProps.__connectView s w
  = Thrown "Unable to locate view in the native tree" s w.
Proof.
  intros (Hn & v & Hv & Hnone).
  unfold AnimatedProps.__connectView, bind, gets. rewrite Hn, Hv. simpl.
  by rewrite Hnone.
Qed.

Lemma disconnectView_unlocated s w :
  unlocated (AnimatedProps.__isNative s) (AnimatedProps._view s) →
  AnimatedProps.__disconnectView s w
  = Thrown "Unable to locate view in the native tree" s w.
Proof.
  intros (Hn & v & Hv & Hnone).
  unfold AnimatedProps.__disconnectView, bind, gets. rewrite Hn, Hv. simpl.
  by rewrite Hnone.
Qed.

(** C9. [updateView] with the view that is already bound returns at once:
    the instance and the world, hence the calls made, are unchanged.  With
    any other view, and a backend that can locate both views when the
    instance is native, it detaches the native events from the old view,
    disconnects the old view when native, stores the new view, connects it
    when native, and attaches the native events to it, in that order.  When
    the backend cannot locate a view that a native instance asks for, the
    sequence stops there with the fatal error of the code's assertion: after
    the event detaches for the old view, after the disconnect and the store
    for the new one. *)
Theorem updateView_same_view_or_rebind (s : AnimatedProps.t) (w : world) :
  AnimatedProps.updateView (AnimatedProps._view s) s w = Returned tt s w ∧
  (∀ nextView,
    nextView ≠ AnimatedProps._view s →
    located (AnimatedProps.__isNative s) (AnimatedProps._view s) →
    located (AnimatedProps.__isNative s) nextView →
    AnimatedProps.updateView nextView s w
    = Returned tt (AnimatedProps.set_view nextView s)
        (calls
           (event_calls EventDetach (AnimatedProps._view s) (AnimatedProps._props s)
            ++ view_calls DisconnectAnimatedNodeFromView (AnimatedProps.__isNative s)
                 (AnimatedProps.self s) (AnimatedProps._view s)
            ++ view_calls ConnectAnimatedNodeToView (AnimatedProps.__isNative s)
                 (AnimatedProps.self s) nextView
            ++ event_calls EventAttach nextView (AnimatedProps._props s))
           w)) ∧
  (∀ nextView,
    nextView ≠ AnimatedProps._view s →
    unlocated (AnimatedProps.__isNative s) (AnimatedProps._view s) →
    AnimatedProps.updateView nextView s w
    = Thrown "Unable to locate view in the native tree" s
        (calls
           (event_calls EventDetach (AnimatedProps._view s) (AnimatedProps._props s))
           w)) ∧
  (∀ nextView,
    nextView ≠ AnimatedProps._view s →
    located (AnimatedProps.__isNative s) (AnimatedProps._view s) →
    unlocated (AnimatedProps.__isNative s) nextView →
    AnimatedProps.updateView nextView s w
    = Thrown "Unable to locate view in the native tree"
        (AnimatedProps.set_view nextView s)
        (calls
           (event_calls EventDetach (AnimatedProps._view s) (AnimatedProps._props s)
            ++ view_calls DisconnectAnimatedNodeFromView (AnimatedProps.__isNative s)
                 (AnimatedProps.self s) (AnimatedProps._view s))
           w)).
Proof.
  assert (∀ nextView, nextView ≠ AnimatedProps._view s →
          viewref_eqb (AnimatedProps._view s) nextView = false) as Hother.
  { intros nextView Hne.
    destruct (viewref_eqb (AnimatedProps._view s) nextView) eqn:Heq; [|done].
    apply viewref_eqb_eq in Heq. congruence. }
  split; [|split; [|split]].
  - unfold AnimatedProps.updateView, bind, gets. by rewrite viewref_eqb_refl.
  - intros nextView Hne Hold Hnew.
    unfold AnimatedProps.updateView, bind at 1, gets. rewrite (Hother _ Hne).
    erewrite bind_of_returned; [|apply detachEventProps_calls].
    erewrite bind_of_returned; [|by apply disconnectView_calls].
    erewrite bind_of_returned; [|reflexivity].
    erewrite bind_of_returned; [|by apply connectView_calls].
    rewrite attachEventProps_calls. rewrite !calls_app. simpl.
    by rewrite <- ?app_assoc.
  - intros nextView Hne Hold.
    unfold AnimatedProps.updateView, bind at 1, gets. rewrite (Hother _ Hne).
    erewrite bind_of_returned; [|apply detachEventProps_calls].
    erewrite bind_of_thrown; [|by apply disconnectView_unlocated].
    reflexivity.
  - intros nextView Hne Hold Hnew.
    unfold AnimatedProps.updateView, bind at 1, gets. rewrite (Hother _ Hne).
    erewrite bind_of_returned; [|apply detachEventProps_calls].
    erewrite bind_of_returned; [|by apply disconnectView_calls].
    erewrite bind_of_returned; [|reflexivity].
    erewrite bind_of_thrown; [|by apply connectView_unlocated].
    simpl. by rewrite !calls_app.
Qed.

End WithHost.

(** ** Loops *)

Lemma forEach_ext_in {St X} (l : list X) (f g : X → M St unit) s w :
  (∀ x s w, x ∈ l → f x s w = g x s w) → forEach l f s w = forEach l g s w.
Proof.
  revert s w. induction l as [|x l IH]; intros s w Hfg; [done|].
  cbn [forEach]. unfold bind. rewrite Hfg by left.
  destruct (g x s w) as [[] s1 w1|]; [|done].
  apply IH. intros y s2 w2 Hy. apply Hfg. by right.
Qed.

Lemma forEach_app {St X} (l1 l2 : list X) (f : X → M St unit) s w :
  forEach (l1 ++ l2) f s w = (forEach l1 f ;; forEach l2 f) s w.
Proof.
  revert s w. induction l1 as [|x l1 IH]; intros s w; [done|].
  cbn [forEach app]. unfold bind. destruct (f x s w) as [[] s1 w1|]; [|done].
  rewrite IH. done.
Qed.

Lemma filter_ext_elem {X} (f g : X → bool) (l : list X) :
  (∀ x, x ∈ l → f x = g x) → List.filter f l = List.filter g l.
Proof.
  intros Hfg. apply List.filter_ext_in. intros x Hx. apply Hfg.
  by apply list_elem_of_In.
Qed.

Lemma filter_out_cons (key : string) (rest lk : list string) :
  List.filter (λ k, negb (bool_decide (k ∈ rest)))
    (List.filter (λ lastKey, negb (String.eqb lastKey key)) lk)
  = List.filter (λ k, negb (bool_decide (k ∈ key :: rest))) lk.
Proof.
  induction lk as [|k lk IH]; [done|]. cbn [List.filter].
  destruct (String.eqb k key) eqn:Hk; cbn [negb List.filter].
  - apply String.eqb_eq in Hk as ->.
    rewrite (bool_decide_eq_true_2 (key ∈ key :: rest)) by left.
    cbn [negb]. exact IH.
  - apply String.eqb_neq in Hk.
    assert (bool_decide (k ∈ key :: rest) = bool_decide (k ∈ rest)) as ->.
    { apply bool_decide_ext. rewrite elem_of_cons.
      split; [by intros [?|?]|by right]. }
    destruct (bool_decide (k ∈ rest)); cbn [negb]; by rewrite IH.
Qed.

Lemma filter_out_nil (lk : list string) :
  List.filter (λ k, negb (bool_decide (k ∈ @nil string))) lk = lk.
Proof.
  induction lk as [|k lk IH]; [done|]. cbn [List.filter].
  rewrite bool_decide_eq_false_2 by apply not_elem_of_nil. cbn [negb]. by rewrite IH.
Qed.

Section WithHost.
Context `{Host}.
Import AnimatedProps.

(** ** The diffing loop of [updateProps] *)

Lemma updateProps_loop ra last nextKeys np lk s w :
  ra = true ∨ NoDup nextKeys →
  reduce nextKeys (updateProps_step ra last) (np, lk) s w
  = (forEach
       (List.filter (λ key, ra || animatedDiff (prop last key) (prop np key)) nextKeys)
       (λ key, __replaceProp key (prop last key) (prop np key)) ;;
     ret (carried ra last nextKeys np,
          List.filter (λ k, negb (bool_decide (k ∈ nextKeys))) lk)) s w.
Proof.
  revert np lk s w.
  induction nextKeys as [|key rest IH]; intros np lk s w Hnd.
  - simpl. rewrite bind_ret_l. unfold ret. by rewrite filter_out_nil.
  - assert (ra = true ∨ NoDup rest) as Hrest.
    { destruct Hnd as [|Hnd]; [by left|right]. by apply NoDup_cons in Hnd as [_ ?]. }
    cbn [reduce List.filter]. unfold updateProps_step at 1. unfold carried. cbn [fold_left].
    destruct (ra || animatedDiff (prop last key) (prop np key)) eqn:Hd.
    + cbn [forEach]. rewrite !bind_assoc. apply bind_ext_head. intros [] s1 w1 _.
      cbv beta. rewrite !bind_ret_l, IH by done. apply bind_ext_head. intros [] s2 w2 _.
      unfold ret. by rewrite filter_out_cons.
    + rewrite bind_assoc, !bind_ret_l.
      apply orb_false_iff in Hd as [-> Hd]. destruct Hnd as [|Hnd]; [done|].
      apply NoDup_cons in Hnd as [Hkey Hnd].
      rewrite IH by done.
      assert (∀ k, k ∈ rest → prop (bag_set key (prop last key) np) k = prop np k) as Hk.
      { intros k Hin. rewrite prop_bag_set. rewrite decide_False; [done|]. by intros ->. }
      rewrite (filter_ext_elem _
                 (λ k, false || animatedDiff (prop last k) (prop np k))); last first.
      { intros k Hin. by rewrite Hk. }
      unfold bind.
      erewrite forEach_ext_in; last first.
      { intros k s' w' Hin. apply list_elem_of_In, List.filter_In in Hin as [Hin _].
        apply list_elem_of_In in Hin. by rewrite Hk. }
      destruct (forEach _ _ s w); [|done]. unfold ret. by rewrite filter_out_cons.
Qed.

Lemma carried_reattachAll last nextKeys np : carried true last nextKeys np = np.
Proof. unfold carried. induction nextKeys as [|k l IH]; simpl; [done|exact IH]. Qed.

Lemma filter_true {X} (l : list X) : List.filter (λ _, true) l = l.
Proof. induction l; simpl; congruence. Qed.

Lemma NoDup_animatedKeys (object : bag value) :
  NoDup (keys object) → NoDup (animatedKeys object).
Proof.
  intros Hnd. unfold animatedKeys. apply NoDup_ListNoDup, List.NoDup_filter.
  by apply NoDup_ListNoDup.
Qed.

(** With the flag set, [updateProps] is the reattach-all update. *)
Lemma updateProps_reattachAll nextProps s w :
  _reattachAll s = true →
  updateProps nextProps s w = reattachEverything nextProps s w.
Proof.
  intros Hra. unfold updateProps, reattachEverything.
  rewrite !bind_gets, Hra.
  erewrite bind_eq_head; [|apply updateProps_loop; by left].
  cbn [orb]. rewrite filter_true, bind_assoc. apply bind_ext_head. intros [] s1 w1 _.
  rewrite bind_ret_l. cbn [fst snd]. by rewrite carried_reattachAll.
Qed.

(** With the flag clear, it is the minimal update. *)
Lemma updateProps_reattachChanged nextProps s w :
  _reattachAll s = false → NoDup (keys nextProps) →
  updateProps nextProps s w = reattachChanged nextProps s w.
Proof.
  intros Hra Hnd. unfold updateProps, reattachChanged.
  rewrite !bind_gets, Hra.
  erewrite bind_eq_head; [|apply updateProps_loop; right; by apply NoDup_animatedKeys].
  cbn [orb]. rewrite bind_assoc. apply bind_ext_head. intros [] s1 w1 _.
  by rewrite bind_ret_l.
Qed.

End WithHost.

(** ** Which calls a computation makes *)

Section Emits.
Context {St : Type} (P : effect → bool).

Lemma emits_silent {A} (m : M St A) :
  (∀ s w, world_of (m s w) = w) → emits P m.
Proof. intros Hm s w. exists []. rewrite Hm, app_nil_r. by split. Qed.

Lemma emits_ret {A} (a : A) : emits P (@ret St A a).
Proof. by apply emits_silent. Qed.

Lemma emits_gets {A} (f : St → A) : emits P (gets f).
Proof. by apply emits_silent. Qed.

Lemma emits_modify (f : St → St) : emits P (modify f).
Proof. by apply emits_silent. Qed.

Lemma emits_throw {A} msg : emits P (@throw St A msg).
Proof. by apply emits_silent. Qed.

Lemma emits_invariant cond msg : emits P (@invariant St cond msg).
Proof. destruct cond; by apply emits_silent. Qed.

Lemma emits_new_object : emits P (@new_object St).
Proof. intros s w. exists []. simpl. rewrite app_nil_r. by split. Qed.

Lemma emits_mark_native n : emits P (@mark_native St n).
Proof. intros s w. exists []. simpl. rewrite app_nil_r. by split. Qed.

Lemma emits_node_isNative n : emits P (@node_isNative St n).
Proof. by apply emits_silent. Qed.

Lemma emits_emit e : P e = true → emits P (@emit St e).
Proof. intros He s w. exists [e]. simpl. split; [done|]. by apply Forall_singleton. Qed.

Lemma emits_bind {A B} (m : M St A) (k : A → M St B) :
  emits P m → (∀ a, emits P (k a)) → emits P (bind m k).
Proof.
  intros Hm Hk s w. unfold bind. destruct (Hm s w) as (d1 & E1 & F1).
  destruct (m s w) as [a s1 w1|msg s1 w1]; simpl in E1.
  - destruct (Hk a s1 w1) as (d2 & E2 & F2). exists (d1 ++ d2).
    rewrite E2, E1, app_assoc. split; [done|]. by apply Forall_app.
  - by exists d1.
Qed.

Lemma emits_forEach {X} (l : list X) (f : X → M St unit) :
  (∀ x, emits P (f x)) → emits P (forEach l f).
Proof.
  intros Hf. induction l as [|x l IH]; simpl; [apply emits_ret|].
  apply emits_bind; [apply Hf|]. intros _. exact IH.
Qed.

Lemma emits_then_bind {A B} (Q : effect → bool) (m : M St A) (k : A → M St B) :
  emits P m → (∀ a, emits Q (k a)) → emits_then P Q (bind m k).
Proof.
  intros Hm Hk s w. unfold bind. destruct (Hm s w) as (d1 & E1 & F1).
  destruct (m s w) as [a s1 w1|msg s1 w1]; simpl in E1.
  - destruct (Hk a s1 w1) as (d2 & E2 & F2). exists d1, d2.
    rewrite E2, E1, app_assoc. done.
  - exists d1, []. rewrite app_nil_r. done.
Qed.

Lemma emits_then_bind_l {A B} (Q : effect → bool) (m : M St A) (k : A → M St B) :
  emits P m → (∀ a, emits_then P Q (k a)) → emits_then P Q (bind m k).
Proof.
  intros Hm Hk s w. unfold bind. destruct (Hm s w) as (d1 & E1 & F1).
  destruct (m s w) as [a s1 w1|msg s1 w1]; simpl in E1.
  - destruct (Hk a s1 w1) as (d2 & d3 & E2 & F2 & F3). exists (d1 ++ d2), d3.
    rewrite E2, E1, <- !app_assoc. split; [done|]. split; [by apply Forall_app|done].
  - exists d1, []. rewrite app_nil_r. done.
Qed.

End Emits.

Ltac emits_step :=
  match goal with
  | |- emits _ (bind _ _) => apply emits_bind; [|intros ?]
  | |- emits _ (ret _) => apply emits_ret
  | |- emits _ (gets _) => apply emits_gets
  | |- emits _ (modify _) => apply emits_modify
  | |- emits _ (throw _) => apply emits_throw
  | |- emits _ (invariant _ _) => apply emits_invariant
  | |- emits _ new_object => apply emits_new_object
  | |- emits _ (mark_native _) => apply emits_mark_native
  | |- emits _ (node_isNative _) => apply emits_node_isNative
  | |- emits _ (emit _) => apply emits_emit; reflexivity
  | |- emits _ (forEach _ _) => apply emits_forEach; intros ?
  | |- emits _ (if ?b then _ else _) => destruct b
  | |- emits _ (match ?x with _ => _ end) => destruct x
  end.

Section WithHost.
Context `{Host}.
Import AnimatedProps.

Lemma emits_scrollableView P : emits P __scrollableView.
Proof. unfold __scrollableView. repeat emits_step. Qed.

Lemma emits_attachValueProp key value : emits is_attach (__attachValueProp key value).
Proof. unfold __attachValueProp. repeat emits_step. Qed.

Lemma emits_makeValuePropNative key value :
  emits is_attach (__makeValuePropNative key value).
Proof. unfold __makeValuePropNative. repeat emits_step. Qed.

Lemma emits_attachEventProp key value : emits is_attach (__attachEventProp key value).
Proof.
  unfold __attachEventProp. repeat emits_step. apply emits_scrollableView.
Qed.

Lemma emits_attachProp key value : emits is_attach (__attachProp key value).
Proof.
  unfold __attachProp. apply emits_bind; [apply emits_attachValueProp|]. intros _.
  apply emits_bind; [apply emits_makeValuePropNative|]. intros _.
  apply emits_attachEventProp.
Qed.

Lemma emits_detachValueProp key value : emits is_detach (__detachValueProp key value).
Proof. unfold __detachValueProp. repeat emits_step. Qed.

Lemma emits_detachEventProp key value : emits is_detach (__detachEventProp key value).
Proof.
  unfold __detachEventProp. repeat emits_step. apply emits_scrollableView.
Qed.

Lemma emits_detachProp key value : emits is_detach (__detachProp key value).
Proof.
  unfold __detachProp. apply emits_bind; [apply emits_detachValueProp|]. intros _.
  apply emits_detachEventProp.
Qed.

(** Replacing one key: the new binding is attached, then the old one is
    detached. *)
Lemma emits_replaceProp key lastValue nextValue :
  emits_then is_attach is_detach (__replaceProp key lastValue nextValue).
Proof.
  unfold __replaceProp. apply emits_then_bind_l.
  - repeat emits_step.
  - intros lastValue'. apply emits_then_bind; [apply emits_attachProp|].
    intros _. apply emits_detachProp.
Qed.

End WithHost.

(** ** Which fields a method writes *)

Section Writes.
Import AnimatedProps.

Lemma set_styleProp_same s : set_styleProp (_styleProp s) s = s.
Proof. by destruct s. Qed.

Lemma writes_unchanged {A} (m : M t A) :
  (∀ s w, state_of (m s w) = s) → writes_styleProp m.
Proof. intros Hm s w. exists (_styleProp s). by rewrite Hm, set_styleProp_same. Qed.

Lemma writes_ret {A} (a : A) : writes_styleProp (ret a).
Proof. by apply writes_unchanged. Qed.

Lemma writes_gets {A} (f : t → A) : writes_styleProp (gets f).
Proof. by apply writes_unchanged. Qed.

Lemma writes_throw {A} msg : writes_styleProp (@throw t A msg).
Proof. by apply writes_unchanged. Qed.

Lemma writes_invariant cond msg : writes_styleProp (invariant cond msg).
Proof. destruct cond; by apply writes_unchanged. Qed.

Lemma writes_emit e : writes_styleProp (emit e).
Proof. by apply writes_unchanged. Qed.

Lemma writes_new_object : writes_styleProp new_object.
Proof. by apply writes_unchanged. Qed.

Lemma writes_mark_native n : writes_styleProp (mark_native n).
Proof. by apply writes_unchanged. Qed.

Lemma writes_node_isNative n : writes_styleProp (node_isNative n).
Proof. by apply writes_unchanged. Qed.

Lemma writes_set_styleProp sp : writes_styleProp (modify (set_styleProp sp)).
Proof. intros s w. by exists sp. Qed.

Lemma writes_bind {A B} (m : M t A) (k : A → M t B) :
  writes_styleProp m → (∀ a, writes_styleProp (k a)) → writes_styleProp (bind m k).
Proof.
  intros Hm Hk s w. unfold bind. destruct (Hm s w) as (sp1 & E1).
  destruct (m s w) as [a s1 w1|msg s1 w1]; simpl in E1; subst s1.
  - destruct (Hk a (set_styleProp sp1 s) w1) as (sp2 & E2). exists sp2. by rewrite E2.
  - by exists sp1.
Qed.

Lemma writes_forEach {X} (l : list X) (f : X → M t unit) :
  (∀ x, writes_styleProp (f x)) → writes_styleProp (forEach l f).
Proof.
  intros Hf. induction l as [|x l IH]; simpl; [apply writes_ret|].
  apply writes_bind; [apply Hf|]. intros _. exact IH.
Qed.

(** Every other field is as it was. *)
Lemma writes_fields {A} (m : M t A) s w :
  writes_styleProp m →
  self (state_of (m s w)) = self s ∧
  _view (state_of (m s w)) = _view s ∧
  _props (state_of (m s w)) = _props s ∧
  _firstValueReturned (state_of (m s w)) = _firstValueReturned s ∧
  _reattachAll (state_of (m s w)) = _reattachAll s ∧
  __isNative (state_of (m s w)) = __isNative s.
Proof. intros Hm. destruct (Hm s w) as (sp & ->). done. Qed.

End Writes.

Ltac writes_step :=
  match goal with
  | |- writes_styleProp (bind _ _) => apply writes_bind; [|intros ?]
  | |- writes_styleProp (ret _) => apply writes_ret
  | |- writes_styleProp (gets _) => apply writes_gets
  | |- writes_styleProp (modify (AnimatedProps.set_styleProp _)) =>
      apply writes_set_styleProp
  | |- writes_styleProp (throw _) => apply writes_throw
  | |- writes_styleProp (invariant _ _) => apply writes_invariant
  | |- writes_styleProp new_object => apply writes_new_object
  | |- writes_styleProp (mark_native _) => apply writes_mark_native
  | |- writes_styleProp (node_isNative _) => apply writes_node_isNative
  | |- writes_styleProp (emit _) => apply writes_emit
  | |- writes_styleProp (forEach _ _) => apply writes_forEach; intros ?
  | |- writes_styleProp (if ?b then _ else _) => destruct b
  | |- writes_styleProp (match ?x with _ => _ end) => destruct x
  end.

Section WithHost.
Context `{Host}.
Import AnimatedProps.

Lemma writes_scrollableView : writes_styleProp __scrollableView.
Proof. unfold __scrollableView. repeat writes_step. Qed.

Lemma writes_attachProp key value : writes_styleProp (__attachProp key value).
Proof.
  unfold __attachProp, __attachValueProp, __makeValuePropNative, __attachEventProp.
  repeat writes_step; apply writes_scrollableView.
Qed.

Lemma writes_detachProp key value : writes_styleProp (__detachProp key value).
Proof.
  unfold __detachProp, __detachValueProp, __detachEventProp.
  repeat writes_step; apply writes_scrollableView.
Qed.

Lemma writes_replaceProp key lastValue nextValue :
  writes_styleProp (__replaceProp key lastValue nextValue).
Proof.
  unfold __replaceProp. apply writes_bind; [repeat writes_step|]. intros lastValue'.
  apply writes_bind; [apply writes_attachProp|]. intros _. apply writes_detachProp.
Qed.

Lemma writes_makeValuePropsNative : writes_styleProp __makeValuePropsNative.
Proof.
  unfold __makeValuePropsNative, __makeValuePropNative. repeat writes_step.
Qed.

Lemma writes_connectView : writes_styleProp __connectView.
Proof. unfold __connectView. repeat writes_step. Qed.

Lemma writes_disconnectView : writes_styleProp __disconnectView.
Proof. unfold __disconnectView. repeat writes_step. Qed.

(** ** Going native *)

Lemma makeNative_already s w :
  __isNative s = true → __makeNative s w = Returned tt s w.
Proof. intros Hn. unfold __makeNative. by rewrite bind_gets, Hn. Qed.

Lemma makeNative_returned s w s1 w1 :
  __isNative s = false →
  __makeNative s w = Returned tt s1 w1 →
  __isNative s1 = true ∧
  _reattachAll s1 = (_firstValueReturned s || _reattachAll s) ∧
  _props s1 = _props s ∧ _view s1 = _view s ∧ self s1 = self s.
Proof.
  intros Hn. unfold __makeNative. rewrite bind_gets, Hn, bind_gets.
  assert (writes_styleProp (__makeValuePropsNative ;; __connectView)) as Hw.
  { apply writes_bind; [apply writes_makeValuePropsNative|]. intros _.
    apply writes_connectView. }
  destruct (_firstValueReturned s) eqn:Hf.
  - rewrite !bind_modify. intros E.
    pose proof (writes_fields _ (set_isNative true (set_reattachAll true s)) w Hw) as Hfl.
    rewrite E in Hfl. simpl in Hfl. destruct Hfl as (? & ? & ? & ? & ? & ?). done.
  - rewrite bind_ret_l, bind_modify. intros E.
    pose proof (writes_fields _ (set_isNative true s) w Hw) as Hfl.
    rewrite E in Hfl. simpl in Hfl. destruct Hfl as (? & ? & ? & ? & ? & ?). done.
Qed.

(** ** Updates that cannot throw *)

Lemma total_ret {St A} (a : A) : total (@ret St A a).
Proof. intros s w. by eexists _, _, _. Qed.

Lemma total_gets {St A} (f : St → A) : total (gets f).
Proof. intros s w. by eexists _, _, _. Qed.

Lemma total_modify {St} (f : St → St) : total (modify f).
Proof. intros s w. by eexists _, _, _. Qed.

Lemma total_emit {St} e : total (@emit St e).
Proof. intros s w. by eexists _, _, _. Qed.

Lemma total_mark_native {St} n : total (@mark_native St n).
Proof. intros s w. by eexists _, _, _. Qed.

Lemma total_bind {St A B} (m : M St A) (k : A → M St B) :
  total m → (∀ a, total (k a)) → total (bind m k).
Proof.
  intros Hm Hk s w. destruct (Hm s w) as (a & s1 & w1 & E).
  rewrite (bind_of_returned _ _ _ _ _ _ _ E). apply Hk.
Qed.

Lemma total_forEach {St X} (l : list X) (f : X → M St unit) :
  (∀ x, x ∈ l → total (f x)) → total (forEach l f).
Proof.
  induction l as [|x l IH]; intros Hf; simpl; [apply total_ret|].
  apply total_bind; [apply Hf; left|]. intros _. apply IH.
  intros y Hy. apply Hf. by right.
Qed.

Lemma total_attachEventProp key value : total (__attachEventProp key value).
Proof. intros s w. eexists _, _, _. apply attachEventProp_calls. Qed.

Lemma total_detachEventProp key value : total (__detachEventProp key value).
Proof. intros s w. eexists _, _, _. apply detachEventProp_calls. Qed.

Lemma total_attachProp key value : key ≠ "style" → total (__attachProp key value).
Proof.
  intros Hk. unfold __attachProp, __attachValueProp, __makeValuePropNative.
  rewrite !bool_decide_eq_false_2 by done. cbn [andb].
  apply total_bind.
  { apply total_bind; [apply total_ret|]. intros [p|n|n|e]; try apply total_ret.
    all: apply total_bind; [apply total_gets|]; intros me; apply total_emit. }
  intros _. apply total_bind; [|intros _; apply total_attachEventProp].
  apply total_bind; [apply total_gets|]. intros [|]; [|apply total_ret].
  apply total_bind; [apply total_ret|]. intros [p|n|n|e]; try apply total_ret.
  all: apply total_bind; [apply total_emit|]; intros _; apply total_mark_native.
Qed.

Lemma total_detachProp key value : key ≠ "style" → total (__detachProp key value).
Proof.
  intros Hk. unfold __detachProp, __detachValueProp.
  rewrite !bool_decide_eq_false_2 by done. cbn [andb].
  apply total_bind; [|intros _; apply total_detachEventProp].
  apply total_bind; [apply total_ret|]. intros [p|n|n|e]; try apply total_ret.
  all: apply total_bind; [apply total_gets|]; intros me; apply total_emit.
Qed.

Lemma total_replaceProp key lastValue nextValue :
  key ≠ "style" → total (__replaceProp key lastValue nextValue).
Proof.
  intros Hk. unfold __replaceProp. rewrite bool_decide_eq_false_2 by done.
  apply total_bind; [apply total_ret|]. intros lastValue'.
  apply total_bind; [by apply total_attachProp|]. intros _. by apply total_detachProp.
Qed.

Lemma elem_of_filter_list {X} (f : X → bool) (l : list X) x :
  x ∈ List.filter f l → x ∈ l.
Proof. intros Hin. apply list_elem_of_In, List.filter_In in Hin as [Hin _]. by apply list_elem_of_In. Qed.

(** Without a [style] key on either side, an update always returns. *)
Lemma updateProps_returns nextProps s w :
  "style" ∉ keys (_props s) → "style" ∉ keys nextProps →
  ∃ s' w', updateProps nextProps s w = Returned tt s' w'.
Proof.
  intros Hlast Hnext.
  assert (∀ nextKeys acc,
            (∀ key, key ∈ nextKeys → key ≠ "style") →
            (∀ key, key ∈ acc.2 → key ≠ "style") →
            ∀ s1 w1, ∃ acc' s' w',
              reduce nextKeys (updateProps_step (_reattachAll s) (_props s)) acc s1 w1
              = Returned acc' s' w' ∧ ∀ key, key ∈ acc'.2 → key ≠ "style") as Hloop.
  { induction nextKeys as [|key rest IH]; intros [np lk] Hkeys Hlk s1 w1.
    - by eexists _, _, _.
    - cbn [reduce]. unfold updateProps_step at 1.
      assert (key ≠ "style") as Hk by (apply Hkeys; left).
      set (lk' := List.filter (λ lastKey, negb (String.eqb lastKey key)) lk).
      assert (∀ k, k ∈ lk' → k ≠ "style") as Hlk'.
      { intros k Hin. apply Hlk. simpl. by eapply elem_of_filter_list. }
      assert (∀ k, k ∈ rest → k ≠ "style") as Hrest by (intros k Hin; apply Hkeys; by right).
      destruct (_reattachAll s || animatedDiff (prop (_props s) key) (prop np key)).
      + destruct (total_replaceProp key (prop (_props s) key) (prop np key) Hk s1 w1)
          as ([] & s2 & w2 & E).
        rewrite !bind_assoc. erewrite bind_of_returned; [|exact E].
        rewrite !bind_ret_l. by apply IH.
      + rewrite bind_assoc, !bind_ret_l. by apply IH. }
  unfold updateProps. rewrite !bind_gets.
  destruct (Hloop (animatedKeys nextProps) (nextProps, animatedKeys (_props s))) with s w
    as (acc' & s1 & w1 & E & Hacc).
  { intros key Hin Heq. subst key. apply Hnext. by apply elem_of_filter_list in Hin. }
  { intros key Hin Heq. subst key. apply Hlast. by apply elem_of_filter_list in Hin. }
  erewrite bind_of_returned; [|exact E].
  destruct (total_forEach acc'.2 (λ key, __detachProp key (prop (_props s) key))) with s1 w1
    as ([] & s2 & w2 & E2).
  { intros key Hin. apply total_detachProp. by apply Hacc. }
  erewrite bind_of_returned; [|exact E2]. rewrite !bind_modify. by eexists _, _.
Qed.

(** ** What an update leaves behind *)

Lemma reattachEverything_returned nextProps s w s' w' :
  reattachEverything nextProps s w = Returned tt s' w' →
  _props s' = nextProps ∧ _reattachAll s' = false.
Proof.
  unfold reattachEverything. rewrite bind_gets. intros E.
  apply bind_returned in E as ([] & s1 & w1 & _ & E).
  apply bind_returned in E as ([] & s2 & w2 & _ & E).
  rewrite !bind_modify in E. unfold modify in E. by injection E as <- _.
Qed.

Lemma reattachChanged_returned nextProps s w s' w' :
  reattachChanged nextProps s w = Returned tt s' w' →
  _props s' = carriedOver (_props s) nextProps ∧ _reattachAll s' = false.
Proof.
  unfold reattachChanged. rewrite bind_gets. intros E.
  apply bind_returned in E as ([] & s1 & w1 & _ & E).
  apply bind_returned in E as ([] & s2 & w2 & _ & E).
  rewrite !bind_modify in E. unfold modify in E. by injection E as <- _.
Qed.

End WithHost.

Lemma new_calls_app w w' d : trace w' = trace w ++ d → new_calls w w' = d.
Proof. unfold new_calls. intros ->. by rewrite drop_app_length. Qed.

Lemma emits_weaken {St A} (P Q : effect → bool) (m : M St A) :
  (∀ e, P e = true → Q e = true) → emits P m → emits Q m.
Proof.
  intros HPQ Hm s w. destruct (Hm s w) as (d & E & F). exists d. split; [done|].
  eapply Forall_impl; [exact F|]. simpl. auto.
Qed.

Lemma emits_then_grows {St A} (P Q : effect → bool) (m : M St A) :
  emits_then P Q m → emits (λ _, true) m.
Proof.
  intros Hm s w. destruct (Hm s w) as (d1 & d2 & E & _). exists (d1 ++ d2).
  split; [done|]. by apply Forall_forall.
Qed.

(** A loop that returned ran its body on each element, from a state that
    the earlier iterations produced. *)
Section ForEachElem.
Context {St X : Type} (f : X → M St unit).
Context (R : St * world → St * world → Prop).
Context (R_refl : ∀ a, R a a) (R_trans : ∀ a b c, R a b → R b c → R a c).
Context (R_step : ∀ x s w s' w', f x s w = Returned tt s' w' → R (s, w) (s', w')).

Lemma forEach_related l s w s' w' :
  forEach l f s w = Returned tt s' w' → R (s, w) (s', w').
Proof using R_refl R_trans R_step.
  revert s w. induction l as [|y l IH]; intros s w E.
  - injection E as <- <-. apply R_refl.
  - cbn [forEach] in E. apply bind_returned in E as ([] & s1 & w1 & E1 & E2).
    eapply R_trans; [by eapply R_step|by apply IH].
Qed.

Lemma forEach_elem l x s w s' w' :
  forEach l f s w = Returned tt s' w' → x ∈ l →
  ∃ s1 w1 s2 w2,
    R (s, w) (s1, w1) ∧ f x s1 w1 = Returned tt s2 w2 ∧ R (s2, w2) (s', w').
Proof using R_refl R_trans R_step.
  revert s w. induction l as [|y l IH]; intros s w E Hin.
  - by apply elem_of_nil in Hin.
  - cbn [forEach] in E. apply bind_returned in E as ([] & s1 & w1 & E1 & E2).
    apply elem_of_cons in Hin as [->|Hin].
    + exists s, w, s1, w1. split; [apply R_refl|]. split; [done|].
      by eapply forEach_related.
    + destruct (IH _ _ E2 Hin) as (sa & wa & sb & wb & Ra & Ef & Rb).
      exists sa, wa, sb, wb. split; [|done].
      eapply R_trans; [by eapply R_step|done].
Qed.
End ForEachElem.

Section WithHost.
Context `{Host}.
Import AnimatedProps.

Lemma later_refl a : later a a.
Proof. split; [done|]. exists []. by rewrite app_nil_r. Qed.

Lemma later_trans a b c : later a b → later b c → later a c.
Proof.
  intros [S1 [d1 E1]] [S2 [d2 E2]]. split; [congruence|].
  exists (d1 ++ d2). by rewrite E2, E1, app_assoc.
Qed.

Lemma later_run {A} (m : M t A) P s w a s' w' :
  writes_styleProp m → emits P m → m s w = Returned a s' w' → later (s, w) (s', w').
Proof.
  intros Hw He E. split; simpl.
  - pose proof (writes_fields m s w Hw) as Hf. rewrite E in Hf. simpl in Hf. apply Hf.
  - destruct (He s w) as (d & Ed & _). rewrite E in Ed. by exists d.
Qed.

Lemma later_replaceProp key l n s w s' w' :
  __replaceProp key l n s w = Returned tt s' w' → later (s, w) (s', w').
Proof.
  apply later_run with (P := λ _, true); [apply writes_replaceProp|].
  eapply emits_then_grows, emits_replaceProp.
Qed.

Lemma later_detachProp key l s w s' w' :
  __detachProp key l s w = Returned tt s' w' → later (s, w) (s', w').
Proof.
  apply later_run with (P := is_detach); [apply writes_detachProp|apply emits_detachProp].
Qed.

(** Replacing a key by a node subscribes to the node. *)
Lemma replaceProp_node_addChild key l n s w s' w' :
  key ≠ "style" →
  __replaceProp key l (VNode n) s w = Returned tt s' w' →
  ∃ d, trace w' = trace w ++ AddChild n (self s) :: d.
Proof.
  intros Hk. unfold __replaceProp. rewrite bool_decide_eq_false_2 by done.
  rewrite bind_ret_l. unfold __attachProp, __attachValueProp.
  rewrite bool_decide_eq_false_2 by done. cbn [andb].
  rewrite !bind_assoc, bind_ret_l. cbv beta iota.
  rewrite !bind_assoc, bind_gets, bind_emit. intros E.
  assert (emits (λ _, true)
            (__makeValuePropNative key (VNode n) ;; __attachEventProp key (VNode n) ;;
             __detachProp key l)) as He.
  { apply emits_bind; [eapply emits_weaken, emits_makeValuePropNative; done|]. intros _.
    apply emits_bind; [eapply emits_weaken, emits_attachEventProp; done|]. intros _.
    eapply emits_weaken, emits_detachProp; done. }
  destruct (He s (calls [AddChild n (self s)] w)) as (d & Ed & _).
  rewrite bind_assoc in E. rewrite E in Ed. simpl in Ed. exists d.
  by rewrite Ed, <- app_assoc.
Qed.

End WithHost.

Lemma filter_bag_set_out (key : string) (v : plain) (fields : bag plain) :
  filter (λ kv, kv.1 ≠ key) (bag_set key v fields)
  = filter (λ kv, kv.1 ≠ key) fields.
Proof.
  induction fields as [|[k x] rest IH]; cbn [bag_set].
  - rewrite filter_cons_False; [done|]. simpl. by intros ?.
  - destruct (decide (k = key)) as [->|Hne].
    + rewrite (filter_cons_False _ (key, v)) by (simpl; by intros ?).
      rewrite (filter_cons_False _ (key, x)) by (simpl; by intros ?). done.
    + rewrite (filter_cons_True _ (k, x)) by done.
      rewrite (filter_cons_True _ (k, x)) by done. by rewrite IH.
Qed.

Section WithHost.
Context `{Host}.
Import AnimatedProps.

(** ** Carrying values over *)

Lemma animatedKeys_keys (object : bag value) key :
  key ∈ animatedKeys object → key ∈ keys object.
Proof.
  unfold animatedKeys. intros Hin.
  apply list_elem_of_In, List.filter_In in Hin as [Hin _]. by apply list_elem_of_In.
Qed.

Lemma carried_keys ra last nextKeys np :
  (∀ key, key ∈ nextKeys → key ∈ keys np) →
  keys (carried ra last nextKeys np) = keys np.
Proof.
  unfold carried. revert np.
  induction nextKeys as [|k rest IH]; intros np Hsub; [done|]. cbn [fold_left].
  destruct (ra || animatedDiff (prop last k) (prop np k)).
  - apply IH. intros key Hin. apply Hsub. by right.
  - assert (keys (bag_set k (prop last k) np) = keys np) as Hk.
    { apply keys_bag_set, Hsub. left. }
    rewrite IH; [done|]. intros key Hin. rewrite Hk. apply Hsub. by right.
Qed.

Lemma carried_prop last nextKeys np key :
  NoDup nextKeys →
  prop (carried false last nextKeys np) key
  = if bool_decide (key ∈ nextKeys) && negb (animatedDiff (prop last key) (prop np key))
    then prop last key else prop np key.
Proof.
  unfold carried. revert np.
  induction nextKeys as [|k rest IH]; intros np Hnd; [done|]. cbn [fold_left orb].
  apply NoDup_cons in Hnd as [Hk Hnd]. rewrite IH by done.
  destruct (decide (key = k)) as [->|Hne].
  - rewrite (bool_decide_eq_false_2 (k ∈ rest)) by done.
    rewrite (bool_decide_eq_true_2 (k ∈ k :: rest)) by left. cbn [andb].
    destruct (animatedDiff (prop last k) (prop np k)); cbn [negb]; [done|].
    rewrite prop_bag_set. by rewrite decide_True.
  - assert (bool_decide (key ∈ k :: rest) = bool_decide (key ∈ rest)) as ->.
    { apply bool_decide_ext. rewrite elem_of_cons. split; [by intros [?|?]|by right]. }
    destruct (animatedDiff (prop last k) (prop np k)); [done|].
    rewrite prop_bag_set. rewrite decide_False by done. done.
Qed.

Lemma removedKeys_none last nextProps :
  (∀ key, key ∈ animatedKeys last → key ∈ animatedKeys nextProps) →
  removedKeys last nextProps = [].
Proof.
  unfold removedKeys. intros Hsub.
  induction (animatedKeys last) as [|k l IH]; [done|]. cbn [List.filter].
  rewrite bool_decide_eq_true_2 by (apply Hsub; left). cbn [negb].
  apply IH. intros key Hin. apply Hsub. by right.
Qed.

(** The cache of an event does not take part in the comparison. *)
Lemma animatedDiff_ignores_attachedEvent a b ca cb :
  animatedDiff (cache_attachedEvent ca a) (cache_attachedEvent cb b) = animatedDiff a b.
Proof.
  unfold animatedDiff, without_attachedEvent.
  destruct a as [p|n|n|e], b as [q|m|m|f]; simpl; by rewrite ?filter_bag_set_out.
Qed.

End WithHost.

Section WithHost.
Context `{Host}.
Import AnimatedProps.

(** ** Attaching and detaching a whole instance *)

Lemma emits_attach : emits is_attach __attach.
Proof.
  unfold __attach, __attachValueProps, __attachEventProps.
  apply emits_bind; [apply emits_gets|]. intros me.
  apply emits_bind; [by apply emits_emit|]. intros _.
  apply emits_bind.
  - apply emits_bind; [apply emits_gets|]. intros props.
    apply emits_forEach. intros [key value]. apply emits_attachValueProp.
  - intros _. apply emits_bind; [apply emits_gets|]. intros props.
    apply emits_forEach. intros [key value]. apply emits_attachEventProp.
Qed.

Lemma emits_disconnectView : emits is_detach __disconnectView.
Proof. unfold __disconnectView. repeat emits_step. Qed.

Lemma emits_detach : emits is_detach __detach.
Proof.
  unfold __detach, __detachValueProps, __detachEventProps.
  apply emits_bind; [apply emits_disconnectView|]. intros _.
  apply emits_bind.
  { apply emits_bind; [apply emits_gets|]. intros props.
    apply emits_forEach. intros [key value]. apply emits_detachEventProp. }
  intros _. apply emits_bind.
  { apply emits_bind; [apply emits_gets|]. intros props.
    apply emits_forEach. intros [key value]. apply emits_detachValueProp. }
  intros _. apply emits_bind; [apply emits_gets|]. intros me. by apply emits_emit.
Qed.

Lemma emits_new_AnimatedProps nextProps :
  emits is_attach (createAnimatedComponent.new_AnimatedProps nextProps).
Proof.
  intros s w. unfold createAnimatedComponent.new_AnimatedProps, constructor.
  destruct (emits_attach (fresh (next_object w) nextProps)
              (World (native_nodes w) (S (next_object w)) (trace w))) as (d & E & F).
  exists d. split; [|done]. by destruct (__attach _ _).
Qed.

Lemma emits_onObject {A} P (obj : t) (m : M t A) :
  emits P m → emits P (createAnimatedComponent.onObject obj m).
Proof.
  intros Hm s w. destruct (Hm obj w) as (d & E & F). exists d. split; [|done].
  unfold createAnimatedComponent.onObject. by destruct (m obj w).
Qed.

(** The wholesale replacement of the first listing. *)
Lemma emits_wholesale nextProps oldPropsAnimated :
  emits_then is_attach is_detach
    (created <- createAnimatedComponent.new_AnimatedProps nextProps ;;
     modify (createAnimatedComponent.set_propsAnimated (Some created)) ;;
     match oldPropsAnimated with
     | Some old => createAnimatedComponent.onObject old __detach
     | None => ret tt
     end).
Proof.
  intros s w.
  assert (emits is_attach
            (created <- createAnimatedComponent.new_AnimatedProps nextProps ;;
             modify (createAnimatedComponent.set_propsAnimated (Some created)))) as Ha.
  { apply emits_bind; [apply emits_new_AnimatedProps|]. intros created. apply emits_modify. }
  assert (emits is_detach
            match oldPropsAnimated with
            | Some old => createAnimatedComponent.onObject old __detach
            | None => @ret createAnimatedComponent.t unit tt
            end) as Hd.
  { destruct oldPropsAnimated; [apply emits_onObject, emits_detach|apply emits_ret]. }
  pose proof (emits_then_bind is_attach is_detach _ (λ _, _) Ha (λ _, Hd) s w) as Ht.
  rewrite bind_assoc in Ht. exact Ht.
Qed.

End WithHost.

Section WithHost.
Context `{Host}.
Import AnimatedProps.

(** ** Construction *)

(** Attaching one value: what is called, and what is cached. *)
Lemma attachValueProp_run key value s w :
  (key = "style" → instanceof_AnimatedStyle value = false → _styleProp s = None) →
  __attachValueProp key value s w
  = if bool_decide (key = "style") && negb (instanceof_AnimatedStyle value)
    then Returned tt (set_styleProp (Some (next_object w)) s)
           (World (native_nodes w) (S (next_object w))
              (trace w ++ [NewAnimatedStyle (next_object w) value;
                           AddChild (next_object w) (self s)]))
    else Returned tt s
           (calls match value with
                  | VNode n | VStyle n => [AddChild n (self s)]
                  | _ => []
                  end w).
Proof.
  intros Hsp. unfold __attachValueProp.
  destruct (bool_decide (key = "style") && negb (instanceof_AnimatedStyle value)) eqn:Hc.
  - apply andb_true_iff in Hc as [Hk Hv]. apply bool_decide_eq_true in Hk.
    apply negb_true_iff in Hv. rewrite !bind_assoc, bind_gets, (Hsp Hk Hv).
    cbn. unfold emit. cbn. by rewrite <- app_assoc.
  - rewrite bind_ret_l. destruct value as [p|n|n|e]; try (by rewrite calls_nil).
    + by rewrite bind_gets.
    + by rewrite bind_gets.
Qed.

Lemma needs_composite_cons key v (rest : bag value) :
  needs_composite ((key, v) :: rest)
  = if decide (key = "style") then negb (instanceof_AnimatedStyle v)
    else needs_composite rest.
Proof. unfold needs_composite. simpl. by destruct (decide (key = "style")). Qed.

Lemma needs_composite_no_style (props : bag value) :
  "style" ∉ keys props → needs_composite props = false.
Proof.
  intros Hk. unfold needs_composite.
  by rewrite (proj2 (lookup_key_None props "style") Hk).
Qed.

Lemma attachValueProps_loop (entries : bag value) s w :
  NoDup (keys entries) →
  _styleProp s = None ∨ "style" ∉ keys entries →
  ∃ s' w',
    forEach entries (λ '(key, value), __attachValueProp key value) s w
    = Returned tt s' w' ∧
    (∃ sp, s' = set_styleProp sp s) ∧
    bool_decide (is_Some (_styleProp s'))
    = if decide ("style" ∈ keys entries) then needs_composite entries
      else bool_decide (is_Some (_styleProp s)).
Proof.
  unfold keys. revert s w.
  induction entries as [|[key value] rest IH]; intros s w Hnd Hsp.
  - exists s, w. split; [done|]. split; [exists (_styleProp s); by rewrite set_styleProp_same|].
    rewrite decide_False; [done|]. apply not_elem_of_nil.
  - cbn [fmap list_fmap fst] in *. apply NoDup_cons in Hnd as [Hkey Hnd].
    cbn [forEach]. rewrite needs_composite_cons.
    assert (key = "style" → instanceof_AnimatedStyle value = false → _styleProp s = None)
      as Hpre.
    { intros -> _. destruct Hsp as [|Hsp]; [done|]. exfalso. apply Hsp. left. }
    destruct (decide (key = "style")) as [->|Hne].
    + rewrite (decide_True (P := "style" ∈ "style" :: rest.*1)) by left.
      destruct (instanceof_AnimatedStyle value) eqn:Hv; cbn [negb].
      * erewrite bind_of_returned; last first.
        { rewrite attachValueProp_run
            by (intros ? ?; first [congruence|by apply Hpre]).
          rewrite Hv, andb_false_r. reflexivity. }
        edestruct (IH s) as (s' & w' & E & Hw & Hi); [done|by right|].
        exists s', w'. split; [exact E|]. split; [done|].
        rewrite Hi, decide_False by done.
        destruct Hsp as [->|Hsp]; [done|]. exfalso. apply Hsp. left.
      * erewrite bind_of_returned; last first.
        { rewrite attachValueProp_run
            by (intros ? ?; first [congruence|by apply Hpre]).
          rewrite Hv, bool_decide_eq_true_2 by done. reflexivity. }
        edestruct (IH (set_styleProp (Some (next_object w)) s)) as (s' & w' & E & Hw & Hi);
          [done|by right|].
        eexists s', w'. split; [exact E|]. split.
        { destruct Hw as [sp ->]. by exists sp. }
        rewrite Hi, decide_False by done. done.
    + erewrite bind_of_returned; last first.
      { rewrite attachValueProp_run
            by (intros ? ?; first [congruence|by apply Hpre]).
        rewrite bool_decide_eq_false_2 by done. reflexivity. }
      edestruct (IH s) as (s' & w' & E & Hw & Hi); [done| |].
      { destruct Hsp as [|Hsp]; [by left|right]. intros Hin. apply Hsp. by right. }
      eexists s', w'. split; [exact E|]. split; [done|]. rewrite Hi.
      destruct (decide ("style" ∈ rest.*1)) as [Hin|Hnin].
      * rewrite decide_True by by right. done.
      * rewrite decide_False; [done|]. intros Hin. apply elem_of_cons in Hin as [|]; done.
Qed.

Lemma later_attachValueProp key value s w s' w' :
  __attachValueProp key value s w = Returned tt s' w' → later (s, w) (s', w').
Proof.
  apply later_run with (P := is_attach); [|apply emits_attachValueProp].
  unfold __attachValueProp. repeat writes_step.
Qed.

Lemma later_detachValueProp key value s w s' w' :
  __detachValueProp key value s w = Returned tt s' w' → later (s, w) (s', w').
Proof.
  apply later_run with (P := is_detach); [|apply emits_detachValueProp].
  unfold __detachValueProp. repeat writes_step.
Qed.

(** A bag with distinct keys can always be attached to a new instance, and
    every animated value of the bag is then subscribed to. *)
Lemma constructor_attaches (props : bag value) (w : world) :
  NoDup (keys props) →
  ∃ created w1,
    constructor props w = Returned tt created w1 ∧
    _props created = props ∧ self created = next_object w ∧
    _view created = ViewUndefined ∧ __isNative created = false ∧
    _reattachAll created = false ∧ _firstValueReturned created = false ∧
    style_inv created ∧
    (∀ key n, (key, VNode n) ∈ props → key ≠ "style" →
              AddChild n (self created) ∈ new_calls w w1) ∧
    (∀ key n, (key, VStyle n) ∈ props → AddChild n (self created) ∈ new_calls w w1) ∧
    (∀ v, ("style", v) ∈ props → instanceof_AnimatedStyle v = false →
          ∃ composite, NewAnimatedStyle composite v ∈ new_calls w w1 ∧
                       AddChild composite (self created) ∈ new_calls w w1).
Proof.
  intros Hnd. unfold constructor, __attach.
  set (me := next_object w). set (s0 := fresh me props).
  set (w0 := World (native_nodes w) (S me) (trace w)).
  rewrite bind_gets, bind_emit. unfold __attachValueProps. rewrite bind_assoc, bind_gets.
  destruct (attachValueProps_loop props s0 (calls [SuperAttach me] w0) Hnd)
    as (s1 & w1 & E & [sp Hs1] & Hi); [by left|].
  change (_props s0) with props.
  exists s1, w1. split.
  { erewrite bind_of_returned; [|exact E]. rewrite attachEventProps_calls.
    rewrite Hs1. simpl. by rewrite calls_nil. }
  rewrite Hs1. do 6 (split; [done|]). split.
  { unfold style_inv. rewrite Hs1 in Hi. simpl in *. rewrite Hi.
    destruct (decide ("style" ∈ keys props)) as [|Hnin]; [done|].
    by rewrite needs_composite_no_style. }
  assert (∀ x, x ∈ props →
            ∃ sa wa sb wb d1 d2,
              self sa = me ∧
              (let '(key, value) := x in __attachValueProp key value sa wa) = Returned tt sb wb ∧
              trace wa = trace w ++ d1 ∧
              new_calls w w1 = d1 ++ new_calls wa wb ++ d2 ∧
              ∃ d, trace wb = trace wa ++ d) as Helem.
  { intros x Hx.
    destruct (forEach_elem (λ '(key, value), __attachValueProp key value) later
                later_refl later_trans
                (λ x s w s' w',
                   match x with (key, value) => later_attachValueProp key value s w s' w' end)
                _ x _ _ _ _ E Hx) as (sa & wa & sb & wb & L1 & Ex & L2).
    exists sa, wa, sb, wb.
    destruct L1 as [S1 [d1 T1]], L2 as [_ [d2 T2]]. simpl in *.
    assert (∃ d, trace wb = trace wa ++ d) as [d Td].
    { destruct x as [key value]. by destruct (later_attachValueProp _ _ _ _ _ _ Ex) as [_ ?]. }
    exists ([SuperAttach me] ++ d1), d2. split; [done|]. split; [by destruct x|].
    split; [by rewrite T1, <- app_assoc|]. split; [|by exists d].
    rewrite (new_calls_app wa wb d) by done.
    apply new_calls_app. rewrite T2, Td, T1. simpl. by rewrite <- !app_assoc. }
  split; [|split].
  - intros key n Hin Hk.
    destruct (Helem _ Hin) as (sa & wa & sb & wb & d1 & d2 & Hme & Ex & _ & Hn & _).
    rewrite attachValueProp_run in Ex by done.
    rewrite bool_decide_eq_false_2 in Ex by done. cbn [andb] in Ex.
    injection Ex as _ <-. rewrite Hn.
    rewrite (new_calls_app wa _ [AddChild n (self sa)]) by done.
    rewrite Hme. apply elem_of_app. right. left.
  - intros key n Hin.
    destruct (Helem _ Hin) as (sa & wa & sb & wb & d1 & d2 & Hme & Ex & _ & Hn & _).
    rewrite attachValueProp_run in Ex by done.
    cbn [instanceof_AnimatedStyle negb] in Ex. rewrite andb_false_r in Ex.
    injection Ex as _ <-. rewrite Hn.
    rewrite (new_calls_app wa _ [AddChild n (self sa)]) by done.
    rewrite Hme. apply elem_of_app. right. left.
  - intros v Hin Hv.
    destruct (Helem _ Hin) as (sa & wa & sb & wb & d1 & d2 & Hme & Ex & _ & Hn & _).
    assert (_styleProp sa = None) as Hsa.
    { destruct (_styleProp sa) eqn:Hsp; [|done]. exfalso. revert Ex.
      unfold __attachValueProp. rewrite bool_decide_eq_true_2, Hv by done. cbn [andb negb].
      rewrite !bind_assoc, bind_gets, Hsp.
      rewrite bool_decide_eq_true_2 by by eexists. done. }
    rewrite attachValueProp_run in Ex by done.
    rewrite bool_decide_eq_true_2, Hv in Ex by done. cbn [andb negb] in Ex.
    injection Ex as _ <-. exists (next_object wa). rewrite Hn.
    rewrite (new_calls_app wa _ [NewAnimatedStyle (next_object wa) v;
                                 AddChild (next_object wa) (self sa)]) by done.
    rewrite Hme. split.
    + apply elem_of_app. right. left.
    + apply elem_of_app. right. right. left.
Qed.

End WithHost.

Section WithHost.
Context `{Host}.
Import AnimatedProps.

(** Detaching an instance unsubscribes from every node of its bag. *)
Lemma detach_removes s w s' w' :
  __detach s w = Returned tt s' w' →
  ∀ key n, (key, VNode n) ∈ _props s → key ≠ "style" →
           RemoveChild n (self s) ∈ new_calls w w'.
Proof.
  intros E key n Hin Hk. unfold __detach in E.
  apply bind_returned in E as ([] & s1 & w1 & E1 & E).
  apply bind_returned in E as ([] & s2 & w2 & E2 & E).
  apply bind_returned in E as ([] & s3 & w3 & E3 & E).
  rewrite bind_gets in E. injection E as <- <-.
  pose proof (later_run _ _ _ _ _ _ _ writes_disconnectView emits_disconnectView E1)
    as [S1 [d1 T1]].
  pose proof (writes_fields __disconnectView s w writes_disconnectView) as Hf1.
  rewrite E1 in Hf1. simpl in Hf1. destruct Hf1 as (_ & _ & Hp1 & _).
  rewrite detachEventProps_calls in E2. injection E2 as <- <-.
  unfold __detachValueProps in E3. rewrite bind_gets, Hp1 in E3.
  destruct (forEach_elem (λ '(key, value), __detachValueProp key value) later
              later_refl later_trans
              (λ x s w s' w',
                 match x with (key, value) => later_detachValueProp key value s w s' w' end)
              _ _ _ _ _ _ E3 Hin) as (sa & wa & sb & wb & L1 & Ex & L2).
  destruct L1 as [Sa [da Ta]], L2 as [_ [db Tb]]. simpl in *.
  unfold __detachValueProp in Ex. rewrite bool_decide_eq_false_2 in Ex by done.
  cbn [andb] in Ex. rewrite bind_ret_l, bind_gets in Ex. injection Ex as _ <-.
  rewrite (new_calls_app w _
             (d1 ++ event_calls EventDetach (_view s1) (_props s1) ++ da
              ++ [RemoveChild n (self sa)] ++ db ++ [SuperDetach (self s3)])).
  - rewrite Sa, S1. rewrite !elem_of_app. right. right. right. left. left.
  - rewrite Tb. simpl. rewrite Ta. simpl. rewrite T1, ?Hp1. by rewrite <- !app_assoc.
Qed.

(** ** The style composite that is missing, or still there *)

Lemma missing_composite_is_fatal s w :
  _styleProp s = None →
  (∀ lastValue nextValue,
     __replaceProp "style" lastValue nextValue s w
     = Thrown "Expected style prop to detach" s w) ∧
  (∀ v, instanceof_AnimatedStyle v = false →
        __detachValueProp "style" v s w = Thrown "Expected style prop to detach" s w) ∧
  (__isNative s = true →
   ∀ v, __makeValuePropNative "style" v s w
        = Thrown "Expected style prop to make native" s w) ∧
  ("style" ∈ keys (_props s) →
   __getValue s w = Thrown "Expected style prop" (set_firstValueReturned true s) w).
Proof.
  intros Hsp. split; [|split; [|split]].
  - intros lastValue nextValue. unfold __replaceProp.
    rewrite bool_decide_eq_true_2 by done. by rewrite !bind_assoc, bind_gets, Hsp.
  - intros v Hv. unfold __detachValueProp.
    rewrite bool_decide_eq_true_2, Hv by done. cbn [andb negb].
    by rewrite !bind_assoc, bind_gets, Hsp.
  - intros Hn v. unfold __makeValuePropNative. rewrite bind_gets, Hn. cbn [negb].
    rewrite bool_decide_eq_true_2 by done. by rewrite !bind_assoc, bind_gets, Hsp.
  - intros Hin. unfold __getValue. rewrite bind_modify, bind_gets.
    by apply getValue_reduce_throws.
Qed.

Lemma second_composite_is_fatal s w composite v :
  _styleProp s = Some composite → instanceof_AnimatedStyle v = false →
  __attachValueProp "style" v s w
  = Thrown "Expected last style prop to be detached" s w.
Proof.
  intros Hsp Hv. unfold __attachValueProp.
  rewrite bool_decide_eq_true_2, Hv by done. cbn [andb negb].
  rewrite !bind_assoc, bind_gets, Hsp.
  rewrite bool_decide_eq_true_2 by by eexists. done.
Qed.

End WithHost.

(** ** The style composite invariant across an update *)

Section Keeps.
Context {St : Type}.

Lemma keeps_ret {A} (a : A) : keeps (@ret St A a).
Proof. by intros s w. Qed.

Lemma keeps_gets {A} (f : St → A) : keeps (gets f).
Proof. by intros s w. Qed.

Lemma keeps_throw {A} msg : keeps (@throw St A msg).
Proof. by intros s w. Qed.

Lemma keeps_emit e : keeps (@emit St e).
Proof. by intros s w. Qed.

Lemma keeps_mark_native n : keeps (@mark_native St n).
Proof. by intros s w. Qed.

Lemma keeps_bind {A B} (m : M St A) (k : A → M St B) :
  keeps m → (∀ a, keeps (k a)) → keeps (bind m k).
Proof.
  intros Hm Hk s w. unfold bind. specialize (Hm s w).
  destruct (m s w) as [a s1 w1|msg s1 w1]; simpl in Hm; subst s1; [apply Hk|done].
Qed.

Lemma keeps_forEach {X} (l : list X) (f : X → M St unit) :
  (∀ x, x ∈ l → keeps (f x)) → keeps (forEach l f).
Proof.
  induction l as [|x l IH]; intros Hf; simpl; [apply keeps_ret|].
  apply keeps_bind; [apply Hf; left|]. intros _. apply IH.
  intros y Hy. apply Hf. by right.
Qed.

Lemma keeps_returned {A} (m : M St A) s w a s' w' :
  keeps m → m s w = Returned a s' w' → s' = s.
Proof. intros Hm E. specialize (Hm s w). by rewrite E in Hm. Qed.

End Keeps.

Ltac keeps_step :=
  match goal with
  | |- keeps (bind _ _) => apply keeps_bind; [|intros ?]
  | |- keeps (ret _) => apply keeps_ret
  | |- keeps (gets _) => apply keeps_gets
  | |- keeps (throw _) => apply keeps_throw
  | |- keeps (mark_native _) => apply keeps_mark_native
  | |- keeps (emit _) => apply keeps_emit
  | |- keeps (if ?b then _ else _) => destruct b
  | |- keeps (match ?x with _ => _ end) => destruct x
  end.

Section WithHost.
Context `{Host}.
Import AnimatedProps.

Lemma keeps_attachEventProp key value : keeps (__attachEventProp key value).
Proof. intros s w. by rewrite attachEventProp_calls. Qed.

Lemma keeps_detachEventProp key value : keeps (__detachEventProp key value).
Proof. intros s w. by rewrite detachEventProp_calls. Qed.

Lemma keeps_makeValuePropNative key value : keeps (__makeValuePropNative key value).
Proof. unfold __makeValuePropNative. repeat keeps_step. Qed.

Lemma keeps_attachValueProp key value :
  key ≠ "style" ∨ instanceof_AnimatedStyle value = true →
  keeps (__attachValueProp key value).
Proof.
  intros Hk. unfold __attachValueProp.
  assert (bool_decide (key = "style") && negb (instanceof_AnimatedStyle value) = false) as ->.
  { destruct Hk as [Hk| ->]; [by rewrite bool_decide_eq_false_2|apply andb_false_r]. }
  repeat keeps_step.
Qed.

Lemma keeps_detachValueProp key value :
  key ≠ "style" ∨ instanceof_AnimatedStyle value = true →
  keeps (__detachValueProp key value).
Proof.
  intros Hk. unfold __detachValueProp.
  assert (bool_decide (key = "style") && negb (instanceof_AnimatedStyle value) = false) as ->.
  { destruct Hk as [Hk| ->]; [by rewrite bool_decide_eq_false_2|apply andb_false_r]. }
  repeat keeps_step.
Qed.

Lemma keeps_detachProp key value :
  key ≠ "style" ∨ instanceof_AnimatedStyle value = true →
  keeps (__detachProp key value).
Proof.
  intros Hk. unfold __detachProp.
  apply keeps_bind; [by apply keeps_detachValueProp|]. intros _.
  apply keeps_detachEventProp.
Qed.

Lemma keeps_replaceProp key lastValue nextValue :
  key ≠ "style" → keeps (__replaceProp key lastValue nextValue).
Proof.
  intros Hk. unfold __replaceProp, __attachProp.
  rewrite bool_decide_eq_false_2 by done.
  apply keeps_bind; [apply keeps_ret|]. intros lastValue'.
  apply keeps_bind; [|intros _; apply keeps_detachProp; by left].
  apply keeps_bind; [apply keeps_attachValueProp; by left|]. intros _.
  apply keeps_bind; [apply keeps_makeValuePropNative|]. intros _.
  apply keeps_attachEventProp.
Qed.

(** Replacing the [style] key needs the cached composite, and leaves one
    cached exactly when the next value is not itself a composite. *)
Lemma replaceProp_style lastValue nextValue s w s' w' :
  __replaceProp "style" lastValue nextValue s w = Returned tt s' w' →
  is_Some (_styleProp s) ∧
  _props s' = _props s ∧
  bool_decide (is_Some (_styleProp s')) = negb (instanceof_AnimatedStyle nextValue).
Proof.
  unfold __replaceProp. rewrite bool_decide_eq_true_2 by done.
  rewrite !bind_assoc, bind_gets.
  destruct (_styleProp s) as [old|] eqn:Hsp; [|done].
  rewrite !bind_assoc, bind_modify, bind_ret_l. unfold __attachProp. rewrite !bind_assoc.
  intros E. apply bind_returned in E as ([] & s1 & w1 & E1 & E).
  rewrite attachValueProp_run in E1 by done.
  assert (keeps (__makeValuePropNative "style" nextValue ;;
                 __attachEventProp "style" nextValue ;;
                 __detachProp "style" (VStyle old))) as Hk.
  { apply keeps_bind; [apply keeps_makeValuePropNative|]. intros _.
    apply keeps_bind; [apply keeps_attachEventProp|]. intros _.
    apply keeps_detachProp. by right. }
  rewrite bind_assoc in E.
  apply (keeps_returned _ _ _ _ _ _ Hk) in E. subst s'.
  split; [by eexists|].
  rewrite bool_decide_eq_true_2 in E1 by done. cbn [andb] in E1.
  destruct (instanceof_AnimatedStyle nextValue); cbn [negb] in *;
    injection E1 as <- _; simpl; split; done.
Qed.

(** Detaching the [style] key leaves no composite cached, provided none
    was cached for a value that is itself a composite. *)
Lemma detachProp_style v s w s' w' :
  __detachProp "style" v s w = Returned tt s' w' →
  (instanceof_AnimatedStyle v = true → _styleProp s = None) →
  _props s' = _props s ∧ _styleProp s' = None.
Proof.
  unfold __detachProp. intros E Hinv.
  apply bind_returned in E as ([] & s1 & w1 & E1 & E).
  apply (keeps_returned _ _ _ _ _ _ (keeps_detachEventProp _ _)) in E. subst s'.
  destruct (instanceof_AnimatedStyle v) eqn:Hv.
  - apply (keeps_returned _ _ _ _ _ _ (keeps_detachValueProp _ _ (or_intror Hv))) in E1.
    subst s1. split; [done|]. by apply Hinv.
  - revert E1. unfold __detachValueProp.
    rewrite bool_decide_eq_true_2, Hv by done. cbn [andb negb].
    rewrite !bind_assoc, bind_gets.
    destruct (_styleProp s) as [old|]; [|done].
    rewrite !bind_assoc, bind_modify, bind_ret_l, bind_gets. by intros [= <- _].
Qed.

Lemma forEach_keeps_returned {X} (l : list X) (f : X → M t unit) s w s' w' :
  (∀ x, x ∈ l → keeps (f x)) → forEach l f s w = Returned tt s' w' → s' = s.
Proof. intros Hf. apply keeps_returned, keeps_forEach, Hf. Qed.

(** An update, whatever the flag. *)
Lemma updateProps_general nextProps s w :
  NoDup (keys nextProps) →
  updateProps nextProps s w
  = (forEach
       (List.filter
          (λ key, _reattachAll s
                  || animatedDiff (prop (_props s) key) (prop nextProps key))
          (animatedKeys nextProps))
       (λ key, __replaceProp key (prop (_props s) key) (prop nextProps key)) ;;
     forEach (removedKeys (_props s) nextProps)
       (λ key, __detachProp key (prop (_props s) key)) ;;
     modify (set_props (carried (_reattachAll s) (_props s)
                                (animatedKeys nextProps) nextProps)) ;;
     modify (set_reattachAll false)) s w.
Proof.
  intros Hnd. unfold updateProps. rewrite !bind_gets.
  erewrite bind_eq_head; [|apply updateProps_loop; right; by apply NoDup_animatedKeys].
  rewrite bind_assoc. apply bind_ext_head. intros [] s1 w1 _.
  by rewrite bind_ret_l.
Qed.

Lemma carried_prop_general ra last nextKeys np key :
  NoDup nextKeys →
  prop (carried ra last nextKeys np) key
  = if bool_decide (key ∈ nextKeys)
       && negb (ra || animatedDiff (prop last key) (prop np key))
    then prop last key else prop np key.
Proof.
  intros Hnd. destruct ra.
  - rewrite carried_reattachAll. cbn [orb negb]. by rewrite andb_false_r.
  - by apply carried_prop.
Qed.

Lemma prop_lookup (object : bag value) key :
  key ∈ keys object → lookup_key object key = Some (prop object key).
Proof.
  intros Hin. unfold prop. destruct (lookup_key object key) eqn:E; [done|].
  by apply lookup_key_None in E.
Qed.

Lemma style_animated (object : bag value) :
  "style" ∈ animatedKeys object ↔ "style" ∈ keys object.
Proof.
  unfold animatedKeys. rewrite list_elem_of_In, List.filter_In, <- list_elem_of_In.
  rewrite bool_decide_eq_true_2 by done. simpl. tauto.
Qed.

(** A split of a list without duplicates around one of its elements. *)
Lemma NoDup_split_elem {X} (l : list X) x :
  NoDup l → x ∈ l → ∃ l1 l2, l = l1 ++ x :: l2 ∧ (x ∉ l1) ∧ (x ∉ l2).
Proof.
  intros Hnd Hin. apply list_elem_of_split in Hin as (l1 & l2 & ->).
  exists l1, l2. split; [done|].
  apply NoDup_app in Hnd as (_ & Hdis & Hnd2). apply NoDup_cons in Hnd2 as [Hx _].
  split; [|done]. intros Hin1. apply (Hdis x Hin1). left.
Qed.

Lemma needs_composite_style (object : bag value) :
  needs_composite object
  = bool_decide ("style" ∈ keys object)
    && negb (instanceof_AnimatedStyle (prop object "style")).
Proof.
  unfold needs_composite, prop. destruct (lookup_key object "style") as [v|] eqn:E.
  - rewrite bool_decide_eq_true_2; [done|].
    apply lookup_key_Some_elem in E. unfold keys. apply list_elem_of_fmap. by exists ("style", v).
  - apply lookup_key_None in E. by rewrite bool_decide_eq_false_2.
Qed.

(** The loop over the changed keys touches the cache only at [style]. *)
Lemma replace_loop (changed : list string) (f g : string → value) s w s' w' :
  NoDup changed →
  forEach changed (λ key, __replaceProp key (f key) (g key)) s w = Returned tt s' w' →
  if bool_decide ("style" ∈ changed)
  then is_Some (_styleProp s) ∧
       bool_decide (is_Some (_styleProp s')) = negb (instanceof_AnimatedStyle (g "style"))
  else _styleProp s' = _styleProp s.
Proof.
  intros Hnd E. case_bool_decide as Hin.
  - destruct (NoDup_split_elem _ _ Hnd Hin) as (l1 & l2 & -> & H1 & H2).
    rewrite forEach_app in E. apply bind_returned in E as ([] & s1 & w1 & E1 & E).
    cbn [forEach] in E. apply bind_returned in E as ([] & s2 & w2 & Es & E2).
    apply forEach_keeps_returned in E1; last first.
    { intros key Hk. apply keeps_replaceProp. by intros ->. }
    apply forEach_keeps_returned in E2; last first.
    { intros key Hk. apply keeps_replaceProp. by intros ->. }
    subst s1 s'. by destruct (replaceProp_style _ _ _ _ _ _ Es) as (? & _ & ?).
  - apply forEach_keeps_returned in E; [by subst|].
    intros key Hk. apply keeps_replaceProp. by intros ->.
Qed.

(** So does the loop over the removed keys. *)
Lemma detach_loop (removed : list string) (f : string → value) s w s' w' :
  NoDup removed →
  forEach removed (λ key, __detachProp key (f key)) s w = Returned tt s' w' →
  if bool_decide ("style" ∈ removed)
  then (instanceof_AnimatedStyle (f "style") = true → _styleProp s = None) →
       _styleProp s' = None
  else _styleProp s' = _styleProp s.
Proof.
  intros Hnd E. case_bool_decide as Hin.
  - destruct (NoDup_split_elem _ _ Hnd Hin) as (l1 & l2 & -> & H1 & H2).
    rewrite forEach_app in E. apply bind_returned in E as ([] & s1 & w1 & E1 & E).
    cbn [forEach] in E. apply bind_returned in E as ([] & s2 & w2 & Es & E2).
    apply forEach_keeps_returned in E1; last first.
    { intros key Hk. apply keeps_detachProp. left. by intros ->. }
    apply forEach_keeps_returned in E2; last first.
    { intros key Hk. apply keeps_detachProp. left. by intros ->. }
    subst s1 s'. intros Hc. by destruct (detachProp_style _ _ _ _ _ Es Hc).
  - apply forEach_keeps_returned in E; [by subst|].
    intros key Hk. apply keeps_detachProp. left. by intros ->.
Qed.

(** An update that brings in no [style] key keeps the invariant. *)
Lemma updateProps_keeps_style_inv nextProps s w s' w' :
  style_inv s →
  NoDup (keys (_props s)) →
  NoDup (keys nextProps) →
  ("style" ∈ keys nextProps → "style" ∈ keys (_props s)) →
  updateProps nextProps s w = Returned tt s' w' →
  style_inv s' ∧ keys (_props s') = keys nextProps.
Proof.
  intros Hinv Hndl Hnd Hintro E. rewrite updateProps_general in E by done.
  unfold style_inv in Hinv. rewrite needs_composite_style in Hinv.
  set (ra := _reattachAll s) in *. set (last := _props s) in *.
  set (changed := List.filter _ (animatedKeys nextProps)) in E.
  apply bind_returned in E as ([] & s1 & w1 & E1 & E).
  apply bind_returned in E as ([] & s2 & w2 & E2 & E).
  rewrite !bind_modify in E. unfold modify in E. injection E as <- _.
  assert (NoDup (animatedKeys nextProps)) as Hndk by by apply NoDup_animatedKeys.
  assert (NoDup changed) as Hndc.
  { apply NoDup_ListNoDup, List.NoDup_filter. by apply NoDup_ListNoDup. }
  assert (NoDup (removedKeys last nextProps)) as Hndr.
  { apply NoDup_ListNoDup, List.NoDup_filter. apply NoDup_ListNoDup.
    by apply NoDup_animatedKeys. }
  assert (keys (carried ra last (animatedKeys nextProps) nextProps) = keys nextProps) as Hkeys
    by (apply carried_keys, animatedKeys_keys).
  split; [|done]. unfold style_inv. cbn [_props _styleProp set_reattachAll set_props].
  rewrite needs_composite_style, Hkeys, carried_prop_general by done.
  apply replace_loop in E1; [|done]. apply detach_loop in E2; [|done].
  assert ("style" ∈ changed ↔
          "style" ∈ keys nextProps ∧
          ra || animatedDiff (prop last "style") (prop nextProps "style") = true) as Hch.
  { unfold changed. rewrite list_elem_of_In, List.filter_In, <- list_elem_of_In.
    by rewrite style_animated. }
  assert ("style" ∈ removedKeys last nextProps ↔
          "style" ∈ keys last ∧ "style" ∉ keys nextProps) as Hrm.
  { unfold removedKeys. rewrite list_elem_of_In, List.filter_In, <- list_elem_of_In.
    rewrite negb_true_iff, bool_decide_eq_false, !style_animated. done. }
  rewrite (bool_decide_ext _ _ (style_animated nextProps)).
  destruct (decide ("style" ∈ keys nextProps)) as [Hnext|Hnext].
  - rewrite (bool_decide_eq_true_2 _ Hnext) in *. cbn [andb].
    rewrite bool_decide_eq_false_2 in E2 by (rewrite Hrm; tauto). rewrite E2.
    destruct (ra || animatedDiff (prop last "style") (prop nextProps "style")) eqn:Hd;
      cbn [negb].
    + rewrite bool_decide_eq_true_2 in E1 by (rewrite Hch; done). by destruct E1.
    + rewrite bool_decide_eq_false_2 in E1 by (rewrite Hch; by intros [_ ?]).
      rewrite E1, Hinv. by rewrite bool_decide_eq_true_2 by auto.
  - rewrite (bool_decide_eq_false_2 _ Hnext). cbn [andb].
    rewrite bool_decide_eq_false_2 in E1 by (rewrite Hch; tauto).
    apply bool_decide_eq_false_2.
    destruct (decide ("style" ∈ keys last)) as [Hlast|Hlast].
    + rewrite bool_decide_eq_true_2 in E2 by (rewrite Hrm; done).
      rewrite E2; [by intros [? ?]|]. intros Hv. rewrite E1.
      rewrite Hv, andb_false_r in Hinv. apply bool_decide_eq_false in Hinv.
      destruct (_styleProp s); [|done]. exfalso. apply Hinv. by eexists.
    + rewrite bool_decide_eq_false_2 in E2 by (rewrite Hrm; tauto).
      rewrite E2, E1. rewrite (bool_decide_eq_false_2 _ Hlast) in Hinv.
      by apply bool_decide_eq_false in Hinv.
Qed.

End WithHost.

Section WithHost.
Context `{Host}.
Import AnimatedProps.

(** ** Construction and detachment, call by call *)

Lemma through_composite_style (props : bag value) v :
  NoDup (keys props) → ("style", v) ∈ props →
  needs_composite props = negb (instanceof_AnimatedStyle v).
Proof.
  intros Hnd Hin. unfold needs_composite. by rewrite (lookup_key_elem _ _ _ Hnd Hin).
Qed.

(** The loop of [__attachValueProps], started with no composite cached. *)
Lemma attachValueProps_run (entries : bag value) s w :
  NoDup (keys entries) →
  _styleProp s = None →
  forEach entries (λ '(key, value), __attachValueProp key value) s w
  = Returned tt
      (if needs_composite entries then set_styleProp (Some (next_object w)) s else s)
      (World (native_nodes w)
         (if needs_composite entries then S (next_object w) else next_object w)
         (trace w ++ subscribe_calls (self s) (next_object w) entries)).
Proof.
  unfold keys. revert s w.
  induction entries as [|[key value] rest IH]; intros s w Hnd Hsp.
  - cbn. rewrite app_nil_r. by destruct w.
  - cbn [fmap list_fmap fst] in Hnd. apply NoDup_cons in Hnd as [Hkey Hnd].
    cbn [forEach]. rewrite needs_composite_cons.
    unfold subscribe_calls. cbn [flat_map]. fold (subscribe_calls (self s) (next_object w) rest).
    unfold through_composite.
    unfold bind at 1. rewrite attachValueProp_run by done.
    destruct (decide (key = "style")) as [->|Hne].
    + rewrite bool_decide_eq_true_2 by done. cbn [andb].
      assert (needs_composite rest = false) as Hrest by by apply needs_composite_no_style.
      assert (∀ me c, subscribe_calls me c rest
                      = flat_map (λ '(_, v), match v with
                                             | VNode n | VStyle n => [AddChild n me]
                                             | _ => []
                                             end) rest) as Hsub.
      { intros me c. unfold subscribe_calls. clear -Hkey.
        induction rest as [|[k v] rest IH]; [done|]. cbn [flat_map].
        apply not_elem_of_cons in Hkey as [Hk Hkey]. simpl in Hk.
        unfold through_composite. rewrite bool_decide_eq_false_2 by done. cbn [andb].
        f_equal. by apply IH. }
      destruct (instanceof_AnimatedStyle value) eqn:Hv; cbn [negb].
      * rewrite IH by done. rewrite Hrest. simpl. by rewrite <- app_assoc.
      * set (s1 := set_styleProp (Some (next_object w)) s).
        set (w1 := World _ _ _).
        assert (forEach rest (λ '(key, value), __attachValueProp key value) s1 w1
                = Returned tt s1 (calls (subscribe_calls (self s) (next_object w) rest) w1))
          as ->.
        { clear IH Hrest. rewrite (Hsub _ (next_object w)). clear Hsub.
          generalize w1. clear w1.
          induction rest as [|[k v] rest IH]; intros w1.
          - cbn. by rewrite calls_nil.
          - apply not_elem_of_cons in Hkey as [Hk Hkey]. simpl in Hk.
            apply NoDup_cons in Hnd as [_ Hnd].
            cbn [forEach flat_map].
            unfold bind at 1. rewrite attachValueProp_run by by intros ->.
            rewrite bool_decide_eq_false_2 by done. cbn [andb].
            rewrite IH by done. by rewrite calls_app. }
        unfold calls, w1. simpl. by rewrite <- !app_assoc.
    + rewrite bool_decide_eq_false_2 by done. cbn [andb].
      rewrite IH by done. unfold calls. simpl.
      destruct (needs_composite rest); by rewrite <- app_assoc.
Qed.

Lemma constructor_run (props : bag value) (w : world) :
  NoDup (keys props) →
  constructor props w
  = Returned tt
      (Make (next_object w) ViewUndefined props
         (if needs_composite props then Some (S (next_object w)) else None)
         false false false)
      (World (native_nodes w)
         (if needs_composite props then S (S (next_object w)) else S (next_object w))
         (trace w ++ SuperAttach (next_object w)
                       :: subscribe_calls (next_object w) (S (next_object w)) props)).
Proof.
  intros Hnd. unfold constructor, __attach.
  rewrite bind_gets, bind_emit. unfold __attachValueProps. rewrite bind_assoc, bind_gets.
  erewrite bind_of_returned; [|by apply attachValueProps_run].
  rewrite attachEventProps_calls. cbn.
  destruct (needs_composite props); cbn; rewrite calls_nil; cbn;
    by rewrite <- app_assoc.
Qed.

(** Attaching the values of a bag once more stops at the [style] entry
    whose composite is still cached. *)
Lemma attachValueProps_second (entries : bag value) s w :
  needs_composite entries = true → is_Some (_styleProp s) →
  ∃ w', forEach entries (λ '(key, value), __attachValueProp key value) s w
        = Thrown "Expected last style prop to be detached" s w'.
Proof.
  intros Hneed [composite Hsp]. revert w Hneed.
  induction entries as [|[key value] rest IH]; intros w Hneed; [done|].
  rewrite needs_composite_cons in Hneed. cbn [forEach].
  destruct (decide (key = "style")) as [->|Hne].
  - exists w. apply bind_of_thrown.
    apply (second_composite_is_fatal _ _ composite); [done|].
    by apply negb_true_iff.
  - unfold bind at 1. rewrite attachValueProp_run by done.
    rewrite bool_decide_eq_false_2 by done. cbn [andb]. by apply IH.
Qed.

(** X1.  [new AnimatedProps(props, callback)] on a bag with distinct keys
    never throws.  It calls [super.__attach], then subscribes to the values
    of the bag in the order of the bag, wrapping the [style] value in one
    new [AnimatedStyle] unless it is one already; it binds no event and
    connects no view, since no view is bound yet.  The new instance holds
    the bag as given, is not native, and caches a composite exactly when it
    made one.  Attaching an instance a second time while that composite is
    cached is fatal: [__attach] throws 'Expected last style prop to be
    detached' and leaves the instance as it was. *)
Theorem constructor_subscribes_in_order (props : bag value) (w : world) :
  (NoDup (keys props) →
   constructor props w
   = Returned tt
       (Make (next_object w) ViewUndefined props
          (if needs_composite props then Some (S (next_object w)) else None)
          false false false)
       (World (native_nodes w)
          (if needs_composite props then S (S (next_object w)) else S (next_object w))
          (trace w ++ SuperAttach (next_object w)
                        :: subscribe_calls (next_object w) (S (next_object w)) props))) ∧
  (∀ (s : t) (w1 : world),
     needs_composite (_props s) = true → is_Some (_styleProp s) →
     ∃ w', __attach s w1
           = Thrown "Expected last style prop to be detached" s w').
Proof.
  split; [apply constructor_run|].
  intros s w1 Hneed Hsp. unfold __attach.
  rewrite bind_gets, bind_emit. unfold __attachValueProps. rewrite bind_assoc, bind_gets.
  destruct (attachValueProps_second (_props s) s (calls [SuperAttach (self s)] w1)
              Hneed Hsp) as [w' E].
  exists w'. by apply bind_of_thrown.
Qed.

(** Detaching one value: what is called, and what is forgotten. *)
Lemma detachValueProp_run key value s w :
  (through_composite key value = true → is_Some (_styleProp s)) →
  __detachValueProp key value s w
  = Returned tt
      (if through_composite key value then set_styleProp None s else s)
      (calls (unsubscribe_calls (self s) (_styleProp s) [(key, value)]) w).
Proof.
  intros Hsp. unfold __detachValueProp, unsubscribe_calls. cbn [flat_map].
  fold (through_composite key value). rewrite app_nil_r.
  destruct (through_composite key value) eqn:Hc.
  - destruct Hsp as [composite Hsp]; [done|].
    rewrite !bind_assoc, bind_gets, Hsp, bind_assoc, bind_modify, bind_ret_l, bind_gets.
    reflexivity.
  - rewrite bind_ret_l. destruct value as [p|n|n|e]; try (by rewrite calls_nil).
    + by rewrite bind_gets.
    + by rewrite bind_gets.
Qed.

Lemma detachValueProp_missing value s w :
  through_composite "style" value = true → _styleProp s = None →
  __detachValueProp "style" value s w = Thrown "Expected style prop to detach" s w.
Proof.
  intros Hc Hsp. unfold __detachValueProp. fold (through_composite "style" value).
  by rewrite Hc, !bind_assoc, bind_gets, Hsp.
Qed.

Lemma unsubscribe_calls_cons me sp entry (rest : bag value) :
  unsubscribe_calls me sp (entry :: rest)
  = unsubscribe_calls me sp [entry] ++ unsubscribe_calls me sp rest.
Proof. unfold unsubscribe_calls. cbn [flat_map]. by rewrite app_nil_r. Qed.

Lemma unsubscribe_calls_no_style me sp sp' (rest : bag value) :
  "style" ∉ keys rest →
  unsubscribe_calls me sp rest = unsubscribe_calls me sp' rest.
Proof.
  unfold keys, unsubscribe_calls. induction rest as [|[k v] rest IH]; [done|].
  intros Hk. apply not_elem_of_cons in Hk as [Hk Hrest]. simpl in Hk.
  cbn [flat_map]. unfold through_composite at 1 3.
  rewrite bool_decide_eq_false_2 by done. cbn [andb]. f_equal. by apply IH.
Qed.

(** The loop of [__detachValueProps]. *)
Lemma detachValueProps_run (entries : bag value) s w :
  NoDup (keys entries) →
  (needs_composite entries = true → is_Some (_styleProp s)) →
  forEach entries (λ '(key, value), __detachValueProp key value) s w
  = Returned tt
      (if needs_composite entries then set_styleProp None s else s)
      (calls (unsubscribe_calls (self s) (_styleProp s) entries) w).
Proof.
  unfold keys. revert s w.
  induction entries as [|[key value] rest IH]; intros s w Hnd Hsp.
  - cbn. by rewrite calls_nil.
  - cbn [fmap list_fmap fst] in Hnd. apply NoDup_cons in Hnd as [Hkey Hnd].
    cbn [forEach]. rewrite needs_composite_cons in Hsp |- *.
    rewrite unsubscribe_calls_cons.
    unfold bind at 1. rewrite detachValueProp_run; last first.
    { unfold through_composite. intros Hc. apply andb_true_iff in Hc as [Hk Hv].
      apply bool_decide_eq_true in Hk. apply Hsp. by rewrite decide_True. }
    unfold through_composite.
    destruct (decide (key = "style")) as [->|Hne].
    + rewrite bool_decide_eq_true_2 by done. cbn [andb].
      assert (needs_composite rest = false) as Hrest by by apply needs_composite_no_style.
      rewrite IH; [|done|by rewrite Hrest]. rewrite Hrest, calls_app.
      destruct (negb (instanceof_AnimatedStyle value)); [|done].
      simpl. by rewrite (unsubscribe_calls_no_style _ None (_styleProp s)).
    + rewrite bool_decide_eq_false_2 by done. cbn [andb].
      rewrite IH by done. by rewrite calls_app.
Qed.

(** The loop stops at a [style] entry whose composite is missing. *)
Lemma detachValueProps_missing (entries : bag value) s w :
  needs_composite entries = true → _styleProp s = None →
  ∃ w', forEach entries (λ '(key, value), __detachValueProp key value) s w
        = Thrown "Expected style prop to detach" s w'.
Proof.
  revert w. induction entries as [|[key value] rest IH]; intros w Hneed Hsp.
  - done.
  - rewrite needs_composite_cons in Hneed. cbn [forEach].
    destruct (decide (key = "style")) as [->|Hne].
    + exists w. apply bind_of_thrown, detachValueProp_missing; [|done].
      unfold through_composite. by rewrite bool_decide_eq_true_2.
    + unfold bind at 1. rewrite detachValueProp_run; last first.
      { unfold through_composite. by rewrite bool_decide_eq_false_2. }
      unfold through_composite. rewrite bool_decide_eq_false_2 by done. cbn [andb].
      by apply IH.
Qed.

Lemma detach_run s w :
  NoDup (keys (_props s)) →
  (needs_composite (_props s) = true → is_Some (_styleProp s)) →
  located (__isNative s) (_view s) →
  __detach s w
  = Returned tt
      (if needs_composite (_props s) then set_styleProp None s else s)
      (calls
         (view_calls DisconnectAnimatedNodeFromView (__isNative s) (self s) (_view s)
          ++ event_calls EventDetach (_view s) (_props s)
          ++ unsubscribe_calls (self s) (_styleProp s) (_props s)
          ++ [SuperDetach (self s)])
         w).
Proof.
  intros Hnd Hsp Hloc. unfold __detach.
  erewrite bind_of_returned; [|by apply disconnectView_calls].
  erewrite bind_of_returned; [|apply detachEventProps_calls].
  unfold __detachValueProps. rewrite bind_assoc, bind_gets.
  erewrite bind_of_returned; [|by apply detachValueProps_run].
  rewrite bind_gets. unfold emit, calls. simpl.
  destruct (needs_composite (_props s)); simpl; by rewrite <- !app_assoc.
Qed.

Lemma detach_unbinds_missing s w :
  needs_composite (_props s) = true → _styleProp s = None →
  located (__isNative s) (_view s) →
  ∃ w', __detach s w = Thrown "Expected style prop to detach" s w'.
Proof.
  intros Hneed Hsp Hloc. unfold __detach.
  erewrite bind_of_returned; [|by apply disconnectView_calls].
  erewrite bind_of_returned; [|apply detachEventProps_calls].
  unfold __detachValueProps. rewrite bind_assoc, bind_gets.
  edestruct (detachValueProps_missing (_props s) s) as [w' E]; [done|done|].
  exists w'. by apply bind_of_thrown.
Qed.

(** X2.  [__detach] on an instance whose bag has distinct keys, whose
    [style] entry, if it went through a composite, still has it cached, and
    whose view the backend can locate when the instance is native: it
    disconnects the view (when native), unbinds the native events,
    unsubscribes from every value of the bag in the order of the bag (from
    the composite for the [style] entry), and ends with [super.__detach]; it
    forgets the composite and writes no other field.  When the composite of
    the [style] entry is missing, it throws 'Expected style prop to detach'
    and [super.__detach] is not reached. *)
Theorem detach_unbinds_in_order (s : t) (w : world) :
  (NoDup (keys (_props s)) →
   (needs_composite (_props s) = true → is_Some (_styleProp s)) →
   located (__isNative s) (_view s) →
   __detach s w
   = Returned tt
       (if needs_composite (_props s) then set_styleProp None s else s)
       (calls
          (view_calls DisconnectAnimatedNodeFromView (__isNative s) (self s) (_view s)
           ++ event_calls EventDetach (_view s) (_props s)
           ++ unsubscribe_calls (self s) (_styleProp s) (_props s)
           ++ [SuperDetach (self s)])
          w)) ∧
  (needs_composite (_props s) = true → _styleProp s = None →
   located (__isNative s) (_view s) →
   ∃ w', __detach s w = Thrown "Expected style prop to detach" s w' ∧
         SuperDetach (self s) ∉ new_calls w w').
Proof.
  split; [apply detach_run|].
  intros Hneed Hsp Hloc. unfold __detach.
  erewrite bind_of_returned; [|by apply disconnectView_calls].
  erewrite bind_of_returned; [|apply detachEventProps_calls].
  unfold __detachValueProps. rewrite bind_assoc, bind_gets.
  set (w1 := calls _ (calls _ w)).
  destruct (detachValueProps_missing (_props s) s w1 Hneed Hsp) as [w' E].
  exists w'. split; [by apply bind_of_thrown|].
  assert (emits (λ e, match e with RemoveChild _ _ => true | _ => false end)
            (forEach (_props s) (λ '(key, value), __detachValueProp key value))) as He.
  { apply emits_forEach. intros [key value]. unfold __detachValueProp. repeat emits_step. }
  destruct (He s w1) as (d & Hd & Hall). rewrite E in Hd. simpl in Hd.
  rewrite (new_calls_app w w'
             (view_calls DisconnectAnimatedNodeFromView (__isNative s) (self s) (_view s)
              ++ event_calls EventDetach (_view s) (_props s) ++ d)).
  - rewrite !elem_of_app. intros [Hin|[Hin|Hin]].
    + unfold view_calls in Hin. destruct (_view s); try by apply elem_of_nil in Hin.
      destruct (__isNative s); [|by apply elem_of_nil in Hin].
      destruct (findNodeHandle v); [|by apply elem_of_nil in Hin].
      apply list_elem_of_singleton in Hin. done.
    + unfold event_calls in Hin. destruct (_view s); try by apply elem_of_nil in Hin.
      apply list_elem_of_In, in_flat_map in Hin as ([k v'] & _ & Hin).
      destruct v'; try done. destruct (event_isNative e); [|done].
      destruct Hin as [|[]]. done.
    + rewrite Forall_forall in Hall. by specialize (Hall _ Hin).
  - rewrite Hd. unfold w1, calls. simpl. by rewrite <- !app_assoc.
Qed.

Lemma omap_subscribe_calls me composite (props : bag value) :
  NoDup (keys props) →
  omap unsubscribed (subscribe_calls me composite props)
  = unsubscribe_calls me (if needs_composite props then Some composite else None) props.
Proof.
  unfold keys. induction props as [|[key v] rest IH]; [done|].
  cbn [fmap list_fmap fst]. intros Hnd. apply NoDup_cons in Hnd as [Hkey Hnd].
  rewrite unsubscribe_calls_cons, needs_composite_cons.
  unfold subscribe_calls. cbn [flat_map]. fold (subscribe_calls me composite rest).
  rewrite omap_app, IH by done.
  destruct (decide (key = "style")) as [->|Hne].
  - assert (needs_composite rest = false) as -> by by apply needs_composite_no_style.
    rewrite (unsubscribe_calls_no_style me None
               (if negb (instanceof_AnimatedStyle v) then Some composite else None) rest)
      by done.
    f_equal. unfold unsubscribe_calls, through_composite. cbn [flat_map].
    rewrite bool_decide_eq_true_2 by done. cbn [andb].
    destruct (instanceof_AnimatedStyle v) eqn:Hv; cbn [negb]; [|done].
    by destruct v.
  - f_equal. unfold unsubscribe_calls, through_composite. cbn [flat_map].
    rewrite bool_decide_eq_false_2 by done. cbn [andb]. by destruct v.
Qed.

(** X3.  Construction followed by [__detach] is a round trip on the graph:
    for a bag with distinct keys both return, [__detach] undoes every
    subscription that the constructor made, once each and in the same
    order, then calls [super.__detach], and leaves no composite cached.  A
    second [__detach] of that instance is fatal when the bag has a [style]
    entry that went through a composite. *)
Theorem detach_undoes_constructor (props : bag value) (w : world) :
  NoDup (keys props) →
  ∃ created w1 detached w2,
    constructor props w = Returned tt created w1 ∧
    __detach created w1 = Returned tt detached w2 ∧
    _styleProp detached = None ∧
    new_calls w1 w2
    = omap unsubscribed (new_calls w w1) ++ [SuperDetach (self created)] ∧
    (needs_composite props = true →
     ∃ w3, __detach detached w2
           = Thrown "Expected style prop to detach" detached w3).
Proof.
  intros Hnd. eexists _, _, _, _. split; [by apply constructor_run|].
  set (created := Make _ _ _ _ _ _ _). set (w1 := World _ _ _).
  assert (__detach created w1
          = Returned tt
              (if needs_composite props then set_styleProp None created else created)
              (calls (unsubscribe_calls (self created) (_styleProp created) props
                      ++ [SuperDetach (self created)]) w1)) as E.
  { rewrite detach_run; [|done| |done].
    - simpl. reflexivity.
    - simpl. intros ->. by eexists. }
  split; [exact E|]. split; [by destruct (needs_composite props)|]. split.
  - rewrite (new_calls_app w w1
               (SuperAttach (next_object w)
                  :: subscribe_calls (next_object w) (S (next_object w)) props)) by done.
    cbn [omap list_omap unsubscribed]. rewrite omap_subscribe_calls by done.
    by apply new_calls_app.
  - intros Hneed.
    assert (located (__isNative (set_styleProp None created))
                    (_view (set_styleProp None created))) as Hloc by done.
    destruct (detach_unbinds_missing (set_styleProp None created)
                (calls (unsubscribe_calls (self created) (_styleProp created) props
                        ++ [SuperDetach (self created)]) w1))
      as [w3 E3]; [done|done|done|].
    exists w3. clear E Hloc. subst created w1. rewrite Hneed in E3 |- *. exact E3.
Qed.

End WithHost.

Section WithHost.
Context `{Host}.
Import AnimatedProps.

(** ** Going native, call by call *)

Lemma animated_nodes_cons sp entry (rest : bag value) :
  animated_nodes sp (entry :: rest)
  = animated_nodes sp [entry] ++ animated_nodes sp rest.
Proof. unfold animated_nodes. cbn [flat_map]. by rewrite app_nil_r. Qed.

Lemma made_native_nil sp w : made_native sp [] w = w.
Proof.
  unfold made_native. cbn. rewrite app_nil_r, union_empty_l_L. by destruct w.
Qed.

Lemma made_native_none sp key v w :
  animated_nodes sp [(key, v)] = [] → made_native sp [(key, v)] w = w.
Proof.
  intros E. unfold made_native. rewrite E. cbn.
  rewrite app_nil_r, union_empty_l_L. by destruct w.
Qed.

Lemma made_native_one sp key v n w :
  animated_nodes sp [(key, v)] = [(key, n)] →
  made_native sp [(key, v)] w
  = World ({[n]} ∪ native_nodes w) (next_object w) (trace w ++ [NodeMakeNative n]).
Proof.
  intros E. unfold made_native. rewrite E. cbn. by rewrite union_empty_r_L.
Qed.

Lemma made_native_cons sp entry (rest : bag value) w :
  made_native sp rest (made_native sp [entry] w) = made_native sp (entry :: rest) w.
Proof.
  unfold made_native. rewrite (animated_nodes_cons sp entry rest).
  cbn [native_nodes next_object trace]. rewrite fmap_app, fmap_app, list_to_set_app_L.
  rewrite <- app_assoc. f_equal.
  generalize (list_to_set (animated_nodes sp [entry]).*2 : gset nat).
  generalize (list_to_set (animated_nodes sp rest).*2 : gset nat).
  intros b a. by rewrite (assoc_L (∪) b a), (comm_L (∪) b a).
Qed.

Lemma makeValuePropNative_run key value s w :
  __isNative s = true →
  (key = "style" → is_Some (_styleProp s)) →
  __makeValuePropNative key value s w
  = Returned tt s (made_native (_styleProp s) [(key, value)] w).
Proof.
  intros Hn Hsp. unfold __makeValuePropNative.
  rewrite bind_gets, Hn. cbn [negb].
  case_bool_decide as Hk.
  - destruct (Hsp Hk) as [composite Hc].
    rewrite !bind_assoc, bind_gets, Hc, bind_ret_l, bind_emit.
    rewrite (made_native_one _ _ _ composite); [done|].
    unfold animated_nodes. cbn [flat_map]. by rewrite bool_decide_eq_true_2.
  - rewrite bind_ret_l.
    assert (∀ n, instanceof_AnimatedNode value = true →
                 value = VNode n ∨ value = VStyle n →
                 animated_nodes (_styleProp s) [(key, value)] = [(key, n)]) as Hone.
    { intros n _ Hv. unfold animated_nodes. cbn [flat_map].
      rewrite bool_decide_eq_false_2 by done. by destruct Hv as [->| ->]. }
    assert (instanceof_AnimatedNode value = false →
            animated_nodes (_styleProp s) [(key, value)] = []) as Hnone.
    { intros Hv. unfold animated_nodes. cbn [flat_map].
      rewrite bool_decide_eq_false_2 by done. by destruct value. }
    destruct value as [p|n|n|e].
    + by rewrite made_native_none by by apply Hnone.
    + rewrite bind_emit. by rewrite (made_native_one _ _ _ n) by (apply Hone; auto).
    + rewrite bind_emit. by rewrite (made_native_one _ _ _ n) by (apply Hone; auto).
    + by rewrite made_native_none by by apply Hnone.
Qed.

Lemma makeValuePropsNative_loop (entries : bag value) s w :
  __isNative s = true →
  ("style" ∈ keys entries → is_Some (_styleProp s)) →
  forEach entries (λ '(key, value), __makeValuePropNative key value) s w
  = Returned tt s (made_native (_styleProp s) entries w).
Proof.
  intros Hn. unfold keys. revert w.
  induction entries as [|[key value] rest IH]; intros w Hsp.
  - cbn [forEach]. by rewrite made_native_nil.
  - cbn [forEach]. unfold bind at 1. rewrite makeValuePropNative_run; [|done|].
    + rewrite IH; [by rewrite made_native_cons|].
      intros Hin. apply Hsp. by right.
    + intros ->. apply Hsp. left.
Qed.

Lemma makeValuePropsNative_missing (entries : bag value) s w :
  __isNative s = true → "style" ∈ keys entries → _styleProp s = None →
  ∃ w', forEach entries (λ '(key, value), __makeValuePropNative key value) s w
        = Thrown "Expected style prop to make native" s w'.
Proof.
  intros Hn. unfold keys. revert w.
  induction entries as [|[key value] rest IH]; intros w Hin Hsp.
  - by apply elem_of_nil in Hin.
  - cbn [forEach]. destruct (decide (key = "style")) as [->|Hne].
    + exists w. apply bind_of_thrown. unfold __makeValuePropNative.
      rewrite bind_gets, Hn. cbn [negb]. rewrite bool_decide_eq_true_2 by done.
      by rewrite !bind_assoc, bind_gets, Hsp.
    + unfold bind at 1. rewrite makeValuePropNative_run by done.
      apply IH; [|done]. cbn in Hin. apply elem_of_cons in Hin as [|]; [congruence|done].
Qed.

Lemma makeNative_start s w :
  __isNative s = false →
  __makeNative s w = (__makeValuePropsNative ;; __connectView) (gone_native s) w.
Proof.
  intros Hn. unfold __makeNative, gone_native. rewrite bind_gets, Hn, bind_gets.
  destruct (_firstValueReturned s); by rewrite ?bind_ret_l, !bind_modify.
Qed.

Lemma gone_native_fields s :
  __isNative (gone_native s) = true ∧ _props (gone_native s) = _props s ∧
  _styleProp (gone_native s) = _styleProp s ∧ _view (gone_native s) = _view s ∧
  self (gone_native s) = self s.
Proof. unfold gone_native. by destruct (_firstValueReturned s). Qed.

Lemma makeNative_run s w :
  __isNative s = false →
  ("style" ∈ keys (_props s) → is_Some (_styleProp s)) →
  (located true (_view s) →
   __makeNative s w
   = Returned tt (gone_native s)
       (calls (view_calls ConnectAnimatedNodeToView true (self s) (_view s))
              (made_native (_styleProp s) (_props s) w))) ∧
  (unlocated true (_view s) →
   __makeNative s w
   = Thrown "Unable to locate view in the native tree" (gone_native s)
       (made_native (_styleProp s) (_props s) w)).
Proof.
  intros Hn Hsp. rewrite makeNative_start by done.
  destruct (gone_native_fields s) as (Hg & Hp & Hs & Hv & Hme).
  assert (__makeValuePropsNative (gone_native s) w
          = Returned tt (gone_native s) (made_native (_styleProp s) (_props s) w)) as E.
  { unfold __makeValuePropsNative. rewrite bind_gets, Hp.
    rewrite makeValuePropsNative_loop; [by rewrite Hs|done|by rewrite Hs]. }
  split; intros Hloc.
  - erewrite bind_of_returned; [|exact E].
    rewrite connectView_calls; [by rewrite Hg, Hme, Hv|by rewrite Hg, Hv].
  - erewrite bind_of_returned; [|exact E].
    apply connectView_unlocated. by rewrite Hg, Hv.
Qed.

(** X4.  [__makeNative] on an instance that is not native sets
    [__isNative], and [_reattachAll] when a snapshot was returned before,
    and then makes every node of the bag native in the order of the bag
    (the composite for the [style] key, and nothing for events and plain
    values); then it connects the bound view, if there is one.  When the
    backend cannot locate the bound view, the nodes are native already when
    it throws; and when the bag has a [style] key and no composite is
    cached, it throws 'Expected style prop to make native' with the flags
    already set. *)
Theorem makeNative_makes_every_node_native (s : t) (w : world) :
  __isNative s = false →
  (("style" ∈ keys (_props s) → is_Some (_styleProp s)) →
   located true (_view s) →
   __makeNative s w
   = Returned tt (gone_native s)
       (calls (view_calls ConnectAnimatedNodeToView true (self s) (_view s))
              (made_native (_styleProp s) (_props s) w))) ∧
  (("style" ∈ keys (_props s) → is_Some (_styleProp s)) →
   unlocated true (_view s) →
   __makeNative s w
   = Thrown "Unable to locate view in the native tree" (gone_native s)
       (made_native (_styleProp s) (_props s) w)) ∧
  ("style" ∈ keys (_props s) → _styleProp s = None →
   ∃ w', __makeNative s w
         = Thrown "Expected style prop to make native" (gone_native s) w').
Proof.
  intros Hn. split; [|split].
  - intros Hsp. by apply makeNative_run.
  - intros Hsp. by apply makeNative_run.
  - intros Hin Hsp. rewrite makeNative_start by done.
    destruct (gone_native_fields s) as (Hg & Hp & Hs & _).
    unfold __makeValuePropsNative. rewrite bind_assoc, bind_gets, Hp.
    destruct (makeValuePropsNative_missing (_props s) (gone_native s) w)
      as [w' E]; [done|done|by rewrite Hs|].
    exists w'. by apply bind_of_thrown.
Qed.

(** X5.  A [__makeNative] that throws is not retried: the instance is
    native from then on, so that any later [__makeNative] returns at once
    and calls nothing, and [updateView] with the view that is bound does
    not connect it either. *)
Theorem failed_makeNative_is_not_retried (s : t) (w : world) msg s1 w1 :
  __isNative s = false →
  __makeNative s w = Thrown msg s1 w1 →
  __isNative s1 = true ∧
  (∀ w', __makeNative s1 w' = Returned tt s1 w') ∧
  (∀ w', updateView (_view s1) s1 w' = Returned tt s1 w').
Proof.
  intros Hn E. rewrite makeNative_start in E by done.
  assert (keeps (__makeValuePropsNative ;; __connectView)) as Hk.
  { apply keeps_bind.
    - unfold __makeValuePropsNative. apply keeps_bind; [apply keeps_gets|].
      intros entries. apply keeps_forEach. intros [key value] _.
      apply keeps_makeValuePropNative.
    - intros _. unfold __connectView. repeat keeps_step. }
  specialize (Hk (gone_native s) w). rewrite E in Hk. simpl in Hk. subst s1.
  destruct (gone_native_fields s) as (Hg & _).
  split; [done|]. split.
  - intros w'. by apply makeNative_already.
  - intros w'. unfold updateView. by rewrite bind_gets, viewref_eqb_refl.
Qed.

Lemma connectView_returned s w s' w' :
  __connectView s w = Returned tt s' w' →
  s' = s ∧ native_nodes w' = native_nodes w.
Proof.
  unfold __connectView. rewrite !bind_gets.
  destruct (negb (__isNative s && truthy_view (_view s))); [by intros [= <- <-]|].
  destruct (ReactNative_findNodeHandle (_view s)); [|done].
  rewrite bind_gets. by intros [= <- <-].
Qed.

Lemma animated_nodes_elem sp (props : bag value) key n :
  (key, VNode n) ∈ props → key ≠ "style" → n ∈ (animated_nodes sp props).*2.
Proof.
  intros Hin Hk. apply list_elem_of_fmap. exists (key, n). split; [done|].
  unfold animated_nodes. apply list_elem_of_In, in_flat_map.
  exists (key, VNode n). split; [by apply list_elem_of_In|].
  rewrite bool_decide_eq_false_2 by done. by left.
Qed.

(** X6.  Once [__makeNative] has returned, the snapshot of [__getValue]
    leaves out every key that holds a node other than a style: the [style]
    key still resolves through the composite, an [AnimatedStyle] under
    another key still resolves, events and plain values are as before, and
    no key outside the bag appears. *)
Theorem native_nodes_leave_the_snapshot (s : t) (w : world) s1 w1 :
  NoDup (keys (_props s)) →
  ("style" ∈ keys (_props s) → is_Some (_styleProp s)) →
  __isNative s = false →
  __makeNative s w = Returned tt s1 w1 →
  ∃ rendered,
    __getValue s1 w1 = Returned rendered (set_firstValueReturned true s1) w1 ∧
    ∀ key, lookup_key rendered key
           = lookup_key (_props s) key ≫= native_snapshot_entry (_styleProp s) key.
Proof.
  intros Hnd Hsp Hn E. rewrite makeNative_start in E by done.
  destruct (gone_native_fields s) as (Hg & Hp & Hs & Hv & Hme).
  apply bind_returned in E as ([] & s' & w' & E1 & E2).
  unfold __makeValuePropsNative in E1. rewrite bind_gets, Hp in E1.
  rewrite makeValuePropsNative_loop in E1; [|done|by rewrite Hs].
  injection E1 as <- <-.
  apply connectView_returned in E2 as [-> Hnat].
  destruct (getValue_snapshot (gone_native s) w1) as (rendered & Er & Hl).
  { by rewrite Hp. }
  { by rewrite Hp, Hs. }
  exists rendered. split; [done|]. intros key. rewrite Hl, Hp, Hs, Hnat.
  destruct (lookup_key (_props s) key) as [v|] eqn:Hlk; [|done]. cbn [mbind option_bind].
  unfold snapshot_entry, native_snapshot_entry. case_bool_decide as Hk; [done|].
  destruct v as [p|n|n|e]; try done.
  rewrite bool_decide_eq_true_2; [done|].
  apply elem_of_union_l, elem_of_list_to_set.
  apply (animated_nodes_elem _ _ key); [|done]. by apply lookup_key_Some_elem.
Qed.

(** ** What the accessors return *)

Lemma bag_set_fresh {V} (b : bag V) key v :
  key ∉ keys b → bag_set key v b = b ++ [(key, v)].
Proof.
  unfold keys. induction b as [|[k x] rest IH]; [done|].
  intros Hk. apply not_elem_of_cons in Hk as [Hne Hk]. simpl in Hne. simpl.
  rewrite decide_False by done. f_equal. by apply IH.
Qed.

Lemma keys_animated_nodes sp (entries : bag value) key :
  key ∈ keys (animated_nodes sp entries) → key ∈ keys entries.
Proof.
  unfold keys. induction entries as [|[k v] rest IH]; [done|].
  rewrite animated_nodes_cons, fmap_app, elem_of_app. intros [Hin|Hin].
  - unfold animated_nodes in Hin. cbn [flat_map] in Hin. rewrite app_nil_r in Hin.
    assert (key = k) as ->; [|left].
    case_bool_decide.
    + destruct sp; [|by apply elem_of_nil in Hin].
      by apply list_elem_of_singleton in Hin.
    + destruct v; try (by apply elem_of_nil in Hin);
        by apply list_elem_of_singleton in Hin.
  - right. by apply IH.
Qed.

Lemma accessor_reduce (read : nat → resolved)
    (entry : bag resolved → string * value → M t (bag resolved)) s w :
  (∀ acc key value,
     (key = "style" → is_Some (_styleProp s)) →
     key ∉ keys acc →
     entry acc (key, value) s w
     = Returned (acc ++ read_nodes read (_styleProp s) [(key, value)]) s w) →
  ∀ (entries : bag value) acc,
    NoDup (keys entries) →
    (∀ key, key ∈ keys acc → key ∉ keys entries) →
    ("style" ∈ keys entries → is_Some (_styleProp s)) →
    reduce entries entry acc s w
    = Returned (acc ++ read_nodes read (_styleProp s) entries) s w.
Proof.
  intros Hentry. unfold keys.
  induction entries as [|[key value] rest IH]; intros acc Hnd Hacc Hsp.
  - cbn. by rewrite app_nil_r.
  - cbn [fmap list_fmap fst] in *. apply NoDup_cons in Hnd as [Hkey Hnd].
    cbn [reduce]. erewrite bind_of_returned; last first.
    { apply Hentry.
      - intros ->. apply Hsp. left.
      - intros Hin. apply (Hacc _ Hin). left. }
    rewrite IH; [|done| |].
    + unfold read_nodes. rewrite (animated_nodes_cons _ (key, value) rest), fmap_app.
      by rewrite app_assoc.
    + intros k Hin. rewrite fmap_app, elem_of_app in Hin. destruct Hin as [Hin|Hin].
      * intros Hk. apply (Hacc _ Hin). by right.
      * assert (k = key) as ->; [|done].
        unfold read_nodes in Hin. rewrite <- list_fmap_compose in Hin.
        apply list_elem_of_fmap in Hin as ([k' n] & -> & Hin). simpl.
        assert (k' ∈ keys (animated_nodes (_styleProp s) [(key, value)])) as Hk'.
        { apply list_elem_of_fmap. by exists (k', n). }
        apply keys_animated_nodes in Hk'. by apply list_elem_of_singleton in Hk'.
    + intros Hin. apply Hsp. by right.
Qed.

Lemma read_nodes_entry read sp key value :
  read_nodes read sp [(key, value)]
  = if bool_decide (key = "style")
    then match sp with Some composite => [(key, read composite)] | None => [] end
    else match value with
         | VNode n | VStyle n => [(key, read n)]
         | _ => []
         end.
Proof.
  unfold read_nodes, animated_nodes. cbn [flat_map]. rewrite app_nil_r.
  case_bool_decide; [by destruct sp|by destruct value].
Qed.

Lemma animatedValueKeys_entries (object : bag value) :
  NoDup (keys object) →
  createAnimatedComponent.animatedValueKeys object
  = keys (List.filter (λ '(key, v), bool_decide (key = "style")
                                    || instanceof_AnimatedNode v) object).
Proof.
  intros Hnd. unfold createAnimatedComponent.animatedValueKeys.
  assert (∀ entries : bag value,
            (∀ k v, (k, v) ∈ entries → prop object k = v) →
            List.filter (λ key, bool_decide (key = "style")
                                || instanceof_AnimatedNode (prop object key))
                        (keys entries)
            = keys (List.filter (λ '(key, v), bool_decide (key = "style")
                                              || instanceof_AnimatedNode v) entries))
    as Hgen.
  { unfold keys. induction entries as [|[k v] rest IH]; intros Hp; [done|].
    cbn [fmap list_fmap fst List.filter]. rewrite (Hp k v) by left.
    rewrite IH by (intros ???; apply Hp; by right).
    by destruct (bool_decide (k = "style") || instanceof_AnimatedNode v). }
  apply Hgen. intros k v Hin. unfold prop. by rewrite (lookup_key_elem _ _ _ Hnd Hin).
Qed.

Lemma keys_animated_nodes_filter composite (entries : bag value) :
  keys (animated_nodes (Some composite) entries)
  = keys (List.filter (λ '(key, v), bool_decide (key = "style")
                                    || instanceof_AnimatedNode v) entries).
Proof.
  unfold keys. induction entries as [|[k v] rest IH]; [done|].
  rewrite animated_nodes_cons, fmap_app, IH. cbn [List.filter].
  unfold animated_nodes. cbn [flat_map]. rewrite app_nil_r.
  case_bool_decide; [done|]. by destruct v.
Qed.

Lemma animated_nodes_no_style sp sp' (entries : bag value) :
  "style" ∉ keys entries → animated_nodes sp entries = animated_nodes sp' entries.
Proof.
  unfold keys. induction entries as [|[k v] rest IH]; [done|].
  intros Hk. apply not_elem_of_cons in Hk as [Hne Hk]. simpl in Hne.
  rewrite (animated_nodes_cons sp), (animated_nodes_cons sp'), IH by done. f_equal.
  unfold animated_nodes. cbn [flat_map]. by rewrite bool_decide_eq_false_2.
Qed.

(** X7.  On an instance whose bag has distinct keys and whose [style] key,
    if any, has its composite cached, [__getAnimatedValue] and
    [__getNativeConfig] change nothing and return, in the order of the bag,
    one entry for the [style] key, read from the composite, and one for
    every other key that holds a node, read from that node; events and
    plain values are left out.  The keys of both results are the animated
    value keys of the bag, as the wrapper's [animatedValueKeys] lists them. *)
Theorem accessors_read_the_animated_nodes (s : t) (w : world) :
  NoDup (keys (_props s)) →
  ("style" ∈ keys (_props s) → is_Some (_styleProp s)) →
  __getAnimatedValue s w
  = Returned (read_nodes RAnimatedValue (_styleProp s) (_props s)) s w ∧
  __getNativeConfig s w
  = Returned (read_nodes RNativeTag (_styleProp s) (_props s)) s w ∧
  keys (read_nodes RAnimatedValue (_styleProp s) (_props s))
  = createAnimatedComponent.animatedValueKeys (_props s) ∧
  keys (read_nodes RNativeTag (_styleProp s) (_props s))
  = createAnimatedComponent.animatedValueKeys (_props s).
Proof.
  intros Hnd Hsp.
  assert (∀ read, keys (read_nodes read (_styleProp s) (_props s))
                  = createAnimatedComponent.animatedValueKeys (_props s)) as Hkeys.
  { intros read. rewrite animatedValueKeys_entries by done.
    unfold read_nodes, keys at 1. rewrite <- list_fmap_compose.
    assert (∀ l : bag nat, (fst ∘ prod_map id read) <$> l = keys l) as ->.
    { intros l. unfold keys. apply list_fmap_ext. by intros ? []. }
    destruct (decide ("style" ∈ keys (_props s))) as [Hin|Hnin].
    - destruct (Hsp Hin) as [composite ->]. apply keys_animated_nodes_filter.
    - rewrite (animated_nodes_no_style _ (Some 0)) by done.
      apply keys_animated_nodes_filter. }
  split; [|split; [|split]]; [| |apply Hkeys..].
  - unfold __getAnimatedValue. rewrite bind_gets.
    rewrite (accessor_reduce RAnimatedValue); [done| |done| |done].
    + intros acc key value Hstyle Hfresh. rewrite read_nodes_entry.
      unfold __getAnimatedValue_entry, styleProp_or. case_bool_decide as Hk.
      * destruct (Hstyle Hk) as [composite Hc].
        rewrite bind_assoc, bind_gets, Hc, !bind_ret_l. unfold ret.
        by rewrite bag_set_fresh.
      * rewrite bind_ret_l. unfold ret.
        destruct value; by rewrite ?bag_set_fresh, ?app_nil_r.
    + intros key Hin. by apply elem_of_nil in Hin.
  - unfold __getNativeConfig. rewrite bind_gets.
    rewrite (accessor_reduce RNativeTag); [done| |done| |done].
    + intros acc key value Hstyle Hfresh. rewrite read_nodes_entry.
      unfold __getNativeConfig_entry, styleProp_or. case_bool_decide as Hk.
      * destruct (Hstyle Hk) as [composite Hc].
        rewrite bind_assoc, bind_gets, Hc, !bind_ret_l. unfold ret.
        by rewrite bag_set_fresh.
      * rewrite bind_ret_l. unfold ret.
        destruct value; by rewrite ?bag_set_fresh, ?app_nil_r.
    + intros key Hin. by apply elem_of_nil in Hin.
Qed.

End WithHost.

(** ** An update that finds nothing to do *)

Lemma bag_ext (a b : bag value) :
  keys a = keys b → NoDup (keys a) → (∀ key, prop a key = prop b key) → a = b.
Proof.
  unfold keys. revert b. induction a as [|[k v] a IH]; intros [|[k' v'] b]; try done.
  cbn [fmap list_fmap fst]. intros [= <- Hk] Hnd Hp.
  apply NoDup_cons in Hnd as [Hnew Hnd].
  pose proof (Hp k) as Hv. unfold prop in Hv. simpl in Hv.
  rewrite !decide_True in Hv by done. simpl in Hv. subst v'. f_equal.
  apply IH; [done|done|]. intros key. specialize (Hp key). unfold prop in *.
  simpl in Hp. destruct (decide (k = key)) as [->|Hne]; [|done].
  assert (lookup_key a key = None) as -> by by apply lookup_key_None.
  assert (lookup_key b key = None) as ->; [|done].
  apply lookup_key_None. unfold keys. by rewrite <- Hk.
Qed.

Section WithHost.
Context `{Host}.
Import AnimatedProps.

Lemma filter_none {X} (f : X → bool) (l : list X) :
  (∀ x, x ∈ l → f x = false) → List.filter f l = [].
Proof.
  induction l as [|x l IH]; intros Hf; [done|]. cbn [List.filter].
  rewrite (Hf x) by left. apply IH. intros y Hy. apply Hf. by right.
Qed.

Lemma updateProps_quiet nextProps s w :
  _reattachAll s = false →
  NoDup (keys nextProps) →
  (∀ key, key ∈ animatedKeys nextProps →
          animatedDiff (prop (_props s) key) (prop nextProps key) = false) →
  (∀ key, key ∈ animatedKeys (_props s) → key ∈ animatedKeys nextProps) →
  updateProps nextProps s w
  = Returned tt
      (set_reattachAll false (set_props (carriedOver (_props s) nextProps) s)) w.
Proof.
  intros Hra Hnd Hsame Hsub. rewrite updateProps_reattachChanged by done.
  unfold reattachChanged. rewrite bind_gets.
  unfold changedKeys. rewrite filter_none by done.
  rewrite removedKeys_none by done. reflexivity.
Qed.

Lemma carried_animatedKeys ra last nextProps key :
  NoDup (keys nextProps) →
  key ∈ animatedKeys (carried ra last (animatedKeys nextProps) nextProps) →
  key ∈ animatedKeys nextProps.
Proof.
  intros Hnd Hin.
  destruct (decide (key ∈ animatedKeys nextProps)) as [|Hnin]; [done|]. exfalso.
  assert (keys (carried ra last (animatedKeys nextProps) nextProps) = keys nextProps)
    as Hkeys by (apply carried_keys; intros k; apply animatedKeys_keys).
  unfold animatedKeys in Hin at 1.
  apply list_elem_of_In, List.filter_In in Hin as [Hk Hanimated].
  rewrite carried_prop_general in Hanimated by by apply NoDup_animatedKeys.
  rewrite (bool_decide_eq_false_2 _ Hnin) in Hanimated. cbn [andb] in Hanimated.
  apply Hnin. unfold animatedKeys. apply list_elem_of_In, List.filter_In.
  split; [|done]. by rewrite <- Hkeys.
Qed.

(** X8.  Repeating an update costs nothing.  When [updateProps] has
    returned for a bag with distinct keys whose animated values do not
    differ from themselves, calling it again with the same bag makes no
    call and leaves the instance as it is: every animated key is carried
    over, nothing is replaced and nothing is detached. *)
Theorem updateProps_again_is_quiet (nextProps : bag value) (s : t) (w : world) s1 w1 :
  NoDup (keys nextProps) →
  (∀ key, key ∈ animatedKeys nextProps →
          animatedDiff (prop nextProps key) (prop nextProps key) = false) →
  updateProps nextProps s w = Returned tt s1 w1 →
  updateProps nextProps s1 w1 = Returned tt s1 w1.
Proof.
  intros Hnd Hrefl E. rewrite updateProps_general in E by done.
  set (ra := _reattachAll s) in *. set (last := _props s) in *.
  apply bind_returned in E as ([] & s2 & w2 & _ & E).
  apply bind_returned in E as ([] & s3 & w3 & _ & E).
  rewrite !bind_modify in E. unfold modify in E. injection E as <- <-.
  set (c := carried ra last (animatedKeys nextProps) nextProps).
  assert (NoDup (animatedKeys nextProps)) as Hndk by by apply NoDup_animatedKeys.
  assert (∀ key, key ∈ animatedKeys nextProps →
                 animatedDiff (prop c key) (prop nextProps key) = false) as Hsame.
  { intros key Hin. unfold c. rewrite carried_prop_general by done.
    rewrite bool_decide_eq_true_2 by done. cbn [andb].
    destruct (ra || animatedDiff (prop last key) (prop nextProps key)) eqn:Hd; cbn [negb].
    - by apply Hrefl.
    - by apply orb_false_iff in Hd as [_ ?]. }
  rewrite updateProps_quiet; [|done|done|exact Hsame|]; last first.
  { intros key. by apply carried_animatedKeys. }
  f_equal. cbn [_props set_reattachAll set_props].
  assert (carriedOver c nextProps = c) as ->; [|by destruct s3].
  assert (keys c = keys nextProps) as Hkeys
    by (apply carried_keys; intros k; apply animatedKeys_keys).
  change (carriedOver c nextProps) with (carried false c (animatedKeys nextProps) nextProps).
  apply bag_ext.
  - rewrite Hkeys. apply carried_keys. intros k. apply animatedKeys_keys.
  - rewrite carried_keys; [done|]. intros k. apply animatedKeys_keys.
  - intros key. rewrite carried_prop by done.
    destruct (decide (key ∈ animatedKeys nextProps)) as [Hin|Hnin].
    + rewrite bool_decide_eq_true_2, Hsame by done. done.
    + rewrite (bool_decide_eq_false_2 _ Hnin). cbn [andb].
      unfold c. rewrite carried_prop_general by done.
      by rewrite (bool_decide_eq_false_2 _ Hnin).
Qed.

End WithHost.

(** ** Which fields a method writes *)

Section Preserves.
Context {St : Type} (R : St → St → Prop).

Lemma preserves_keeps {A} (m : M St A) : Reflexive R → keeps m → preserves R m.
Proof. intros ? Hm s w. by rewrite Hm. Qed.

Lemma preserves_modify (f : St → St) : (∀ s, R s (f s)) → preserves R (modify f).
Proof. intros Hf s w. apply Hf. Qed.

Lemma preserves_bind {A B} (m : M St A) (k : A → M St B) :
  Transitive R →
  preserves R m → (∀ a, preserves R (k a)) → preserves R (bind m k).
Proof.
  intros ? Hm Hk s w. unfold bind. specialize (Hm s w).
  destruct (m s w) as [a s1 w1|msg s1 w1]; simpl in Hm; [|done].
  by etrans; [|apply Hk].
Qed.

Lemma preserves_forEach {X} (l : list X) (f : X → M St unit) :
  Reflexive R → Transitive R →
  (∀ x, preserves R (f x)) → preserves R (forEach l f).
Proof.
  intros ? ? Hf. induction l as [|x l IH]; simpl.
  - by apply preserves_keeps, keeps_ret.
  - apply preserves_bind; [done|apply Hf|]. intros _. exact IH.
Qed.

Lemma preserves_reduce {X Acc} (l : list X) (f : Acc → X → M St Acc) init :
  Reflexive R → Transitive R →
  (∀ acc x, preserves R (f acc x)) → preserves R (reduce l f init).
Proof.
  intros ? ? Hf. revert init. induction l as [|x l IH]; intros init; simpl.
  - by apply preserves_keeps, keeps_ret.
  - apply preserves_bind; [done|apply Hf|apply IH].
Qed.

End Preserves.

Lemma emits_reduce {St X Acc} P (l : list X) (f : Acc → X → M St Acc) init :
  (∀ acc x, emits P (f acc x)) → emits P (reduce l f init).
Proof.
  intros Hf. revert init. induction l as [|x l IH]; intros init; simpl.
  - apply emits_ret.
  - apply emits_bind; [apply Hf|apply IH].
Qed.

Section WithHost.
Context `{Host}.
Import AnimatedProps.

#[local] Instance same_binding_refl : Reflexive same_binding.
Proof. by intros s. Qed.

#[local] Instance same_binding_trans : Transitive same_binding.
Proof.
  intros a b c (? & ? & ? & ?) (? & ? & ? & ?). repeat split; congruence.
Qed.

#[local] Instance forgets_composite_refl : Reflexive forgets_composite.
Proof. intros s. by left. Qed.

#[local] Instance forgets_composite_trans : Transitive forgets_composite.
Proof.
  intros a b c [->| ->] [->| ->]; [by left|by right|by right|by right].
Qed.

Lemma preserves_writes {A} (m : M t A) :
  writes_styleProp m → preserves same_binding m.
Proof. intros Hm s w. destruct (Hm s w) as [sp ->]. done. Qed.

Lemma keeps_disconnectView : keeps __disconnectView.
Proof. unfold __disconnectView. repeat keeps_step. Qed.

Lemma keeps_connectView : keeps __connectView.
Proof. unfold __connectView. repeat keeps_step. Qed.

Lemma keeps_detachEventProps : keeps __detachEventProps.
Proof.
  unfold __detachEventProps. apply keeps_bind; [apply keeps_gets|]. intros props.
  apply keeps_forEach. intros [key value] _. apply keeps_detachEventProp.
Qed.

Lemma keeps_attachEventProps : keeps __attachEventProps.
Proof.
  unfold __attachEventProps. apply keeps_bind; [apply keeps_gets|]. intros props.
  apply keeps_forEach. intros [key value] _. apply keeps_attachEventProp.
Qed.

Lemma keeps_makeValuePropsNative : keeps __makeValuePropsNative.
Proof.
  unfold __makeValuePropsNative. apply keeps_bind; [apply keeps_gets|]. intros props.
  apply keeps_forEach. intros [key value] _. apply keeps_makeValuePropNative.
Qed.

Lemma getNativeConfig_reads : reads __getNativeConfig.
Proof.
  unfold __getNativeConfig. apply reads_bind; [apply reads_gets|]. intros entries.
  apply reads_reduce. intros acc [key value]. unfold __getNativeConfig_entry.
  apply reads_bind; [apply reads_styleProp_or|].
  intros [p|n|n|e]; apply reads_ret.
Qed.

Lemma preserves_detachValueProp key value :
  preserves forgets_composite (__detachValueProp key value).
Proof.
  unfold __detachValueProp. apply preserves_bind; [apply _| |].
  - destruct (_ && _); [|apply preserves_keeps; [apply _|apply keeps_ret]].
    apply preserves_bind; [apply _|apply preserves_keeps; [apply _|apply keeps_gets]|].
    intros [composite|]; [|apply preserves_keeps; [apply _|apply keeps_throw]].
    apply preserves_bind; [apply _| |].
    + apply preserves_modify. intros s. by right.
    + intros _. apply preserves_keeps; [apply _|apply keeps_ret].
  - intros v. apply preserves_keeps; [apply _|]. repeat keeps_step.
Qed.

(** X9.  What each method of an instance can write, whether it returns
    or throws.  [updateView] leaves the instance as it was or only stores
    the new view; [__getValue] only sets the snapshot marker;
    [__getAnimatedValue] and [__getNativeConfig] write nothing;
    [__makeNative] writes nothing or only its two flags; [__detach] leaves
    the instance as it was or only forgets the composite: it keeps the bag
    and the view it had. *)
Theorem methods_write_their_own_fields (s : t) (w : world) :
  (∀ nextView, state_of (updateView nextView s w) = s ∨
               state_of (updateView nextView s w) = set_view nextView s) ∧
  state_of (__getValue s w) = set_firstValueReturned true s ∧
  state_of (__getAnimatedValue s w) = s ∧
  state_of (__getNativeConfig s w) = s ∧
  (state_of (__makeNative s w) = s ∨ state_of (__makeNative s w) = gone_native s) ∧
  forgets_composite s (state_of (__detach s w)).
Proof.
  split; [|split; [apply getValue_marks|split; [apply getAnimatedValue_reads|
          split; [apply getNativeConfig_reads|split]]]].
  - intros nextView. unfold updateView. rewrite bind_gets.
    destruct (viewref_eqb (_view s) nextView); [by left|].
    assert (keeps (__connectView ;; __attachEventProps)) as Hk.
    { apply keeps_bind; [apply keeps_connectView|]. intros _. apply keeps_attachEventProps. }
    erewrite bind_of_returned; [|apply detachEventProps_calls].
    set (w1 := calls _ w).
    pose proof (keeps_disconnectView s w1) as H2.
    destruct (__disconnectView s w1) as [[] s2 w2|msg s2 w2] eqn:E2; simpl in H2; subst s2.
    + erewrite bind_of_returned; [|exact E2]. rewrite bind_modify. right. apply Hk.
    + erewrite bind_of_thrown; [|exact E2]. by left.
  - destruct (__isNative s) eqn:Hn.
    + left. by rewrite makeNative_already.
    + right. rewrite makeNative_start by done.
      assert (keeps (__makeValuePropsNative ;; __connectView)) as Hk.
      { apply keeps_bind; [apply keeps_makeValuePropsNative|]. intros _.
        apply keeps_connectView. }
      apply Hk.
  - assert (preserves forgets_composite __detach) as Hp; [|apply Hp].
    unfold __detach.
    apply preserves_bind; [apply _|apply preserves_keeps, keeps_disconnectView; apply _|].
    intros _.
    apply preserves_bind; [apply _|apply preserves_keeps, keeps_detachEventProps; apply _|].
    intros _. apply preserves_bind; [apply _| |].
    + unfold __detachValueProps.
      apply preserves_bind; [apply _|apply preserves_keeps, keeps_gets; apply _|].
      intros props. apply preserves_forEach; [apply _..|]. intros [key value].
      apply preserves_detachValueProp.
    + intros _. apply preserves_keeps; [apply _|]. repeat keeps_step.
Qed.

Lemma emits_binding_attachProp key value : emits is_binding (__attachProp key value).
Proof.
  unfold __attachProp, __attachValueProp, __makeValuePropNative, __attachEventProp.
  repeat emits_step; apply emits_scrollableView.
Qed.

Lemma emits_binding_detachProp key value : emits is_binding (__detachProp key value).
Proof.
  unfold __detachProp, __detachValueProp, __detachEventProp.
  repeat emits_step; apply emits_scrollableView.
Qed.

Lemma emits_binding_replaceProp key lastValue nextValue :
  emits is_binding (__replaceProp key lastValue nextValue).
Proof.
  unfold __replaceProp. apply emits_bind; [repeat emits_step|]. intros lastValue'.
  apply emits_bind; [apply emits_binding_attachProp|]. intros _.
  apply emits_binding_detachProp.
Qed.

(** X10.  [updateProps] only rebinds values.  Whether it returns or
    throws, the instance keeps its identity, its view, its native flag and
    its snapshot marker, and every call it makes subscribes to a node,
    unsubscribes from one, makes one native, or binds or unbinds an event:
    it never connects or disconnects the view, never starts or ends the
    instance, and never updates the screen. *)
Theorem updateProps_only_rebinds (nextProps : bag value) (s : t) (w : world) :
  same_binding s (state_of (updateProps nextProps s w)) ∧
  ∃ d, trace (world_of (updateProps nextProps s w)) = trace w ++ d ∧
       Forall (λ e, is_binding e = true) d.
Proof.
  split.
  - assert (preserves same_binding (updateProps nextProps)) as Hp; [|apply Hp].
    unfold updateProps.
    apply preserves_bind; [apply _|apply preserves_keeps, keeps_gets; apply _|].
    intros ra.
    apply preserves_bind; [apply _|apply preserves_keeps, keeps_gets; apply _|].
    intros last. apply preserves_bind; [apply _| |].
    + apply preserves_reduce; [apply _..|]. intros [np lk] key. unfold updateProps_step.
      apply preserves_bind; [apply _| |].
      * destruct (_ || _); [|apply preserves_keeps, keeps_ret; apply _].
        apply preserves_bind; [apply _|apply preserves_writes, writes_replaceProp|].
        intros _. apply preserves_keeps, keeps_ret; apply _.
      * intros np'. apply preserves_keeps, keeps_ret; apply _.
    + intros acc. apply preserves_bind; [apply _| |].
      * apply preserves_forEach; [apply _..|]. intros key.
        apply preserves_writes, writes_detachProp.
      * intros _. apply preserves_bind; [apply _| |].
        -- by apply preserves_modify.
        -- intros _. by apply preserves_modify.
  - assert (emits is_binding (updateProps nextProps)) as He; [|apply He].
    unfold updateProps. apply emits_bind; [apply emits_gets|]. intros ra.
    apply emits_bind; [apply emits_gets|]. intros last.
    apply emits_bind.
    + apply emits_reduce. intros [np lk] key. unfold updateProps_step.
      apply emits_bind; [|intros ?; apply emits_ret].
      destruct (_ || _); [|apply emits_ret].
      apply emits_bind; [apply emits_binding_replaceProp|]. intros _. apply emits_ret.
    + intros acc. apply emits_bind.
      * apply emits_forEach. intros key. apply emits_binding_detachProp.
      * intros _. apply emits_bind; [apply emits_modify|]. intros _. apply emits_modify.
Qed.

End WithHost.

Section WithHost.
Context `{Host}.
Import AnimatedProps.

(** ** The style composite invariant over the life of an instance *)

Lemma style_inv_fields s s' :
  _props s' = _props s → _styleProp s' = _styleProp s → style_inv s → style_inv s'.
Proof. unfold style_inv. by intros -> ->. Qed.

(** X11.  The style composite invariant (a composite is cached exactly
    when the bag has a [style] key whose value is not an [AnimatedStyle])
    holds for every new instance built from a bag with distinct keys, and
    [updateView], [__getValue] and [__makeNative] keep it, whether they
    return or throw.  [updateProps] keeps it when it returns, provided the
    bags have distinct keys and the next bag brings in no [style] key that
    the last one did not have. *)
Theorem style_invariant_is_kept :
  (∀ props w, NoDup (keys props) → style_inv (state_of (constructor props w))) ∧
  (∀ s w, style_inv s →
     (∀ nextView, style_inv (state_of (updateView nextView s w))) ∧
     style_inv (state_of (__getValue s w)) ∧
     style_inv (state_of (__makeNative s w)) ∧
     (∀ nextProps s' w',
        NoDup (keys (_props s)) → NoDup (keys nextProps) →
        ("style" ∈ keys nextProps → "style" ∈ keys (_props s)) →
        updateProps nextProps s w = Returned tt s' w' → style_inv s')).
Proof.
  split.
  - intros props w Hnd. rewrite constructor_run by done. unfold style_inv. simpl.
    by destruct (needs_composite props).
  - intros s w Hinv. split; [|split; [|split]].
    + intros nextView.
      assert (state_of (updateView nextView s w) = s ∨
              state_of (updateView nextView s w) = set_view nextView s) as [-> | ->];
        [|done|done].
      unfold updateView. rewrite bind_gets.
      destruct (viewref_eqb (_view s) nextView); [by left|].
      assert (keeps (__connectView ;; __attachEventProps)) as Hk.
      { apply keeps_bind; [apply keeps_connectView|]. intros _.
        apply keeps_attachEventProps. }
      erewrite bind_of_returned; [|apply detachEventProps_calls].
      set (w1 := calls _ w).
      pose proof (keeps_disconnectView s w1) as H2.
      destruct (__disconnectView s w1) as [[] s2 w2|msg s2 w2] eqn:E2; simpl in H2; subst s2.
      * erewrite bind_of_returned; [|exact E2]. rewrite bind_modify. right. apply Hk.
      * erewrite bind_of_thrown; [|exact E2]. by left.
    + by rewrite getValue_marks.
    + destruct (__isNative s) eqn:Hn; [by rewrite makeNative_already|].
      rewrite makeNative_start by done.
      assert (keeps (__makeValuePropsNative ;; __connectView)) as Hk.
      { apply keeps_bind; [apply keeps_makeValuePropsNative|]. intros _.
        apply keeps_connectView. }
      rewrite Hk. destruct (gone_native_fields s) as (_ & Hp & Hs & _).
      by apply (style_inv_fields s).
    + intros nextProps s' w' Hndl Hnd Hintro E.
      by destruct (updateProps_keeps_style_inv _ _ _ _ _ Hinv Hndl Hnd Hintro E).
Qed.

(** ** The key classifications *)

Lemma elem_of_List_filter {X} (f : X → bool) (l : list X) x :
  x ∈ List.filter f l ↔ x ∈ l ∧ f x = true.
Proof.
  split.
  - intros Hin. apply list_elem_of_In, List.filter_In in Hin as [Hin Hf].
    split; [by apply list_elem_of_In|done].
  - intros [Hin Hf]. apply list_elem_of_In, List.filter_In.
    split; [by apply list_elem_of_In|done].
Qed.

(** X12.  The classification of [AnimatedProps.js] and the two of the
    wrapper agree: a key is animated exactly when it is an animated value
    key or an animated event key, and the two kinds overlap only at a
    [style] key that holds an event. *)
Theorem animatedKeys_are_value_keys_and_event_keys (object : bag value)
    (key : string) :
  (key ∈ animatedKeys object ↔
   key ∈ createAnimatedComponent.animatedValueKeys object ∨
   key ∈ createAnimatedComponent.animatedEventKeys object) ∧
  (key ∈ createAnimatedComponent.animatedValueKeys object →
   key ∈ createAnimatedComponent.animatedEventKeys object →
   key = "style").
Proof.
  unfold animatedKeys, createAnimatedComponent.animatedValueKeys,
    createAnimatedComponent.animatedEventKeys.
  rewrite !elem_of_List_filter. split.
  - rewrite !orb_true_iff. tauto.
  - intros [_ Hv] [_ He]. apply orb_true_iff in Hv as [Hv|Hv].
    + by apply bool_decide_eq_true in Hv.
    + by destruct (prop object key).
Qed.

Lemma first_diff_finds (diff : value → value → bool) (lastProps nextProps : bag value)
    (lastKeys : list string) :
  match createAnimatedComponent.first_diff diff lastProps nextProps lastKeys with
  | createAnimatedComponent.ChangedShape => False
  | createAnimatedComponent.ChangedKey key =>
      ∃ before rest,
        lastKeys = before ++ key :: rest ∧
        diff (prop lastProps key) (prop nextProps key) = true ∧
        ∀ k, k ∈ before → diff (prop lastProps k) (prop nextProps k) = false
  | createAnimatedComponent.NotChanged =>
      ∀ k, k ∈ lastKeys → diff (prop lastProps k) (prop nextProps k) = false
  end.
Proof.
  induction lastKeys as [|key l IH]; cbn [createAnimatedComponent.first_diff].
  - intros k Hk. by apply elem_of_nil in Hk.
  - destruct (diff (prop lastProps key) (prop nextProps key)) eqn:Hk.
    + exists [], l. split; [done|]. split; [done|].
      intros k Hin. by apply elem_of_nil in Hin.
    + destruct (createAnimatedComponent.first_diff diff lastProps nextProps l)
        as [|key'|] eqn:Hf.
      * intros k Hin. apply elem_of_cons in Hin as [->|Hin]; [done|by apply IH].
      * destruct IH as (before & rest & -> & Hkey & Hbefore).
        exists (key :: before), rest. split; [done|]. split; [done|].
        intros k Hin. apply elem_of_cons in Hin as [->|Hin]; [done|by apply Hbefore].
      * done.
Qed.

(** X13.  [animatedPropsChanged] answers [true] exactly when the two
    arrays of keys differ.  Otherwise it answers with the first key, in the
    order of the last bag, whose two values differ, and with [false] when
    there is none. *)
Theorem animatedPropsChanged_finds_the_first_difference
    (lastProps nextProps : bag value) (getKeys : bag value → list string)
    (diff : value → value → bool) :
  match createAnimatedComponent.animatedPropsChanged lastProps nextProps getKeys diff with
  | createAnimatedComponent.ChangedShape =>
      deepDiffer (createAnimatedComponent.key_array (getKeys lastProps))
                 (createAnimatedComponent.key_array (getKeys nextProps)) = true
  | createAnimatedComponent.ChangedKey key =>
      deepDiffer (createAnimatedComponent.key_array (getKeys lastProps))
                 (createAnimatedComponent.key_array (getKeys nextProps)) = false ∧
      ∃ before rest,
        getKeys lastProps = before ++ key :: rest ∧
        diff (prop lastProps key) (prop nextProps key) = true ∧
        ∀ k, k ∈ before → diff (prop lastProps k) (prop nextProps k) = false
  | createAnimatedComponent.NotChanged =>
      deepDiffer (createAnimatedComponent.key_array (getKeys lastProps))
                 (createAnimatedComponent.key_array (getKeys nextProps)) = false ∧
      ∀ k, k ∈ getKeys lastProps → diff (prop lastProps k) (prop nextProps k) = false
  end.
Proof.
  unfold createAnimatedComponent.animatedPropsChanged.
  destruct (deepDiffer _ _) eqn:Hd; cbn [negb]; [done|].
  pose proof (first_diff_finds diff lastProps nextProps (getKeys lastProps)) as Hf.
  by destruct (createAnimatedComponent.first_diff _ _ _ _).
Qed.

End WithHost.

Section WithHost.
Context `{Host}.
Import AnimatedProps.

(** ** The life cycle of the second listing *)

Lemma updateView_run nextView s w :
  nextView ≠ _view s →
  located (__isNative s) (_view s) →
  located (__isNative s) nextView →
  updateView nextView s w
  = Returned tt (set_view nextView s)
      (calls
         (event_calls EventDetach (_view s) (_props s)
          ++ view_calls DisconnectAnimatedNodeFromView (__isNative s) (self s) (_view s)
          ++ view_calls ConnectAnimatedNodeToView (__isNative s) (self s) nextView
          ++ event_calls EventAttach nextView (_props s))
         w).
Proof.
  intros Hne Hold Hnew. unfold updateView. rewrite bind_gets.
  destruct (viewref_eqb (_view s) nextView) eqn:Heq.
  { apply viewref_eqb_eq in Heq. congruence. }
  erewrite bind_of_returned; [|apply detachEventProps_calls].
  erewrite bind_of_returned; [|by apply disconnectView_calls].
  erewrite bind_of_returned; [|reflexivity].
  erewrite bind_of_returned; [|by apply connectView_calls].
  rewrite attachEventProps_calls. rewrite !calls_app. simpl.
  by rewrite <- ?app_assoc.
Qed.

Lemma updateView_returned nextView s w s' w' :
  updateView nextView s w = Returned tt s' w' → _view s' = nextView.
Proof.
  unfold updateView. rewrite bind_gets.
  destruct (viewref_eqb (_view s) nextView) eqn:Heq.
  { apply viewref_eqb_eq in Heq. by intros [= <- _]. }
  intros E.
  apply bind_returned in E as ([] & s1 & w1 & _ & E).
  apply bind_returned in E as ([] & s2 & w2 & _ & E).
  rewrite bind_modify in E.
  assert (keeps (__connectView ;; __attachEventProps)) as Hk.
  { apply keeps_bind; [apply keeps_connectView|]. intros _. apply keeps_attachEventProps. }
  specialize (Hk (set_view nextView s2) w2). rewrite E in Hk. simpl in Hk. by subst s'.
Qed.

(** X14.  In the second listing, [componentDidUpdate] rebinds the view
    once.  When it has returned, the instance is bound to the current
    component whenever the component differs from the previous one, and a
    second [componentDidUpdate] makes no call and changes nothing, although
    [_prevComponent] still holds the old component. *)
Theorem componentDidUpdate_rebinds_once (s : createAnimatedComponent_2.t) (w : world)
    s1 w1 :
  createAnimatedComponent_2.componentDidUpdate s w = Returned tt s1 w1 →
  (createAnimatedComponent_2._component s ≠ createAnimatedComponent_2._prevComponent s →
   ∃ inst, createAnimatedComponent_2._animatedProps s1 = Some inst ∧
           _view inst = createAnimatedComponent_2._component s) ∧
  createAnimatedComponent_2.componentDidUpdate s1 w1 = Returned tt s1 w1.
Proof.
  unfold createAnimatedComponent_2.componentDidUpdate. rewrite !bind_gets.
  destruct (viewref_eqb (createAnimatedComponent_2._component s)
              (createAnimatedComponent_2._prevComponent s)) eqn:Heq; cbn [negb].
  - intros [= <- <-]. split.
    + intros Hne. apply viewref_eqb_eq in Heq. done.
    + by rewrite Heq.
  - unfold createAnimatedComponent_2.onProps at 1.
    destruct (createAnimatedComponent_2._animatedProps s) as [inst|] eqn:Hp; [|done].
    destruct (updateView (createAnimatedComponent_2._component s) inst w)
      as [[] inst' w'|] eqn:E; [|done].
    intros [= <- <-]. apply updateView_returned in E as Hv. split.
    + intros _. by exists inst'.
    + cbn. rewrite Heq. cbn [negb].
      unfold createAnimatedComponent_2.onProps. cbn.
      unfold updateView. rewrite Hv, viewref_eqb_refl. reflexivity.
Qed.

Lemma componentWillMount_run (s : createAnimatedComponent_2.t) (w : world) :
  NoDup (keys (createAnimatedComponent_2.props s)) →
  createAnimatedComponent_2.componentWillMount s w
  = Returned tt
      (createAnimatedComponent_2.set_animatedProps
         (Some (state_of (constructor (createAnimatedComponent_2.props s) w))) s)
      (world_of (constructor (createAnimatedComponent_2.props s) w)).
Proof.
  intros Hnd. unfold createAnimatedComponent_2.componentWillMount,
    createAnimatedComponent_2._attachProps,
    createAnimatedComponent_2.new_AnimatedProps, bind, gets, modify.
  by rewrite constructor_run.
Qed.

(** X15.  In the second listing, a component with distinct keys that
    mounts on a view and unmounts leaves nothing behind: mounting builds the
    instance and, once the view is there, binds the native events to it;
    unmounting unbinds those events from that view, undoes every
    subscription that mounting made, once each and in the same order, and
    ends the instance.  No call connects or disconnects the view, since the
    instance never went native. *)
Theorem mount_then_unmount_leaves_nothing (s : createAnimatedComponent_2.t)
    (w : world) (c : nat) :
  NoDup (keys (createAnimatedComponent_2.props s)) →
  ∃ s' w',
    (createAnimatedComponent_2.componentWillMount ;;
     createAnimatedComponent_2._setComponentRef (ViewObj c) ;;
     createAnimatedComponent_2.componentDidMount ;;
     createAnimatedComponent_2.componentWillUnmount) s w
    = Returned tt s' w' ∧
    createAnimatedComponent_2._component s' = ViewObj c ∧
    new_calls w w'
    = SuperAttach (next_object w)
        :: subscribe_calls (next_object w) (S (next_object w))
             (createAnimatedComponent_2.props s)
        ++ event_calls EventAttach (ViewObj c) (createAnimatedComponent_2.props s)
        ++ event_calls EventDetach (ViewObj c) (createAnimatedComponent_2.props s)
        ++ omap unsubscribed
             (subscribe_calls (next_object w) (S (next_object w))
                (createAnimatedComponent_2.props s))
        ++ [SuperDetach (next_object w)].
Proof.
  intros Hnd. set (p := createAnimatedComponent_2.props s) in *.
  set (me := next_object w).
  set (created := Make me ViewUndefined p
                    (if needs_composite p then Some (S me) else None) false false false).
  set (w1 := World (native_nodes w) (if needs_composite p then S (S me) else S me)
               (trace w ++ SuperAttach me :: subscribe_calls me (S me) p)).
  set (s1 := createAnimatedComponent_2.set_componentRef (ViewObj c)
               (createAnimatedComponent_2.set_animatedProps (Some created) s)).
  set (mounted := set_view (ViewObj c) created).
  set (w2 := calls (event_calls EventAttach (ViewObj c) p) w1).
  assert (createAnimatedComponent_2.componentWillMount s w
          = Returned tt (createAnimatedComponent_2.set_animatedProps (Some created) s) w1)
    as E1.
  { rewrite componentWillMount_run by done. fold p. by rewrite constructor_run. }
  assert (createAnimatedComponent_2.componentDidMount s1 w1
          = Returned tt (createAnimatedComponent_2.set_animatedProps (Some mounted) s1) w2)
    as E2.
  { unfold createAnimatedComponent_2.componentDidMount. rewrite bind_gets.
    unfold createAnimatedComponent_2.onProps.
    change (createAnimatedComponent_2._animatedProps s1) with (Some created).
    change (createAnimatedComponent_2._component s1) with (ViewObj c).
    cbv beta iota. rewrite updateView_run; [reflexivity|done|done|done]. }
  assert (__detach mounted w2
          = Returned tt (if needs_composite p then set_styleProp None mounted else mounted)
              (calls (event_calls EventDetach (ViewObj c) p
                      ++ unsubscribe_calls me (_styleProp created) p
                      ++ [SuperDetach me]) w2)) as E3.
  { rewrite detach_run; [done|done| |done]. cbn. intros ->. by eexists. }
  eexists _, _. split; [|split].
  - erewrite bind_of_returned; [|exact E1].
    unfold createAnimatedComponent_2._setComponentRef. rewrite bind_modify. fold s1.
    erewrite bind_of_returned; [|exact E2].
    unfold createAnimatedComponent_2.componentWillUnmount,
      createAnimatedComponent_2.onProps.
    change (createAnimatedComponent_2._animatedProps
              (createAnimatedComponent_2.set_animatedProps (Some mounted) s1))
      with (Some mounted).
    cbv beta iota. rewrite E3. reflexivity.
  - done.
  - apply new_calls_app. cbn. rewrite omap_subscribe_calls by done.
    by rewrite <- !app_assoc.
Qed.

End WithHost.

Section WithHost.
Context `{Host}.

(** ** The wrapper's own event bindings (first listing) *)

Lemma attachNativeEvents_loop (c : nat) (entries : bag value) s w :
  forEach entries
    (NativeEvents._attachNativeEvents_entry (default c (getScrollableNode c))) s w
  = Returned tt
      (NativeEvents.Make (NativeEvents.wrapper s)
         (NativeEvents._eventDetachers s ++ detachers_of c entries))
      (calls (event_calls EventAttach (ViewObj c) entries) w).
Proof.
  revert s w. induction entries as [|[key v] rest IH]; intros s w.
  - cbn. rewrite app_nil_r, calls_nil. by destruct s.
  - cbn [forEach]. unfold bind at 1.
    assert (NativeEvents._attachNativeEvents_entry (default c (getScrollableNode c))
              (key, v) s w
            = Returned tt
                (NativeEvents.Make (NativeEvents.wrapper s)
                   (NativeEvents._eventDetachers s ++ detachers_of c [(key, v)]))
                (calls (event_calls EventAttach (ViewObj c) [(key, v)]) w)) as ->.
    { unfold NativeEvents._attachNativeEvents_entry, detachers_of, event_calls.
      cbn [flat_map]. destruct v as [p|n|n|e]; cbn; rewrite ?app_nil_r, ?calls_nil;
        try by destruct s.
      destruct (event_isNative e); cbn; rewrite ?app_nil_r, ?calls_nil; by destruct s. }
    rewrite IH. cbn [NativeEvents.wrapper NativeEvents._eventDetachers].
    rewrite calls_app, <- app_assoc.
    rewrite (event_calls_cons _ _ (key, v) rest). do 3 f_equal.
    unfold detachers_of. cbn [flat_map]. by rewrite app_nil_r.
Qed.

Lemma detachNativeEvents_loop (detachers : list NativeEvents.detacher)
    (s : NativeEvents.t) w :
  forEach detachers
    (λ remove, emit (EventDetach (NativeEvents.d_event remove)
                       (NativeEvents.d_target remove) (NativeEvents.d_key remove))) s w
  = Returned tt s
      (calls ((λ remove, EventDetach (NativeEvents.d_event remove)
                           (NativeEvents.d_target remove) (NativeEvents.d_key remove))
              <$> detachers) w).
Proof.
  revert w. induction detachers as [|d l IH]; intros w.
  - cbn. by rewrite calls_nil.
  - cbn [forEach]. rewrite bind_emit, IH, calls_app. reflexivity.
Qed.

Lemma detachers_of_calls (c : nat) (entries : bag value) :
  (λ remove, EventDetach (NativeEvents.d_event remove)
               (NativeEvents.d_target remove) (NativeEvents.d_key remove))
  <$> detachers_of c entries
  = event_calls EventDetach (ViewObj c) entries.
Proof.
  unfold detachers_of, event_calls.
  induction entries as [|[key v] rest IH]; [done|]. cbn [flat_map].
  rewrite fmap_app, IH. f_equal. destruct v; try done. by destruct (event_isNative e).
Qed.

(** X16.  In the first listing, the wrapper unbinds its native events
    from the node it bound them to.  With a component mounted and no
    detacher pending, [_attachNativeEvents] binds every native event of the
    props, in their order, on the component's scrollable node (the component
    itself when it has none) and remembers one detacher for each; a later
    [_detachNativeEvents] unbinds those same events from that same node,
    whatever component the ref holds by then, and forgets the detachers, so
    that one more [_detachNativeEvents] makes no call.  Without a component,
    [_attachNativeEvents] throws before any call. *)
Theorem native_events_are_unbound_where_they_were_bound (s : NativeEvents.t)
    (w : world) :
  (∀ c c',
     createAnimatedComponent._component (NativeEvents.wrapper s) = ViewObj c →
     NativeEvents._eventDetachers s = [] →
     ∃ s',
       (NativeEvents._attachNativeEvents ;;
        NativeEvents.onWrapper (createAnimatedComponent._setComponentRef c') ;;
        NativeEvents._detachNativeEvents) s w
       = Returned tt s'
           (calls
              (event_calls EventAttach (ViewObj c)
                 (createAnimatedComponent.props (NativeEvents.wrapper s))
               ++ event_calls EventDetach (ViewObj c)
                    (createAnimatedComponent.props (NativeEvents.wrapper s)))
              w) ∧
       NativeEvents._eventDetachers s' = [] ∧
       createAnimatedComponent._component (NativeEvents.wrapper s') = c' ∧
       ∀ w', NativeEvents._detachNativeEvents s' w' = Returned tt s' w') ∧
  (truthy_view (createAnimatedComponent._component (NativeEvents.wrapper s)) = false →
   NativeEvents._attachNativeEvents s w
   = Thrown "TypeError: cannot read property getScrollableNode" s w).
Proof.
  split.
  - intros c c' Hc Hd.
    set (p := createAnimatedComponent.props (NativeEvents.wrapper s)).
    assert (NativeEvents._attachNativeEvents s w
            = Returned tt
                (NativeEvents.Make (NativeEvents.wrapper s) (detachers_of c p))
                (calls (event_calls EventAttach (ViewObj c) p) w)) as E1.
    { unfold NativeEvents._attachNativeEvents. rewrite bind_gets, Hc, bind_gets.
      rewrite attachNativeEvents_loop. by rewrite Hd. }
    eexists. split; [|split; [|split]].
    + erewrite bind_of_returned; [|exact E1].
      erewrite bind_of_returned; [|reflexivity].
      unfold NativeEvents._detachNativeEvents. rewrite bind_gets.
      cbn [NativeEvents._eventDetachers].
      erewrite bind_of_returned; [|apply detachNativeEvents_loop].
      rewrite detachers_of_calls, calls_app. reflexivity.
    + done.
    + done.
    + intros w'. reflexivity.
  - intros Hc. unfold NativeEvents._attachNativeEvents. rewrite bind_gets.
    by destruct (createAnimatedComponent._component (NativeEvents.wrapper s)).
Qed.

End WithHost.

(** ** A native instance holds native nodes *)

Section Advances.
Context {St : Type} (R : world → world → Prop).
Context (R_refl : ∀ w, R w w) (R_trans : ∀ a b c, R a b → R b c → R a c).

Lemma advances_reads {A} (m : M St A) : reads m → advances R m.
Proof using R_refl. intros Hm s w. destruct (Hm s w) as [_ ->]. apply R_refl. Qed.

Lemma advances_modify (f : St → St) : advances R (modify f).
Proof using R_refl. intros s w. apply R_refl. Qed.

Lemma advances_bind {A B} (m : M St A) (k : A → M St B) :
  advances R m → (∀ a, advances R (k a)) → advances R (bind m k).
Proof using R_trans.
  intros Hm Hk s w. unfold bind. specialize (Hm s w).
  destruct (m s w) as [a s1 w1|msg s1 w1]; simpl in Hm; [|done].
  eapply R_trans; [exact Hm|apply Hk].
Qed.

Lemma advances_forEach {X} (l : list X) (f : X → M St unit) :
  (∀ x, advances R (f x)) → advances R (forEach l f).
Proof using R_refl R_trans.
  intros Hf. induction l as [|x l IH]; simpl.
  - intros s w. apply R_refl.
  - apply advances_bind; [apply Hf|]. intros _. exact IH.
Qed.

Lemma advances_returned {A} (m : M St A) s w a s' w' :
  advances R m → m s w = Returned a s' w' → R w w'.
Proof using Type. intros Hm E. specialize (Hm s w). by rewrite E in Hm. Qed.

End Advances.

Lemma natives_grow_refl w : natives_grow w w.
Proof. by unfold natives_grow. Qed.

Lemma natives_grow_trans a b c : natives_grow a b → natives_grow b c → natives_grow a c.
Proof. unfold natives_grow. intros ? ?. by etrans. Qed.

Ltac grows_step :=
  match goal with
  | |- advances natives_grow (bind _ _) =>
      apply advances_bind; [apply natives_grow_trans| |intros ?]
  | |- advances natives_grow (ret _) => intros ? ?; unfold natives_grow; cbn; reflexivity
  | |- advances natives_grow (gets _) => intros ? ?; unfold natives_grow; cbn; reflexivity
  | |- advances natives_grow (modify _) => intros ? ?; unfold natives_grow; cbn; reflexivity
  | |- advances natives_grow (throw _) => intros ? ?; unfold natives_grow; cbn; reflexivity
  | |- advances natives_grow (invariant ?c _) =>
      destruct c; intros ? ?; unfold natives_grow; cbn; reflexivity
  | |- advances natives_grow new_object => intros ? ?; unfold natives_grow; cbn; reflexivity
  | |- advances natives_grow (node_isNative _) => intros ? ?; unfold natives_grow; cbn; reflexivity
  | |- advances natives_grow (emit _) => intros ? ?; unfold natives_grow; cbn; reflexivity
  | |- advances natives_grow (mark_native _) =>
      intros ? ?; unfold natives_grow; cbn; apply union_subseteq_r
  | |- advances natives_grow (forEach _ _) =>
      apply advances_forEach;
        [apply natives_grow_refl|apply natives_grow_trans|intros ?]
  | |- advances natives_grow (if ?b then _ else _) => destruct b
  | |- advances natives_grow (match ?x with _ => _ end) => destruct x
  end.

Section WithHost.
Context `{Host}.
Import AnimatedProps.

Lemma grows_scrollableView : advances natives_grow __scrollableView.
Proof. unfold __scrollableView. repeat grows_step. Qed.

Lemma grows_attachEventProp key value : advances natives_grow (__attachEventProp key value).
Proof. unfold __attachEventProp. repeat grows_step; apply grows_scrollableView. Qed.

Lemma grows_detachProp key value : advances natives_grow (__detachProp key value).
Proof.
  unfold __detachProp, __detachValueProp, __detachEventProp.
  repeat grows_step; apply grows_scrollableView.
Qed.

Lemma grows_attachProp key value : advances natives_grow (__attachProp key value).
Proof.
  unfold __attachProp, __attachValueProp, __makeValuePropNative, __attachEventProp.
  repeat grows_step; apply grows_scrollableView.
Qed.

Lemma grows_replaceProp key lastValue nextValue :
  advances natives_grow (__replaceProp key lastValue nextValue).
Proof.
  unfold __replaceProp.
  apply advances_bind; [apply natives_grow_trans|repeat grows_step|]. intros lastValue'.
  apply advances_bind; [apply natives_grow_trans|apply grows_attachProp|]. intros _.
  apply grows_detachProp.
Qed.

Lemma stays_native_refl a : stays_native a a.
Proof. split; [done|apply natives_grow_refl]. Qed.

Lemma stays_native_trans a b c : stays_native a b → stays_native b c → stays_native a c.
Proof.
  intros [N1 G1] [N2 G2]. split; [congruence|by eapply natives_grow_trans].
Qed.

Lemma stays_native_run {A} (m : M t A) s w a s' w' :
  writes_styleProp m → advances natives_grow m →
  m s w = Returned a s' w' → stays_native (s, w) (s', w').
Proof.
  intros Hw Hg E. split; simpl.
  - pose proof (writes_fields m s w Hw) as Hf. rewrite E in Hf. simpl in Hf. apply Hf.
  - by eapply advances_returned.
Qed.

(** On a native instance, a node that replaces a value is native when
    [__replaceProp] returns. *)
Lemma replaceProp_makes_native key l n s w s' w' :
  key ≠ "style" → __isNative s = true →
  __replaceProp key l (VNode n) s w = Returned tt s' w' →
  n ∈ native_nodes w'.
Proof.
  intros Hk Hn. unfold __replaceProp. rewrite bool_decide_eq_false_2 by done.
  rewrite bind_ret_l. unfold __attachProp, __attachValueProp.
  rewrite bool_decide_eq_false_2 by done. cbn [andb].
  rewrite !bind_assoc, bind_ret_l. cbv beta iota.
  rewrite !bind_assoc, bind_gets, bind_emit.
  unfold __makeValuePropNative at 1. rewrite !bind_assoc, bind_gets, Hn. cbn [negb].
  rewrite bool_decide_eq_false_2 by done. rewrite !bind_assoc, bind_ret_l.
  cbv beta iota. rewrite !bind_assoc, bind_emit.
  unfold bind at 1, mark_native at 1. intros E.
  assert (advances natives_grow (__attachEventProp key (VNode n) ;; __detachProp key l))
    as Hg.
  { apply advances_bind; [apply natives_grow_trans|apply grows_attachEventProp|].
    intros _. apply grows_detachProp. }
  eapply advances_returned in E; [|exact Hg].
  apply E. cbn. apply elem_of_union_l, elem_of_singleton. reflexivity.
Qed.

(** X17.  A native instance holds native nodes.  When [__makeNative]
    has returned, every node that the bag holds under a key other than
    [style] is native; and when that is so for a native instance,
    [updateProps] with a bag of distinct keys keeps it so when it returns:
    the instance is still native, the nodes that were carried over are
    still native, and the nodes that came in were made native before the
    update ended. *)
Theorem native_instance_holds_native_nodes (s : t) (w : world) s' w' :
  (__isNative s = false →
   ("style" ∈ keys (_props s) → is_Some (_styleProp s)) →
   __makeNative s w = Returned tt s' w' →
   __isNative s' = true ∧ nodes_native s' w') ∧
  (∀ nextProps,
     __isNative s = true → nodes_native s w →
     NoDup (keys nextProps) →
     updateProps nextProps s w = Returned tt s' w' →
     __isNative s' = true ∧ nodes_native s' w').
Proof.
  split.
  - intros Hn Hsp E. rewrite makeNative_start in E by done.
    destruct (gone_native_fields s) as (Hg & Hp & Hs & Hv & Hme).
    apply bind_returned in E as ([] & s1 & w1 & E1 & E2).
    unfold __makeValuePropsNative in E1. rewrite bind_gets, Hp in E1.
    rewrite makeValuePropsNative_loop in E1; [|done|by rewrite Hs].
    injection E1 as <- <-.
    apply connectView_returned in E2 as [-> Hnat].
    split; [done|]. intros key n Hin Hk. rewrite Hnat. rewrite Hp in Hin.
    apply elem_of_union_l, elem_of_list_to_set. by apply (animated_nodes_elem _ _ key).
  - intros nextProps Hn Hinv Hnd E. rewrite updateProps_general in E by done.
    set (ra := _reattachAll s) in *. set (last := _props s) in *.
    set (changed := List.filter _ (animatedKeys nextProps)) in E.
    apply bind_returned in E as ([] & s1 & w1 & E1 & E).
    apply bind_returned in E as ([] & s2 & w2 & E2 & E).
    rewrite !bind_modify in E. unfold modify in E. injection E as <- <-.
    assert (NoDup (animatedKeys nextProps)) as Hndk by by apply NoDup_animatedKeys.
    set (c := carried ra last (animatedKeys nextProps) nextProps).
    assert (keys c = keys nextProps) as Hkeys
      by (apply carried_keys; intros k; apply animatedKeys_keys).
    assert (∀ key l n s w s' w',
              __replaceProp key l n s w = Returned tt s' w' →
              stays_native (s, w) (s', w')) as Hstep1.
    { intros ???????. apply stays_native_run;
        [apply writes_replaceProp|apply grows_replaceProp]. }
    assert (∀ key l s w s' w',
              __detachProp key l s w = Returned tt s' w' →
              stays_native (s, w) (s', w')) as Hstep2.
    { intros ??????. apply stays_native_run;
        [apply writes_detachProp|apply grows_detachProp]. }
    pose proof (forEach_related
                  (λ key, __replaceProp key (prop last key) (prop nextProps key))
                  stays_native stays_native_refl stays_native_trans
                  (λ x, Hstep1 x _ _) _ _ _ _ _ E1) as [N1 G1].
    pose proof (forEach_related
                  (λ key, __detachProp key (prop last key))
                  stays_native stays_native_refl stays_native_trans
                  (λ x, Hstep2 x _) _ _ _ _ _ E2) as [N2 G2].
    simpl in N1, G1, N2, G2.
    split; [cbn; congruence|].
    intros key n Hin Hk. cbn [_props set_reattachAll set_props] in Hin. cbn.
    fold c in Hin.
    assert (prop c key = VNode n) as Hc.
    { unfold prop. rewrite (lookup_key_elem c key (VNode n)); [done| |done].
      by rewrite Hkeys. }
    assert (key ∈ animatedKeys nextProps) as Hanimated.
    { destruct (decide (key ∈ animatedKeys nextProps)) as [|Hnin]; [done|]. exfalso.
      unfold c in Hc. rewrite carried_prop_general in Hc by done.
      rewrite (bool_decide_eq_false_2 _ Hnin) in Hc. cbn [andb] in Hc.
      apply Hnin. unfold animatedKeys. apply elem_of_List_filter. split.
      - rewrite <- Hkeys. apply list_elem_of_fmap. by exists (key, VNode n).
      - rewrite Hc. cbn. by rewrite orb_true_r. }
    unfold c in Hc. rewrite carried_prop_general in Hc by done.
    rewrite bool_decide_eq_true_2 in Hc by done. cbn [andb] in Hc.
    destruct (ra || animatedDiff (prop last key) (prop nextProps key)) eqn:Hd;
      cbn [negb] in Hc.
    + assert (key ∈ changed) as Hch.
      { unfold changed. apply elem_of_List_filter. by split. }
      destruct (forEach_elem
                  (λ key, __replaceProp key (prop last key) (prop nextProps key))
                  stays_native stays_native_refl stays_native_trans
                  (λ x, Hstep1 x _ _) _ _ _ _ _ _ E1 Hch)
        as (sa & wa & sb & wb & [Na _] & Ex & [_ Gb]).
      simpl in Na, Gb. rewrite Hc in Ex.
      apply replaceProp_makes_native in Ex; [|done|congruence].
      apply G2, Gb, Ex.
    + apply G2, G1, (Hinv key); [|done].
      apply lookup_key_Some_elem. unfold prop in Hc.
      fold last. destruct (lookup_key last key) as [v|]; [|done]. simpl in Hc. by subst v.
Qed.

End WithHost.

(** ** A [style] key that comes in with an update *)

Lemma forEach_throws_at {St X} (f : X → M St unit) (before rest : list X) x s w msg :
  (∀ y, y ∈ before → total (f y) ∧ keeps (f y)) →
  (∀ w', f x s w' = Thrown msg s w') →
  ∃ w', forEach (before ++ x :: rest) f s w = Thrown msg s w'.
Proof.
  intros Hbefore Hx. rewrite forEach_app.
  assert (total (forEach before f)) as Ht.
  { apply total_forEach. intros y Hy. by apply Hbefore. }
  assert (keeps (forEach before f)) as Hk.
  { apply keeps_forEach. intros y Hy. by apply Hbefore. }
  destruct (Ht s w) as ([] & s1 & w1 & E). pose proof (Hk s w) as Hs.
  rewrite E in Hs. simpl in Hs. subst s1.
  erewrite bind_of_returned; [|exact E]. exists w1. cbn [forEach].
  by apply bind_of_thrown.
Qed.

Section WithHost.
Context `{Host}.
Import AnimatedProps.

(** X18.  A [style] key that an update replaces needs a composite to
    detach.  On an instance with no composite cached, [updateProps] with a
    bag of distinct keys whose [style] key is to be replaced (its value
    differs from the last one, or everything is reattached) throws
    'Expected style prop to detach'.  The instance is left as it was: it
    still holds the last bag, and the next bag is not stored. *)
Theorem updateProps_cannot_bring_in_a_new_style (nextProps : bag value) (s : t)
    (w : world) :
  NoDup (keys nextProps) →
  _styleProp s = None →
  "style" ∈ keys nextProps →
  _reattachAll s = true ∨
  animatedDiff (prop (_props s) "style") (prop nextProps "style") = true →
  ∃ w', updateProps nextProps s w = Thrown "Expected style prop to detach" s w'.
Proof.
  intros Hnd Hsp Hstyle Hdiff. rewrite updateProps_general by done.
  set (changed := List.filter _ (animatedKeys nextProps)).
  assert ("style" ∈ changed) as Hin.
  { unfold changed. apply elem_of_List_filter. split.
    - unfold animatedKeys. apply elem_of_List_filter. split; [done|].
      by rewrite bool_decide_eq_true_2.
    - destruct Hdiff as [-> | ->]; [done|apply orb_true_r]. }
  assert (NoDup changed) as Hndc.
  { unfold changed. apply NoDup_ListNoDup, List.NoDup_filter, NoDup_ListNoDup.
    by apply NoDup_animatedKeys. }
  apply list_elem_of_split in Hin as (before & rest & Hsplit).
  rewrite Hsplit in Hndc |- *.
  apply NoDup_app in Hndc as (_ & Hbefore & _).
  edestruct (forEach_throws_at
               (λ key, __replaceProp key (prop (_props s) key) (prop nextProps key))
               before rest "style" s w) as [w' E].
  - intros key Hkey. assert (key ≠ "style") as Hne.
    { intros ->. apply (Hbefore _ Hkey). left. }
    split; [by apply total_replaceProp|by apply keeps_replaceProp].
  - intros w'. by apply missing_composite_is_fatal.
  - exists w'. by apply bind_of_thrown.
Qed.

(** ** Unmounting in the first listing *)

(** X19.  [componentWillUnmount] of the first listing detaches the
    instance first and runs the wrapper's own detachers after it.  With no
    instance it only runs the detachers, each once and in the order they
    were pushed, and forgets them.  When detaching the instance throws, the
    detachers are not run: the error leaves them pending, and the events
    they would unbind stay bound. *)
Theorem componentWillUnmount_detaches_the_instance_first (s : NativeEvents.t)
    (w : world) :
  (createAnimatedComponent._propsAnimated (NativeEvents.wrapper s) = None →
   NativeEvents.componentWillUnmount s w
   = Returned tt (NativeEvents.set_eventDetachers [] s)
       (calls ((λ remove, EventDetach (NativeEvents.d_event remove)
                            (NativeEvents.d_target remove) (NativeEvents.d_key remove))
               <$> NativeEvents._eventDetachers s) w)) ∧
  (∀ inst inst' w',
     createAnimatedComponent._propsAnimated (NativeEvents.wrapper s) = Some inst →
     __detach inst w = Returned tt inst' w' →
     NativeEvents.componentWillUnmount s w
     = Returned tt
         (NativeEvents.Make
            (createAnimatedComponent.set_propsAnimated (Some inst')
               (NativeEvents.wrapper s)) [])
         (calls ((λ remove, EventDetach (NativeEvents.d_event remove)
                              (NativeEvents.d_target remove) (NativeEvents.d_key remove))
                 <$> NativeEvents._eventDetachers s) w')) ∧
  (∀ inst msg inst' w',
     createAnimatedComponent._propsAnimated (NativeEvents.wrapper s) = Some inst →
     __detach inst w = Thrown msg inst' w' →
     NativeEvents.componentWillUnmount s w
     = Thrown msg
         (NativeEvents.Make
            (createAnimatedComponent.set_propsAnimated (Some inst')
               (NativeEvents.wrapper s))
            (NativeEvents._eventDetachers s))
         w').
Proof.
  split; [|split].
  - intros Hp. unfold NativeEvents.componentWillUnmount. rewrite bind_gets, Hp, bind_ret_l.
    unfold NativeEvents._detachNativeEvents. rewrite bind_gets.
    erewrite bind_of_returned; [|apply detachNativeEvents_loop]. reflexivity.
  - intros inst inst' w' Hp E. unfold NativeEvents.componentWillUnmount.
    rewrite bind_gets, Hp.
    erewrite bind_of_returned; last first.
    { unfold NativeEvents.onWrapper, createAnimatedComponent.onProps. by rewrite Hp, E. }
    unfold NativeEvents._detachNativeEvents. rewrite bind_gets.
    erewrite bind_of_returned; [|apply detachNativeEvents_loop]. reflexivity.
  - intros inst msg inst' w' Hp E. unfold NativeEvents.componentWillUnmount.
    rewrite bind_gets, Hp. apply bind_of_thrown.
    unfold NativeEvents.onWrapper, createAnimatedComponent.onProps. by rewrite Hp, E.
Qed.

End WithHost.

(** ** Bound events and the wrapper's comparison *)

Lemma keys_cache_attachedEvents cached (props : bag value) :
  keys (cache_attachedEvents cached props) = keys props.
Proof.
  unfold keys, cache_attachedEvents. rewrite <- list_fmap_compose.
  apply list_fmap_ext. by intros ? [k v].
Qed.

Lemma prop_cache_attachedEvents cached (props : bag value) key :
  prop (cache_attachedEvents cached props) key
  = cache_attachedEvent (cached key) (prop props key).
Proof.
  unfold prop, cache_attachedEvents.
  induction props as [|[k v] rest IH]; [done|]. cbn [fmap list_fmap lookup_key].
  destruct (decide (k = key)) as [->|Hne]; [done|exact IH].
Qed.

Section WithHost.
Context `{Host}.

Lemma animatedEventKeys_cache cached (props : bag value) :
  createAnimatedComponent.animatedEventKeys (cache_attachedEvents cached props)
  = createAnimatedComponent.animatedEventKeys props.
Proof.
  unfold createAnimatedComponent.animatedEventKeys.
  rewrite keys_cache_attachedEvents. apply List.filter_ext. intros key.
  rewrite prop_cache_attachedEvents. by destruct (prop props key).
Qed.

Lemma animatedEventDiff_cache a b ca cb :
  createAnimatedComponent.animatedEventDiff
    (cache_attachedEvent ca a) (cache_attachedEvent cb b)
  = createAnimatedComponent.animatedEventDiff a b.
Proof.
  unfold createAnimatedComponent.animatedEventDiff, without_attachedEvent.
  destruct a as [p|n|n|e], b as [q|m|m|f]; simpl; by rewrite ?filter_bag_set_out.
Qed.

(** X20.  The wrapper's comparison of event props does not see which
    events are bound.  Whatever bindings have been stored in the
    [_attachedEvent] of the events of either bag, [animatedEventPropsChanged]
    gives the answer it gives for the bags without them: binding or
    unbinding an event never makes the props look changed. *)
Theorem animatedEventPropsChanged_ignores_bindings (lastProps nextProps : bag value)
    (lastCached nextCached : string → plain) :
  createAnimatedComponent.animatedEventPropsChanged
    (cache_attachedEvents lastCached lastProps)
    (cache_attachedEvents nextCached nextProps)
  = createAnimatedComponent.animatedEventPropsChanged lastProps nextProps.
Proof.
  unfold createAnimatedComponent.animatedEventPropsChanged,
    createAnimatedComponent.animatedPropsChanged.
  rewrite !animatedEventKeys_cache.
  destruct (negb _); [|done].
  induction (createAnimatedComponent.animatedEventKeys lastProps) as [|key l IH];
    [done|].
  cbn [createAnimatedComponent.first_diff].
  rewrite !prop_cache_attachedEvents, animatedEventDiff_cache, IH. done.
Qed.

End WithHost.

(** ** The calls of an update, one by one *)

Lemma flat_map_ext_elem {X Y} (f g : X → list Y) (l : list X) :
  (∀ x, x ∈ l → f x = g x) → flat_map f l = flat_map g l.
Proof.
  induction l as [|x l IH]; intros Hfg; [done|]. cbn [flat_map].
  rewrite Hfg by left. rewrite IH; [done|]. intros y Hy. apply Hfg. by right.
Qed.

Section WithHost.
Context `{Host}.
Import AnimatedProps.

Lemma trace_calls d w : trace (calls d w) = trace w ++ d.
Proof. reflexivity. Qed.

Lemma next_object_calls d w : next_object (calls d w) = next_object w.
Proof. reflexivity. Qed.

Lemma subscribe_calls_one me fresh key v :
  subscribe_calls me fresh [(key, v)]
  = if through_composite key v
    then [NewAnimatedStyle fresh v; AddChild fresh me]
    else match v with
         | VNode n | VStyle n => [AddChild n me]
         | _ => []
         end.
Proof. unfold subscribe_calls. cbn [flat_map]. by rewrite app_nil_r. Qed.

Lemma unsubscribe_calls_one me sp key v :
  unsubscribe_calls me sp [(key, v)]
  = if through_composite key v
    then match sp with Some composite => [RemoveChild composite me] | None => [] end
    else match v with
         | VNode n | VStyle n => [RemoveChild n me]
         | _ => []
         end.
Proof. unfold unsubscribe_calls. cbn [flat_map]. by rewrite app_nil_r. Qed.

Lemma animated_nodes_one sp key v :
  animated_nodes sp [(key, v)]
  = if bool_decide (key = "style")
    then match sp with Some composite => [(key, composite)] | None => [] end
    else match v with
         | VNode n | VStyle n => [(key, n)]
         | _ => []
         end.
Proof. unfold animated_nodes. cbn [flat_map]. by rewrite app_nil_r. Qed.

Lemma through_composite_plain key v : key ≠ "style" → through_composite key v = false.
Proof. intros Hk. unfold through_composite. by rewrite bool_decide_eq_false_2. Qed.

Lemma through_composite_AnimatedStyle key composite :
  through_composite key (VStyle composite) = false.
Proof. unfold through_composite. cbn. apply andb_false_r. Qed.

(** Away from the [style] key neither the new composite nor the cached one
    matters. *)
Lemma attach_calls_plain isNative view me fresh fresh' key v :
  key ≠ "style" →
  attach_calls isNative view me fresh key v = attach_calls isNative view me fresh' key v.
Proof.
  intros Hk. unfold attach_calls.
  rewrite !subscribe_calls_one, !animated_nodes_one, through_composite_plain by done.
  by rewrite bool_decide_eq_false_2.
Qed.

Lemma detach_calls_plain view me sp sp' key v :
  key ≠ "style" → detach_calls view me sp key v = detach_calls view me sp' key v.
Proof.
  intros Hk. unfold detach_calls.
  by rewrite !unsubscribe_calls_one, through_composite_plain.
Qed.

Lemma replace_calls_plain s sp fresh fresh' key l n :
  key ≠ "style" →
  replace_calls (set_styleProp sp s) fresh' key l n = replace_calls s fresh key l n.
Proof.
  intros Hk. unfold replace_calls, released_calls.
  rewrite bool_decide_eq_false_2 by done.
  rewrite (attach_calls_plain _ _ _ fresh' fresh) by done.
  rewrite (detach_calls_plain _ _ _ (_styleProp s)) by done.
  by destruct s.
Qed.

(** Making one value native, on any instance. *)
Lemma makeValuePropNative_calls key value s w :
  (__isNative s = true → key = "style" → is_Some (_styleProp s)) →
  ∃ w', __makeValuePropNative key value s w = Returned tt s w' ∧
        trace w'
        = trace w ++ (if __isNative s
                      then NodeMakeNative <$> (animated_nodes (_styleProp s) [(key, value)]).*2
                      else []) ∧
        next_object w' = next_object w.
Proof.
  intros Hsp. destruct (__isNative s) eqn:Hn.
  - eexists. split; [apply makeValuePropNative_run; [done|by apply Hsp]|]. done.
  - exists w. unfold __makeValuePropNative. rewrite bind_gets, Hn. cbn.
    by rewrite app_nil_r.
Qed.

(** Replacing a key other than [style]. *)
Lemma replaceProp_plain_calls key l n s w :
  key ≠ "style" →
  ∃ w', __replaceProp key l n s w = Returned tt s w' ∧
        trace w' = trace w ++ replace_calls s (next_object w) key l n ∧
        next_object w' = next_object w.
Proof.
  intros Hk. unfold __replaceProp. rewrite bool_decide_eq_false_2 by done.
  rewrite bind_ret_l. unfold __attachProp, __detachProp. rewrite !bind_assoc.
  unfold bind at 1. rewrite attachValueProp_run by done.
  rewrite bool_decide_eq_false_2 by done. cbn [andb].
  destruct (makeValuePropNative_calls key n s
              (calls match n with
                     | VNode m | VStyle m => [AddChild m (self s)]
                     | _ => []
                     end w)) as (w2 & E2 & T2 & N2); [done|].
  rewrite ?bind_assoc. erewrite bind_of_returned; [|exact E2].
  erewrite bind_of_returned; [|apply attachEventProp_calls].
  unfold bind at 1. rewrite detachValueProp_run; last first.
  { by rewrite through_composite_plain. }
  rewrite through_composite_plain by done.
  rewrite detachEventProp_calls. eexists. split; [reflexivity|]. split.
  - rewrite !trace_calls, T2, trace_calls.
    unfold replace_calls, released_calls, attach_calls, detach_calls.
    rewrite bool_decide_eq_false_2 by done.
    rewrite subscribe_calls_one, unsubscribe_calls_one, !through_composite_plain by done.
    rewrite (animated_nodes_no_style (Some (next_object w)) (_styleProp s) [(key, n)]);
      last first.
    { unfold keys. cbn. apply not_elem_of_cons. split; [done|apply not_elem_of_nil]. }
    by rewrite <- !app_assoc.
  - rewrite !next_object_calls. exact N2.
Qed.

(** Replacing the [style] key: what was bound is the cached composite. *)
Lemma replaceProp_style_calls l n s w :
  is_Some (_styleProp s) →
  (__isNative s = true → instanceof_AnimatedStyle n = false) →
  ∃ w', __replaceProp "style" l n s w
        = Returned tt
            (set_styleProp (if through_composite "style" n
                            then Some (next_object w) else None) s) w' ∧
        trace w' = trace w ++ replace_calls s (next_object w) "style" l n.
Proof.
  intros [composite Hsp] Hnative. unfold __replaceProp.
  rewrite bool_decide_eq_true_2 by done.
  rewrite !bind_assoc, bind_gets, Hsp, bind_assoc, bind_modify, bind_ret_l.
  set (s0 := set_styleProp None s).
  unfold __attachProp, __detachProp. rewrite !bind_assoc.
  unfold bind at 1. rewrite attachValueProp_run by done.
  fold (through_composite "style" n).
  assert (unfold_replace :
            replace_calls s (next_object w) "style" l n
            = subscribe_calls (self s) (next_object w) [("style", n)]
              ++ (if __isNative s then [NodeMakeNative (next_object w)] else [])
              ++ event_calls EventAttach (_view s) [("style", n)]
              ++ [RemoveChild composite (self s)]).
  { unfold replace_calls, released_calls, attach_calls.
    rewrite bool_decide_eq_true_2, Hsp, animated_nodes_one by done.
    rewrite bool_decide_eq_true_2 by done. cbn [fmap list_fmap snd].
    by rewrite <- !app_assoc. }
  rewrite unfold_replace, subscribe_calls_one. clear unfold_replace.
  destruct (through_composite "style" n) eqn:Hc.
  - set (s1 := set_styleProp (Some (next_object w)) s0).
    set (w1 := World _ _ _).
    destruct (makeValuePropNative_calls "style" n s1 w1) as (w2 & E2 & T2 & N2).
    { intros _ _. by eexists. }
    rewrite ?bind_assoc. erewrite bind_of_returned; [|exact E2].
    erewrite bind_of_returned; [|apply attachEventProp_calls].
    unfold bind at 1. rewrite detachValueProp_run by done.
    rewrite through_composite_AnimatedStyle, detachEventProp_calls.
    eexists. split.
    + f_equal; unfold s1, s0; by destruct s.
    + rewrite !trace_calls, T2, unsubscribe_calls_one, through_composite_AnimatedStyle.
      rewrite animated_nodes_one, bool_decide_eq_true_2 by done.
      replace (event_calls EventDetach (_view s1) [("style", VStyle composite)])
        with (@nil effect) by (unfold event_calls; by destruct (_view s1)).
      replace (__isNative s1) with (__isNative s) by (by destruct s).
      replace (_view s1) with (_view s) by (by destruct s).
      replace (self s1) with (self s) by (by destruct s).
      replace (self s0) with (self s) by (by destruct s).
      replace (_styleProp s1) with (Some (next_object w)) by (by destruct s).
      unfold w1. cbn [trace fmap list_fmap snd]. rewrite app_nil_r.
      replace (self s0) with (self s) by (by destruct s).
      by rewrite <- !app_assoc.
  - assert (instanceof_AnimatedStyle n = true) as Hstyle.
    { unfold through_composite in Hc. rewrite bool_decide_eq_true_2 in Hc by done.
      cbn in Hc. by apply negb_false_iff. }
    assert (__isNative s = false) as Hn.
    { destruct (__isNative s); [|done]. rewrite Hnative in Hstyle; done. }
    set (w1 := calls _ w).
    destruct (makeValuePropNative_calls "style" n s0 w1) as (w2 & E2 & T2 & N2).
    { unfold s0. cbn. by rewrite Hn. }
    rewrite ?bind_assoc. erewrite bind_of_returned; [|exact E2].
    erewrite bind_of_returned; [|apply attachEventProp_calls].
    unfold bind at 1. rewrite detachValueProp_run by done.
    rewrite through_composite_AnimatedStyle, detachEventProp_calls.
    eexists. split.
    + f_equal; unfold s0; by destruct s.
    + rewrite !trace_calls, T2, unsubscribe_calls_one, through_composite_AnimatedStyle.
      replace (event_calls EventDetach (_view s0) [("style", VStyle composite)])
        with (@nil effect) by (unfold event_calls; by destruct (_view s0)).
      replace (__isNative s0) with (__isNative s) by (by destruct s).
      replace (_view s0) with (_view s) by (by destruct s).
      replace (self s0) with (self s) by (by destruct s).
      rewrite Hn. unfold w1. rewrite trace_calls.
      replace (self s0) with (self s) by (by destruct s).
      rewrite !app_nil_r. by rewrite <- !app_assoc.
Qed.

(** Detaching one key. *)
Lemma detachProp_calls key l s w :
  (through_composite key l = true → is_Some (_styleProp s)) →
  __detachProp key l s w
  = Returned tt
      (if through_composite key l then set_styleProp None s else s)
      (calls (detach_calls (_view s) (self s) (_styleProp s) key l) w).
Proof.
  intros Hsp. unfold __detachProp.
  erewrite bind_of_returned; [|by apply detachValueProp_run].
  rewrite detachEventProp_calls. unfold detach_calls, calls. cbn [trace native_nodes next_object].
  replace (_view (if through_composite key l then set_styleProp None s else s))
    with (_view s) by (destruct (through_composite key l); by destruct s).
  by rewrite <- !app_assoc.
Qed.

(** The loop over the replaced keys: every key is attached anew and its old
    binding released, one key after the other. *)
Lemma replace_loop_calls (replaced : list string) (f g : string → value) s w :
  NoDup replaced →
  ("style" ∈ replaced →
   is_Some (_styleProp s) ∧
   (__isNative s = true → instanceof_AnimatedStyle (g "style") = false)) →
  ∃ sp' w',
    forEach replaced (λ key, __replaceProp key (f key) (g key)) s w
    = Returned tt (set_styleProp sp' s) w' ∧
    trace w'
    = trace w ++ flat_map (λ key, replace_calls s (next_object w) key (f key) (g key))
                          replaced ∧
    ("style" ∉ replaced → sp' = _styleProp s ∧ next_object w' = next_object w).
Proof.
  revert s w. induction replaced as [|key rest IH]; intros s w Hnd Hstyle.
  - exists (_styleProp s), w. split; [by destruct s|]. split; [by rewrite app_nil_r|done].
  - apply NoDup_cons in Hnd as [Hkey Hnd]. cbn [forEach flat_map].
    destruct (decide (key = "style")) as [->|Hk].
    + destruct Hstyle as [Hsp Hnative]; [left|].
      destruct (replaceProp_style_calls (f "style") (g "style") s w Hsp Hnative)
        as (w1 & E1 & T1).
      erewrite bind_of_returned; [|exact E1].
      set (s1 := set_styleProp _ s) in *.
      destruct (IH s1 w1 Hnd) as (sp' & w' & E & T & Hsame); [done|].
      destruct (Hsame Hkey) as [-> _].
      exists (_styleProp s1), w'. split.
      { rewrite E. f_equal; unfold s1; by destruct s. }
      split; [|intros Hout; exfalso; apply Hout; left].
      rewrite T, T1, <- app_assoc. do 2 f_equal.
      apply flat_map_ext_elem. intros key Hin. unfold s1.
      apply replace_calls_plain. by intros ->.
    + destruct (replaceProp_plain_calls key (f key) (g key) s w Hk) as (w1 & E1 & T1 & N1).
      erewrite bind_of_returned; [|exact E1].
      destruct (IH s w1 Hnd) as (sp' & w' & E & T & Hsame).
      { intros Hin. apply Hstyle. by right. }
      exists sp', w'. split; [done|]. split.
      * by rewrite T, T1, N1, <- app_assoc.
      * intros Hout. apply not_elem_of_cons in Hout as [_ Hout].
        destruct (Hsame Hout) as [-> ->]. done.
Qed.

(** The loop over the removed keys: every key is detached, and nothing
    else. *)
Lemma detach_loop_calls (removed : list string) (f : string → value) s w :
  NoDup removed →
  (∀ key, key ∈ removed → through_composite key (f key) = true →
          is_Some (_styleProp s)) →
  ∃ sp',
    forEach removed (λ key, __detachProp key (f key)) s w
    = Returned tt (set_styleProp sp' s)
        (calls (flat_map (λ key, detach_calls (_view s) (self s) (_styleProp s) key (f key))
                         removed) w).
Proof.
  revert s w. induction removed as [|key rest IH]; intros s w Hnd Hsp.
  - exists (_styleProp s). cbn. unfold ret, calls. rewrite app_nil_r.
    f_equal; [by destruct s|by destruct w].
  - apply NoDup_cons in Hnd as [Hkey Hnd]. cbn [forEach flat_map].
    erewrite bind_of_returned; [|apply detachProp_calls; apply Hsp; left].
    destruct (through_composite key (f key)) eqn:Hc.
    + assert (key = "style") as ->.
      { unfold through_composite in Hc. apply andb_true_iff in Hc as [Hc _].
        by apply bool_decide_eq_true in Hc. }
      destruct (IH (set_styleProp None s)
                  (calls (detach_calls (_view s) (self s) (_styleProp s) "style" (f "style")) w)
                  Hnd) as (sp' & E).
      { intros key Hin Hc'. exfalso. apply Hkey.
        unfold through_composite in Hc'. apply andb_true_iff in Hc' as [Hc' _].
        apply bool_decide_eq_true in Hc'. by subst. }
      exists sp'. rewrite E, calls_app. f_equal. f_equal. f_equal.
      apply flat_map_ext_elem. intros key Hin.
      replace (_view (set_styleProp None s)) with (_view s) by (by destruct s).
      replace (self (set_styleProp None s)) with (self s) by (by destruct s).
      apply detach_calls_plain. by intros ->.
    + destruct (IH s (calls (detach_calls (_view s) (self s) (_styleProp s) key (f key)) w)
                  Hnd) as (sp' & E).
      { intros k Hin. apply Hsp. by right. }
      exists sp'. by rewrite E, calls_app.
Qed.

(** ** The calls of [updateProps] *)

(** An update returns whenever the cached composite is there where the
    code asserts it, and then makes exactly the calls of [update_calls]:
    each replaced key is attached anew and its old binding released, in the
    order of the next bag, and then each removed key is detached. *)
Lemma updateProps_calls nextProps s w :
  NoDup (keys nextProps) →
  NoDup (keys (_props s)) →
  style_ready s
    (List.filter
       (λ key, _reattachAll s || animatedDiff (prop (_props s) key) (prop nextProps key))
       (animatedKeys nextProps))
    nextProps →
  ∃ sp' w',
    updateProps nextProps s w
    = Returned tt
        (set_reattachAll false
           (set_props (carried (_reattachAll s) (_props s) (animatedKeys nextProps) nextProps)
              (set_styleProp sp' s))) w' ∧
    trace w'
    = trace w ++ update_calls s (next_object w)
                   (List.filter
                      (λ key, _reattachAll s
                              || animatedDiff (prop (_props s) key) (prop nextProps key))
                      (animatedKeys nextProps))
                   nextProps.
Proof.
  intros Hnd Hndl [Hreplaced Hgone]. rewrite updateProps_general by done.
  set (replaced := List.filter _ (animatedKeys nextProps)) in *.
  assert (∀ key, key ∈ replaced → key ∈ animatedKeys nextProps) as Hsub.
  { intros key Hin. unfold replaced in Hin. by apply elem_of_List_filter in Hin as [? _]. }
  destruct (replace_loop_calls replaced (prop (_props s)) (prop nextProps) s w)
    as (sp1 & w1 & E1 & T1 & Hsame).
  { apply NoDup_ListNoDup, List.NoDup_filter, NoDup_ListNoDup. by apply NoDup_animatedKeys. }
  { exact Hreplaced. }
  erewrite bind_of_returned; [|exact E1].
  assert (∀ key, key ∈ removedKeys (_props s) nextProps →
                 through_composite key (prop (_props s) key) = true →
                 ("style" ∉ replaced) ∧ is_Some (_styleProp s)) as Hremoved.
  { intros key Hin Hc.
    assert (key = "style") as ->.
    { unfold through_composite in Hc. apply andb_true_iff in Hc as [Hc _].
      by apply bool_decide_eq_true in Hc. }
    unfold removedKeys in Hin. apply elem_of_List_filter in Hin as [Hin Hout].
    apply negb_true_iff, bool_decide_eq_false in Hout. split.
    - intros Hr. apply Hout. by apply Hsub.
    - apply Hgone.
      + intros Hk. by apply Hout, style_animated.
      + rewrite needs_composite_style. apply style_animated in Hin.
        rewrite bool_decide_eq_true_2 by done.
        unfold through_composite in Hc. by apply andb_true_iff in Hc as [_ Hc]. }
  destruct (detach_loop_calls (removedKeys (_props s) nextProps) (prop (_props s))
              (set_styleProp sp1 s) w1) as (sp2 & E2).
  { apply NoDup_ListNoDup, List.NoDup_filter, NoDup_ListNoDup. by apply NoDup_animatedKeys. }
  { intros key Hin Hc. destruct (Hremoved key Hin Hc) as [Hout Hsp].
    destruct (Hsame Hout) as [-> _].
    replace (_styleProp (set_styleProp (_styleProp s) s)) with (_styleProp s)
      by (by destruct s).
    exact Hsp. }
  erewrite bind_of_returned; [|exact E2].
  rewrite bind_modify. unfold modify. eexists sp2, _. split.
  { f_equal; by destruct s. }
  rewrite trace_calls, T1. unfold update_calls. rewrite <- app_assoc. do 2 f_equal.
  apply flat_map_ext_elem. intros key Hin.
  replace (_view (set_styleProp sp1 s)) with (_view s) by (by destruct s).
  replace (self (set_styleProp sp1 s)) with (self s) by (by destruct s).
  replace (_styleProp (set_styleProp sp1 s)) with sp1 by (by destruct s).
  destruct (decide (key = "style")) as [->|Hk]; [|by apply detach_calls_plain].
  destruct (through_composite "style" (prop (_props s) "style")) eqn:Hc.
  - destruct (Hremoved _ Hin Hc) as [Hout _]. by destruct (Hsame Hout) as [-> _].
  - unfold detach_calls. by rewrite !unsubscribe_calls_one, Hc.
Qed.

(** ** When an update returns *)

Lemma replaceProp_style_returned l n s w s' w' :
  __replaceProp "style" l n s w = Returned tt s' w' →
  is_Some (_styleProp s) ∧
  (__isNative s = true → instanceof_AnimatedStyle n = false).
Proof.
  intros E. destruct (_styleProp s) as [composite|] eqn:Hsp; last first.
  { rewrite (proj1 (missing_composite_is_fatal s w Hsp)) in E. discriminate E. }
  split; [by eexists|]. intros Hn.
  destruct (instanceof_AnimatedStyle n) eqn:Hi; [exfalso|done].
  unfold __replaceProp in E. rewrite bool_decide_eq_true_2 in E by done.
  rewrite !bind_assoc, bind_gets, Hsp, bind_assoc, bind_modify, bind_ret_l in E.
  unfold __attachProp in E. rewrite !bind_assoc in E.
  unfold bind at 1 in E. rewrite attachValueProp_run in E by done.
  rewrite Hi in E. cbn [negb andb] in E. rewrite andb_false_r in E.
  rewrite ?bind_assoc in E.
  erewrite bind_of_thrown in E; [discriminate E|].
  by apply missing_composite_is_fatal.
Qed.

Lemma replace_loop_returned (replaced : list string) (f g : string → value) s w s' w' :
  forEach replaced (λ key, __replaceProp key (f key) (g key)) s w = Returned tt s' w' →
  "style" ∈ replaced →
  is_Some (_styleProp s) ∧
  (__isNative s = true → instanceof_AnimatedStyle (g "style") = false).
Proof.
  revert s w. induction replaced as [|key rest IH]; intros s w E Hin.
  - by apply elem_of_nil in Hin.
  - cbn [forEach] in E. apply bind_returned in E as ([] & s1 & w1 & E1 & E2).
    destruct (decide (key = "style")) as [->|Hk].
    + by eapply replaceProp_style_returned.
    + destruct (replaceProp_plain_calls key (f key) (g key) s w Hk) as (w2 & E3 & _).
      rewrite E3 in E1. injection E1 as <- _.
      apply elem_of_cons in Hin as [Hin|Hin]; [done|]. by eapply IH.
Qed.

Lemma detach_loop_returned (removed : list string) (f : string → value) s w s' w' :
  NoDup removed →
  forEach removed (λ key, __detachProp key (f key)) s w = Returned tt s' w' →
  ∀ key, key ∈ removed → through_composite key (f key) = true → is_Some (_styleProp s).
Proof.
  revert s w. induction removed as [|k rest IH]; intros s w Hnd E key Hin Hc.
  - by apply elem_of_nil in Hin.
  - apply NoDup_cons in Hnd as [Hk Hnd].
    cbn [forEach] in E. apply bind_returned in E as ([] & s1 & w1 & E1 & E2).
    assert (key = "style") as ->.
    { unfold through_composite in Hc. apply andb_true_iff in Hc as [Hc _].
      by apply bool_decide_eq_true in Hc. }
    apply elem_of_cons in Hin as [<-|Hin].
    + destruct (_styleProp s) as [composite|] eqn:Hsp; [by eexists|].
      unfold __detachProp in E1.
      erewrite bind_of_thrown in E1; [discriminate E1|].
      by apply detachValueProp_missing.
    + assert (k ≠ "style") as Hne by (by intros ->).
      rewrite detachProp_calls in E1 by (by rewrite through_composite_plain).
      rewrite through_composite_plain in E1 by done. injection E1 as <- _.
      by eapply IH.
Qed.

(** An update of bags of distinct keys that returned found the style
    composite where it asserts it. *)
Lemma updateProps_returned_ready nextProps s w s' w' :
  NoDup (keys nextProps) →
  NoDup (keys (_props s)) →
  updateProps nextProps s w = Returned tt s' w' →
  style_ready s
    (List.filter
       (λ key, _reattachAll s || animatedDiff (prop (_props s) key) (prop nextProps key))
       (animatedKeys nextProps))
    nextProps.
Proof.
  intros Hnd Hndl E. rewrite updateProps_general in E by done.
  set (replaced := List.filter _ (animatedKeys nextProps)) in *.
  apply bind_returned in E as ([] & sa & wa & Ea & E).
  apply bind_returned in E as ([] & sb & wb & Eb & _).
  split; [by eapply replace_loop_returned|].
  intros Hout Hneeds.
  rewrite needs_composite_style in Hneeds. apply andb_true_iff in Hneeds as [Hin Hplain].
  apply bool_decide_eq_true in Hin.
  assert ("style" ∉ replaced) as Hnot.
  { intros Hr. apply Hout. apply style_animated.
    unfold replaced in Hr. by apply elem_of_List_filter in Hr as [? _]. }
  destruct (replace_loop_calls replaced (prop (_props s)) (prop nextProps) s w)
    as (sp1 & w1 & E1 & _ & Hsame).
  { apply NoDup_ListNoDup, List.NoDup_filter, NoDup_ListNoDup. by apply NoDup_animatedKeys. }
  { intros Hr. by destruct Hnot. }
  destruct (Hsame Hnot) as [-> _]. rewrite E1 in Ea. injection Ea as <- _.
  replace (_styleProp s) with (_styleProp (set_styleProp (_styleProp s) s))
    by (by destruct s).
  assert (NoDup (removedKeys (_props s) nextProps)) as Hndr.
  { apply NoDup_ListNoDup, List.NoDup_filter, NoDup_ListNoDup. by apply NoDup_animatedKeys. }
  eapply (detach_loop_returned _ _ _ _ _ _ Hndr Eb "style").
  - unfold removedKeys. apply elem_of_List_filter. split; [by apply style_animated|].
    apply negb_true_iff, bool_decide_eq_false. intros Hk. by apply Hout, style_animated.
  - unfold through_composite. by rewrite bool_decide_eq_true_2.
Qed.

End WithHost.

(** ** The calls of the wrapper of the first listing *)

Section Wrapper.
Context `{Host}.

(** A wholesale replacement: the new instance subscribes to every value of
    the next bag, and then the old instance lets go of everything it held. *)
Lemma attachProps_wholesale_calls (c : createAnimatedComponent.t)
    (old : AnimatedProps.t) (nextProps : bag value) (force : option bool) w :
  createAnimatedComponent._propsAnimated c = Some old →
  default (negb (bool_decide (is_Some (createAnimatedComponent._propsAnimated c)))) force
  || createAnimatedComponent.truthy_changed
       (createAnimatedComponent.animatedValuePropsChanged
          (createAnimatedComponent.props c) nextProps) = true →
  NoDup (keys nextProps) →
  NoDup (keys (AnimatedProps._props old)) →
  (needs_composite (AnimatedProps._props old) = true →
   is_Some (AnimatedProps._styleProp old)) →
  located (AnimatedProps.__isNative old) (AnimatedProps._view old) →
  ∃ created w',
    createAnimatedComponent._attachProps nextProps force c w
    = Returned tt (createAnimatedComponent.set_propsAnimated (Some created) c) w' ∧
    AnimatedProps._props created = nextProps ∧
    AnimatedProps.self created = next_object w ∧
    AnimatedProps._view created = ViewUndefined ∧
    AnimatedProps.__isNative created = false ∧
    trace w'
    = trace w ++ instance_attach_calls (next_object w) nextProps
              ++ instance_detach_calls old.
Proof.
  intros Hold Hforce Hnd Hndo Hsp Hloc.
  unfold createAnimatedComponent._attachProps. rewrite !bind_gets. cbv zeta.
  rewrite Hforce, Hold.
  unfold bind at 1. unfold createAnimatedComponent.new_AnimatedProps.
  rewrite constructor_run by done. rewrite bind_modify.
  unfold createAnimatedComponent.onObject. rewrite detach_run by done.
  eexists _, _. split; [reflexivity|]. do 4 (split; [reflexivity|]).
  rewrite trace_calls. cbn [trace]. unfold instance_attach_calls, instance_detach_calls.
  by rewrite <- !app_assoc.
Qed.

(** After an update with the same component, [componentDidUpdate] runs
    every pending detacher and binds every native event of the props again
    when the event props changed, and does nothing otherwise. *)
Lemma componentDidUpdate_calls (prevProps : bag value) (s : NativeEvents.t) w c :
  createAnimatedComponent._component (NativeEvents.wrapper s) = ViewObj c →
  createAnimatedComponent._prevComponent (NativeEvents.wrapper s) = ViewObj c →
  NativeEvents.componentDidUpdate prevProps s w
  = if createAnimatedComponent.truthy_changed
         (createAnimatedComponent.animatedEventPropsChanged prevProps
            (createAnimatedComponent.props (NativeEvents.wrapper s)))
    then Returned tt
           (NativeEvents.Make (NativeEvents.wrapper s)
              (detachers_of c (createAnimatedComponent.props (NativeEvents.wrapper s))))
           (calls (detacher_calls (NativeEvents._eventDetachers s)
                   ++ event_calls EventAttach (ViewObj c)
                        (createAnimatedComponent.props (NativeEvents.wrapper s)))
                  w)
    else Returned tt s w.
Proof.
  intros Hc Hp. unfold NativeEvents.componentDidUpdate.
  rewrite !bind_gets, Hc, Hp, viewref_eqb_refl. cbn [negb orb]. rewrite bind_ret_l.
  destruct (createAnimatedComponent.truthy_changed _); [|done].
  unfold NativeEvents._detachNativeEvents. rewrite !bind_assoc, bind_gets, !bind_assoc.
  erewrite bind_of_returned; [|apply detachNativeEvents_loop].
  rewrite bind_modify. unfold NativeEvents._attachNativeEvents.
  rewrite bind_gets. cbn [NativeEvents.set_eventDetachers NativeEvents.wrapper].
  rewrite Hc, bind_gets. cbn [NativeEvents.wrapper].
  rewrite attachNativeEvents_loop. cbn [NativeEvents.wrapper NativeEvents._eventDetachers app].
  by rewrite calls_app.
Qed.

End Wrapper.

(** ** What an update reattaches *)

Section WithHost.
Context `{Host}.
Import AnimatedProps.

(** C3. [__makeNative] on a native instance returns at once and changes
    nothing.  A returned [__getValue] leaves the snapshot-returned marker
    set.  When an instance with the marker set goes native, calling
    [__makeNative] again changes nothing, the reattach-all flag is set, and
    the next [updateProps] is the reattach-all update whatever [deepDiffer]
    says: it returns whenever neither bag has a [style] key, and when it
    returns the flag is clear, the bag is stored as given, and every node of
    the bag has been subscribed to anew.  Call by call, for bags of distinct
    keys: the update returns exactly when the cached style composite is
    where the code asserts it ([style_ready]), and then it makes these calls
    and no other, for every animated key of the next bag in the order of the
    bag: the key's next value is subscribed to (through a new composite for
    a plain style), its node is made native and its native event bound, and
    then the binding that the instance held under the key is released (the
    old node or composite unsubscribed from, the old event unbound); after
    the last key, the animated keys that the next bag no longer has are
    detached. *)
Theorem makeNative_then_updateProps_reattaches_all (s : t) (w : world) :
  (__isNative s = true → __makeNative s w = Returned tt s w) ∧
  (∀ rendered s' w',
     __getValue s w = Returned rendered s' w' → _firstValueReturned s' = true) ∧
  (∀ s1 w1,
     __isNative s = false →
     _firstValueReturned s = true →
     __makeNative s w = Returned tt s1 w1 →
     __makeNative s1 w1 = Returned tt s1 w1 ∧
     _reattachAll s1 = true ∧
     ∀ nextProps,
       updateProps nextProps s1 w1 = reattachEverything nextProps s1 w1 ∧
       ("style" ∉ keys (_props s1) → "style" ∉ keys nextProps →
        ∃ s2 w2, updateProps nextProps s1 w1 = Returned tt s2 w2) ∧
       (∀ s2 w2,
          updateProps nextProps s1 w1 = Returned tt s2 w2 →
          _reattachAll s2 = false ∧
          _props s2 = nextProps ∧
          ∀ key n, key ∈ animatedKeys nextProps → key ≠ "style" →
                   prop nextProps key = VNode n →
                   AddChild n (self s1) ∈ new_calls w1 w2) ∧
       (NoDup (keys nextProps) → NoDup (keys (_props s1)) →
        style_ready s1 (animatedKeys nextProps) nextProps →
        ∃ composite w2,
          updateProps nextProps s1 w1
          = Returned tt
              (set_reattachAll false
                 (set_props nextProps (set_styleProp composite s1))) w2 ∧
          __isNative s1 = true ∧
          new_calls w1 w2
          = flat_map (λ key, attach_calls true (_view s1) (self s1) (next_object w1)
                               key (prop nextProps key)
                             ++ released_calls (_view s1) (self s1) (_styleProp s1)
                                  key (prop (_props s1) key))
                     (animatedKeys nextProps)
            ++ flat_map (λ key, detach_calls (_view s1) (self s1) (_styleProp s1)
                                  key (prop (_props s1) key))
                        (removedKeys (_props s1) nextProps)) ∧
       (∀ s2 w2,
          NoDup (keys nextProps) → NoDup (keys (_props s1)) →
          updateProps nextProps s1 w1 = Returned tt s2 w2 →
          style_ready s1 (animatedKeys nextProps) nextProps)).
Proof.
  split; [apply makeNative_already|]. split.
  { intros rendered s' w' E. pose proof (getValue_marks s w) as Hm.
    rewrite E in Hm. simpl in Hm. by rewrite Hm. }
  intros s1 w1 Hn Hf E1.
  destruct (makeNative_returned _ _ _ _ Hn E1) as (Hn1 & Hra & _).
  rewrite Hf in Hra. simpl in Hra.
  split; [by apply makeNative_already|]. split; [done|].
  intros nextProps. split; [by apply updateProps_reattachAll|].
  split; [apply updateProps_returns|]. split; [|split].
  - intros s2 w2 E2. rewrite updateProps_reattachAll in E2 by done.
    destruct (reattachEverything_returned _ _ _ _ _ E2) as [Hp Hr].
    split; [done|]. split; [done|].
    intros key n Hin Hk Hv.
    unfold reattachEverything in E2. rewrite bind_gets in E2.
    apply bind_returned in E2 as ([] & sa & wa & Ea & E2).
    apply bind_returned in E2 as ([] & sb & wb & Eb & E2).
    rewrite !bind_modify in E2. unfold modify in E2. injection E2 as _ <-.
    destruct (forEach_elem _ later later_refl later_trans
                (λ x s w s' w', later_replaceProp x _ _ s w s' w')
                _ key _ _ _ _ Ea Hin) as (sc & wc & sd & wd & L1 & Ex & L2).
    rewrite Hv in Ex.
    destruct (replaceProp_node_addChild _ _ _ _ _ _ _ Hk Ex) as (d & Ed).
    pose proof (forEach_related _ later later_refl later_trans
                  (λ x s w s' w', later_detachProp x _ s w s' w') _ _ _ _ _ Eb) as L3.
    destruct L1 as [S1 [d1 T1]], L2 as [_ [d2 T2]], L3 as [_ [d3 T3]]. simpl in *.
    rewrite (new_calls_app w1 wb (d1 ++ AddChild n (self sc) :: d ++ d2 ++ d3)).
    + rewrite S1. apply elem_of_app. right. left.
    + rewrite T3, T2, Ed, T1. by rewrite <- !app_assoc.
  - intros Hnd Hndl Hready.
    destruct (updateProps_calls nextProps s1 w1 Hnd Hndl) as (sp' & w2 & E & T).
    { rewrite Hra. cbn [orb]. by rewrite filter_true. }
    rewrite Hra in E, T. cbn [orb] in T.
    rewrite carried_reattachAll in E. rewrite filter_true in T.
    exists sp', w2. split; [exact E|]. split; [exact Hn1|].
    apply new_calls_app. rewrite T. f_equal.
    unfold update_calls, replace_calls. by rewrite Hn1.
  - intros s2 w2 Hnd Hndl E2.
    pose proof (updateProps_returned_ready nextProps s1 w1 s2 w2 Hnd Hndl E2) as Hready.
    rewrite Hra in Hready. cbn [orb] in Hready. by rewrite filter_true in Hready.
Qed.

(** C5. With the reattach-all flag clear and the same animated keys in both
    bags, [updateProps] replaces exactly the keys whose values [animatedDiff]
    tells apart, in the order of the next bag, and makes no other call; the
    bag it stores has the keys of the next bag, each unchanged animated key
    holding the value the instance already held and every other key the next
    value; it returns whenever neither bag has a [style] key; and
    [animatedDiff] does not look at [_attachedEvent].  Call by call, for
    bags of distinct keys: the update returns exactly when the cached style
    composite is where the code asserts it ([style_ready]), and then its
    calls are those of the changed keys alone, one key after the other in
    the order of the next bag: the next value is subscribed to (through a
    new composite for a plain style), made native on a native instance, its
    native event bound, and then the binding held under the key is released.
    No call is made for any other key, and the instance changes in its
    cached composite, its stored bag and its flag only. *)
Theorem updateProps_reattaches_exactly_changed (s : t) (w : world)
    (nextProps : bag value) :
  _reattachAll s = false →
  NoDup (keys nextProps) →
  (∀ key, key ∈ animatedKeys (_props s) ↔ key ∈ animatedKeys nextProps) →
  let lastProps := _props s in
  let unchanged key :=
    bool_decide (key ∈ animatedKeys nextProps)
    && negb (animatedDiff (prop lastProps key) (prop nextProps key)) in
  updateProps nextProps s w
  = (forEach
       (List.filter (λ key, animatedDiff (prop lastProps key) (prop nextProps key))
                    (animatedKeys nextProps))
       (λ key, __replaceProp key (prop lastProps key) (prop nextProps key)) ;;
     modify (set_props (carriedOver lastProps nextProps)) ;;
     modify (set_reattachAll false)) s w ∧
  keys (carriedOver lastProps nextProps) = keys nextProps ∧
  (∀ key, prop (carriedOver lastProps nextProps) key
          = if unchanged key then prop lastProps key else prop nextProps key) ∧
  (∀ s' w', updateProps nextProps s w = Returned tt s' w' →
            _props s' = carriedOver lastProps nextProps) ∧
  ("style" ∉ keys lastProps → "style" ∉ keys nextProps →
   ∃ s' w', updateProps nextProps s w = Returned tt s' w') ∧
  (∀ a b ca cb,
     animatedDiff (cache_attachedEvent ca a) (cache_attachedEvent cb b)
     = animatedDiff a b) ∧
  (NoDup (keys lastProps) →
   style_ready s (changedKeys lastProps nextProps) nextProps →
   ∃ composite w',
     updateProps nextProps s w
     = Returned tt
         (set_reattachAll false
            (set_props (carriedOver lastProps nextProps) (set_styleProp composite s))) w' ∧
     new_calls w w'
     = flat_map (λ key, attach_calls (__isNative s) (_view s) (self s) (next_object w)
                          key (prop nextProps key)
                        ++ released_calls (_view s) (self s) (_styleProp s)
                             key (prop lastProps key))
                (changedKeys lastProps nextProps)) ∧
  (∀ s' w', NoDup (keys lastProps) →
            updateProps nextProps s w = Returned tt s' w' →
            style_ready s (changedKeys lastProps nextProps) nextProps).
Proof.
  intros Hra Hnd Hsame lastProps unchanged. subst lastProps unchanged.
  assert (updateProps nextProps s w = reattachChanged nextProps s w) as Hupd
    by by apply updateProps_reattachChanged.
  split; [|split; [|split; [|split; [|split; [|split; [|split]]]]]].
  - rewrite Hupd. unfold reattachChanged. rewrite bind_gets.
    rewrite removedKeys_none by (intros key; apply Hsame).
    apply bind_ext_head. intros [] s1 w1 _. cbn [forEach]. by rewrite bind_ret_l.
  - apply (carried_keys false). apply animatedKeys_keys.
  - intros key. apply carried_prop. by apply NoDup_animatedKeys.
  - intros s' w' E. rewrite Hupd in E. by apply reattachChanged_returned in E as [? _].
  - apply updateProps_returns.
  - apply animatedDiff_ignores_attachedEvent.
  - intros Hndl Hready.
    destruct (updateProps_calls nextProps s w Hnd Hndl) as (sp' & w' & E & T).
    { rewrite Hra. exact Hready. }
    rewrite Hra in E, T. cbn [orb] in T.
    exists sp', w'. split; [exact E|].
    apply new_calls_app. rewrite T. f_equal. unfold update_calls.
    rewrite removedKeys_none by (intros key; apply Hsame).
    cbn [flat_map]. by rewrite app_nil_r.
  - intros s' w' Hndl E.
    pose proof (updateProps_returned_ready nextProps s w s' w' Hnd Hndl E) as Hready.
    by rewrite Hra in Hready.
Qed.

(** C6, as the code has it.  Replacing one changed key attaches the new
    binding and then detaches the old one.  A removed key is only detached.
    With the flag clear [updateProps] is the minimal update, in which an
    unchanged animated key keeps the value that the instance already held.
    A wholesale replacement in the first listing makes the attaching calls of
    the new instance before the detaching calls of the old one.  Call by
    call: [__replaceProp] returns whenever the cached composite is where the
    code asserts it, and its calls are the attaching calls of the next value
    (subscription, through a new composite for a plain style; the node made
    native on a native instance; the native event bound) followed by the
    releasing calls of the binding held so far (the node or the cached
    composite unsubscribed from, the event unbound); [__detachProp] makes the
    detaching calls of the value it is given and no other; [updateProps]
    with the flag clear, on bags of distinct keys, returns exactly when the
    composite is where the code asserts it ([style_ready]) and then makes
    the calls of the changed keys, one key after the other, then those of
    the removed keys, and none for any other key; and a wholesale
    replacement makes the calls of the new instance's constructor over the
    next bag and then those of the old instance's [__detach]. *)
Theorem replacement_attaches_then_detaches (nextProps : bag value) :
  (∀ key lastValue nextValue,
     emits_then is_attach is_detach (__replaceProp key lastValue nextValue)) ∧
  (∀ key lastValue, emits is_detach (__detachProp key lastValue)) ∧
  (∀ s w, _reattachAll s = false → NoDup (keys nextProps) →
     updateProps nextProps s w = reattachChanged nextProps s w ∧
     ∀ key, key ∈ animatedKeys nextProps →
            animatedDiff (prop (_props s) key) (prop nextProps key) = false →
            prop (carriedOver (_props s) nextProps) key = prop (_props s) key) ∧
  (∀ (c : createAnimatedComponent.t) w force,
     default (negb (bool_decide (is_Some (createAnimatedComponent._propsAnimated c)))) force
     || createAnimatedComponent.truthy_changed
          (createAnimatedComponent.animatedValuePropsChanged
             (createAnimatedComponent.props c) nextProps) = true →
     ∃ attached detached,
       trace (world_of (createAnimatedComponent._attachProps nextProps force c w))
       = trace w ++ attached ++ detached ∧
       Forall (λ e, is_attach e = true) attached ∧
       Forall (λ e, is_detach e = true) detached) ∧
  (∀ key lastValue nextValue s w,
     (key = "style" →
      is_Some (_styleProp s) ∧
      (__isNative s = true → instanceof_AnimatedStyle nextValue = false)) →
     ∃ s' w',
       __replaceProp key lastValue nextValue s w = Returned tt s' w' ∧
       new_calls w w'
       = attach_calls (__isNative s) (_view s) (self s) (next_object w) key nextValue
         ++ released_calls (_view s) (self s) (_styleProp s) key lastValue) ∧
  (∀ key lastValue s w,
     (through_composite key lastValue = true → is_Some (_styleProp s)) →
     ∃ s' w',
       __detachProp key lastValue s w = Returned tt s' w' ∧
       new_calls w w' = detach_calls (_view s) (self s) (_styleProp s) key lastValue) ∧
  (∀ s w, _reattachAll s = false → NoDup (keys nextProps) → NoDup (keys (_props s)) →
     style_ready s (changedKeys (_props s) nextProps) nextProps →
     ∃ composite w',
       updateProps nextProps s w
       = Returned tt
           (set_reattachAll false
              (set_props (carriedOver (_props s) nextProps) (set_styleProp composite s)))
           w' ∧
       new_calls w w'
       = flat_map (λ key, attach_calls (__isNative s) (_view s) (self s) (next_object w)
                            key (prop nextProps key)
                          ++ released_calls (_view s) (self s) (_styleProp s)
                               key (prop (_props s) key))
                  (changedKeys (_props s) nextProps)
         ++ flat_map (λ key, detach_calls (_view s) (self s) (_styleProp s)
                               key (prop (_props s) key))
                     (removedKeys (_props s) nextProps)) ∧
  (∀ (c : createAnimatedComponent.t) (old : t) w force,
     createAnimatedComponent._propsAnimated c = Some old →
     default (negb (bool_decide (is_Some (createAnimatedComponent._propsAnimated c)))) force
     || createAnimatedComponent.truthy_changed
          (createAnimatedComponent.animatedValuePropsChanged
             (createAnimatedComponent.props c) nextProps) = true →
     NoDup (keys nextProps) → NoDup (keys (_props old)) →
     (needs_composite (_props old) = true → is_Some (_styleProp old)) →
     located (__isNative old) (_view old) →
     ∃ created w',
       createAnimatedComponent._attachProps nextProps force c w
       = Returned tt (createAnimatedComponent.set_propsAnimated (Some created) c) w' ∧
       _props created = nextProps ∧
       self created = next_object w ∧
       new_calls w w'
       = (SuperAttach (next_object w)
          :: subscribe_calls (next_object w) (S (next_object w)) nextProps)
         ++ view_calls DisconnectAnimatedNodeFromView (__isNative old) (self old) (_view old)
         ++ event_calls EventDetach (_view old) (_props old)
         ++ unsubscribe_calls (self old) (_styleProp old) (_props old)
         ++ [SuperDetach (self old)]) ∧
  (∀ s w s' w',
     _reattachAll s = false → NoDup (keys nextProps) → NoDup (keys (_props s)) →
     updateProps nextProps s w = Returned tt s' w' →
     style_ready s (changedKeys (_props s) nextProps) nextProps).
Proof.
  split; [apply emits_replaceProp|]. split; [apply emits_detachProp|]. split.
  { intros s w Hra Hnd. split; [by apply updateProps_reattachChanged|].
    intros key Hin Hd.
    change (carriedOver (_props s) nextProps)
      with (carried false (_props s) (animatedKeys nextProps) nextProps).
    rewrite (carried_prop (_props s) (animatedKeys nextProps) nextProps key)
      by by apply NoDup_animatedKeys.
    rewrite bool_decide_eq_true_2 by done. by rewrite Hd. }
  split.
  { intros c w force Hforce.
    unfold createAnimatedComponent._attachProps. rewrite !bind_gets. cbv zeta.
    rewrite Hforce. apply emits_wholesale. }
  split.
  { intros key lastValue nextValue s w Hstyle.
    destruct (decide (key = "style")) as [->|Hk].
    - destruct (Hstyle eq_refl) as [Hsp Hnative].
      destruct (replaceProp_style_calls lastValue nextValue s w Hsp Hnative)
        as (w' & E & T).
      eexists _, w'. split; [exact E|]. by apply new_calls_app.
    - destruct (replaceProp_plain_calls key lastValue nextValue s w Hk)
        as (w' & E & T & _).
      exists s, w'. split; [exact E|]. by apply new_calls_app. }
  split.
  { intros key lastValue s w Hsp. eexists _, _.
    split; [by apply detachProp_calls|]. by apply new_calls_app. }
  split.
  { intros s w Hra Hnd Hndl Hready.
    destruct (updateProps_calls nextProps s w Hnd Hndl) as (sp' & w' & E & T).
    { rewrite Hra. exact Hready. }
    rewrite Hra in E, T. cbn [orb] in T.
    exists sp', w'. split; [exact E|]. by apply new_calls_app. }
  split.
  { intros c old w force Hold Hforce Hnd Hndo Hsp Hloc.
    destruct (attachProps_wholesale_calls c old nextProps force w Hold Hforce Hnd Hndo
                Hsp Hloc) as (created & w' & E & Hp & Hs & _ & _ & T).
    exists created, w'. split; [exact E|]. split; [exact Hp|]. split; [exact Hs|].
    by apply new_calls_app. }
  intros s w s' w' Hra Hnd Hndl E.
  pose proof (updateProps_returned_ready nextProps s w s' w' Hnd Hndl E) as Hready.
  by rewrite Hra in Hready.
Qed.

(** C4, as the code has it.  In the first listing, when the arrays of
    animated value keys ([style] or a node) of the two bags differ, the
    update path replaces the whole instance: a new instance is built from
    the next bag, every node and style of that bag is subscribed to for the
    new instance, the new instance holds the bag as given, and then the old
    instance is detached, which unsubscribes it from every node it held;
    call by call, these are the calls of the constructor over the next bag
    followed by those of the old instance's [__detach].  When
    [animatedValuePropsChanged] finds no change, and always in the second
    listing, the update path is [updateProps], whatever keys came or went:
    with the flag clear it returns exactly when the cached composite is
    where the code asserts it ([style_ready]), and makes the calls of the
    keys of the next bag whose values differ, one key after the other, then
    detaches the animated keys that the next bag no longer has; it makes no
    call for any other key, which keeps the value the instance held.  In the
    first listing [componentDidUpdate] then looks at the event keys: with
    the component unchanged, when the arrays of event keys differ it runs
    every pending detacher and binds every native event of the props again,
    and when [animatedEventPropsChanged] finds no change it does nothing. *)
Theorem value_key_change_replaces_instance (c : createAnimatedComponent.t)
    (old : t) (w : world) (nextProps : bag value) :
  createAnimatedComponent._propsAnimated c = Some old →
  NoDup (keys nextProps) →
  (deepDiffer
     (createAnimatedComponent.key_array
        (createAnimatedComponent.animatedValueKeys (createAnimatedComponent.props c)))
     (createAnimatedComponent.key_array
        (createAnimatedComponent.animatedValueKeys nextProps)) = true →
   ∃ created w1,
     constructor nextProps w = Returned tt created w1 ∧
     _props created = nextProps ∧
     self created = next_object w ∧
     (∀ key n, (key, VNode n) ∈ nextProps → key ≠ "style" →
               AddChild n (self created) ∈ new_calls w w1) ∧
     (∀ key n, (key, VStyle n) ∈ nextProps →
               AddChild n (self created) ∈ new_calls w w1) ∧
     (∀ v, ("style", v) ∈ nextProps → instanceof_AnimatedStyle v = false →
           ∃ composite, NewAnimatedStyle composite v ∈ new_calls w w1 ∧
                        AddChild composite (self created) ∈ new_calls w w1) ∧
     createAnimatedComponent._attachProps nextProps None c w
     = createAnimatedComponent.onObject old __detach
         (createAnimatedComponent.set_propsAnimated (Some created) c) w1 ∧
     (∀ old' w2, __detach old w1 = Returned tt old' w2 →
        ∀ key n, (key, VNode n) ∈ _props old → key ≠ "style" →
                 RemoveChild n (self old) ∈ new_calls w1 w2) ∧
     (NoDup (keys (_props old)) →
      (needs_composite (_props old) = true → is_Some (_styleProp old)) →
      located (__isNative old) (_view old) →
      ∃ w2,
        createAnimatedComponent._attachProps nextProps None c w
        = Returned tt (createAnimatedComponent.set_propsAnimated (Some created) c) w2 ∧
        new_calls w w2
        = (SuperAttach (next_object w)
           :: subscribe_calls (next_object w) (S (next_object w)) nextProps)
          ++ view_calls DisconnectAnimatedNodeFromView (__isNative old) (self old)
               (_view old)
          ++ event_calls EventDetach (_view old) (_props old)
          ++ unsubscribe_calls (self old) (_styleProp old) (_props old)
          ++ [SuperDetach (self old)])) ∧
  (createAnimatedComponent.truthy_changed
     (createAnimatedComponent.animatedValuePropsChanged
        (createAnimatedComponent.props c) nextProps) = false →
   createAnimatedComponent._attachProps nextProps None c w
   = createAnimatedComponent.onProps (updateProps nextProps) c w) ∧
  (∀ c2 : createAnimatedComponent_2.t,
     createAnimatedComponent_2.componentWillReceiveProps nextProps c2 w
     = createAnimatedComponent_2.onProps (updateProps nextProps) c2 w) ∧
  (∀ s w1, _reattachAll s = false → NoDup (keys (_props s)) →
     style_ready s (changedKeys (_props s) nextProps) nextProps →
     (∃ composite w2,
        updateProps nextProps s w1
        = Returned tt
            (set_reattachAll false
               (set_props (carriedOver (_props s) nextProps) (set_styleProp composite s)))
            w2 ∧
        new_calls w1 w2
        = flat_map (λ key, attach_calls (__isNative s) (_view s) (self s) (next_object w1)
                             key (prop nextProps key)
                           ++ released_calls (_view s) (self s) (_styleProp s)
                                key (prop (_props s) key))
                   (changedKeys (_props s) nextProps)
          ++ flat_map (λ key, detach_calls (_view s) (self s) (_styleProp s)
                                key (prop (_props s) key))
                      (removedKeys (_props s) nextProps)) ∧
     ∀ key, key ∈ animatedKeys nextProps →
            animatedDiff (prop (_props s) key) (prop nextProps key) = false →
            prop (carriedOver (_props s) nextProps) key = prop (_props s) key) ∧
  (∀ (e : NativeEvents.t) (prevProps : bag value) (view : nat),
     createAnimatedComponent._component (NativeEvents.wrapper e) = ViewObj view →
     createAnimatedComponent._prevComponent (NativeEvents.wrapper e) = ViewObj view →
     createAnimatedComponent.props (NativeEvents.wrapper e) = nextProps →
     (deepDiffer
        (createAnimatedComponent.key_array
           (createAnimatedComponent.animatedEventKeys prevProps))
        (createAnimatedComponent.key_array
           (createAnimatedComponent.animatedEventKeys nextProps)) = true →
      NativeEvents.componentDidUpdate prevProps e w
      = Returned tt
          (NativeEvents.Make (NativeEvents.wrapper e) (detachers_of view nextProps))
          (calls (((λ remove, EventDetach (NativeEvents.d_event remove)
                                (NativeEvents.d_target remove)
                                (NativeEvents.d_key remove))
                   <$> NativeEvents._eventDetachers e)
                  ++ event_calls EventAttach (ViewObj view) nextProps) w)) ∧
     (createAnimatedComponent.truthy_changed
        (createAnimatedComponent.animatedEventPropsChanged prevProps nextProps) = false →
      NativeEvents.componentDidUpdate prevProps e w = Returned tt e w)) ∧
  (∀ s w1 s' w2,
     _reattachAll s = false → NoDup (keys (_props s)) →
     updateProps nextProps s w1 = Returned tt s' w2 →
     style_ready s (changedKeys (_props s) nextProps) nextProps).
Proof.
  intros Hold Hnd. split; [|split; [|split; [|split; [|split]]]].
  - intros Hdiff.
    destruct (constructor_attaches nextProps w Hnd)
      as (created & w1 & E & Hp & Hs & _ & _ & _ & _ & _ & Hn & Hst & Hsty).
    assert (createAnimatedComponent._attachProps nextProps None c w
            = createAnimatedComponent.onObject old __detach
                (createAnimatedComponent.set_propsAnimated (Some created) c) w1) as Hrun.
    { unfold createAnimatedComponent._attachProps.
      rewrite !bind_gets. cbv zeta. rewrite Hold.
      unfold createAnimatedComponent.animatedValuePropsChanged,
        createAnimatedComponent.animatedPropsChanged. rewrite Hdiff. cbn [negb].
      rewrite bool_decide_eq_true_2 by by eexists. cbn.
      unfold bind at 1. unfold createAnimatedComponent.new_AnimatedProps. rewrite E.
      by rewrite bind_modify. }
    exists created, w1. do 6 (split; [done|]). split; [exact Hrun|]. split.
    + intros old' w2 Ed. by apply (detach_removes _ _ _ _ Ed).
    + intros Hndo Hsp Hloc. rewrite Hrun.
      unfold createAnimatedComponent.onObject. rewrite detach_run by done.
      eexists. split; [reflexivity|].
      rewrite constructor_run in E by done. injection E as _ <-.
      apply new_calls_app. rewrite trace_calls. cbn [trace].
      by rewrite <- !app_assoc.
  - intros Hfalse. unfold createAnimatedComponent._attachProps.
    rewrite !bind_gets. cbv zeta. rewrite Hold, Hfalse.
    rewrite bool_decide_eq_true_2 by by eexists. reflexivity.
  - reflexivity.
  - intros s w1 Hra Hndl Hready. split.
    + destruct (updateProps_calls nextProps s w1 Hnd Hndl) as (sp' & w2 & E & T).
      { rewrite Hra. exact Hready. }
      rewrite Hra in E, T. cbn [orb] in T.
      exists sp', w2. split; [exact E|]. by apply new_calls_app.
    + intros key Hin Hd.
      change (carriedOver (_props s) nextProps)
        with (carried false (_props s) (animatedKeys nextProps) nextProps).
      rewrite (carried_prop (_props s) (animatedKeys nextProps) nextProps key)
        by by apply NoDup_animatedKeys.
      rewrite bool_decide_eq_true_2 by done. by rewrite Hd.
  - intros e prevProps view Hc Hp Hprops.
    pose proof (componentDidUpdate_calls prevProps e w view Hc Hp) as Hrun.
    rewrite Hprops in Hrun. split.
    + intros Hdiff. rewrite Hrun.
      unfold createAnimatedComponent.animatedEventPropsChanged,
        createAnimatedComponent.animatedPropsChanged. rewrite Hdiff. reflexivity.
    + intros Hsame. by rewrite Hrun, Hsame.
  - intros s w1 s' w2 Hra Hndl E.
    pose proof (updateProps_returned_ready nextProps s w1 s' w2 Hnd Hndl E) as Hready.
    by rewrite Hra in Hready.
Qed.

End WithHost.

(** ** The model of [deepDiffer] on arrays of keys *)

Lemma key_arrays_differ (l1 l2 : list string) :
  deepDiffer_model (createAnimatedComponent.key_array l1)
                   (createAnimatedComponent.key_array l2) = false ↔ l1 = l2.
Proof.
  unfold createAnimatedComponent.key_array. simpl.
  revert l2. induction l1 as [|x l1 IH]; intros [|y l2]; simpl; try done.
  rewrite orb_false_iff, IH, negb_false_iff, String.eqb_eq.
  split; [by intros [-> ->]|by intros [= -> ->]].
Qed.

(** ** The code on examples *)

Section Examples.
#[local] Existing Instance example_host.
Import AnimatedProps.

(** Scenario A of the specification: on a view with [setNativeProps], a
    change on the host thread makes one direct mutation and no re-render. *)
Lemma callback_invokes_exactly_one_witness :
  createAnimatedComponent._animatedPropsCallback
    (example_wrapper (ViewObj 1) (state_of example_mounted) false)
    (world_of example_mounted)
  = Returned tt (example_wrapper (ViewObj 1) (state_of example_mounted) false)
      (calls [SetNativeProps 1 [("opacity", RAnimatedValue 7);
                                ("style", RAnimatedValue 1)]]
             (world_of example_mounted)).
Proof.
  destruct (callback_invokes_exactly_one (H:=example_host) 1 (state_of example_mounted)
              (world_of example_mounted) eq_refl) as [first _].
  destruct (first (example_wrapper (ViewObj 1) (state_of example_mounted) false)
              eq_refl eq_refl) as (_ & direct & _).
  destruct (direct eq_refl ltac:(intros _; vm_compute; eexists; reflexivity))
    as (animated & bag & run).
  rewrite run. f_equal. f_equal. f_equal. f_equal.
  assert (Returned animated (state_of example_mounted) (world_of example_mounted)
          = Returned [("opacity", RAnimatedValue 7); ("style", RAnimatedValue 1)]
              (state_of example_mounted) (world_of example_mounted)) as E
    by (rewrite <- bag; vm_compute; reflexivity).
  by injection E.
Defined.

(** On the instance that an update left with a [style] key and no
    composite, the callback of either listing is not native, has a view with
    [setNativeProps], and makes neither call: it throws. *)
Lemma callback_invokes_neither_without_composite :
  __isNative (state_of one_node_styled) = false ∧
  hasSetNativeProps 1 = true ∧
  createAnimatedComponent._animatedPropsCallback
    (example_wrapper (ViewObj 1) (state_of one_node_styled) false)
    (world_of one_node_styled)
  = Thrown "Expected style prop"
      (example_wrapper (ViewObj 1) (state_of one_node_styled) false)
      (world_of one_node_styled) ∧
  createAnimatedComponent_2.callback
    (example_wrapper_2 (ViewObj 1) (state_of one_node_styled))
    (world_of one_node_styled)
  = Thrown "Expected style prop"
      (example_wrapper_2 (ViewObj 1) (state_of one_node_styled))
      (world_of one_node_styled).
Proof.
  split; [reflexivity|]. split; [reflexivity|]. split; vm_compute; reflexivity.
Qed.

(** With the test-only override on, the first listing in native mode, on a
    view with [setNativeProps], re-renders and does not throw. *)
Lemma native_callback_rerenders_under_test_flag :
  __isNative (state_of example_native_first) = true ∧
  hasSetNativeProps 1 = true ∧
  createAnimatedComponent._animatedPropsCallback
    (example_wrapper (ViewObj 1) (state_of example_native_first) true)
    (world_of example_native_first)
  = Returned tt (example_wrapper (ViewObj 1) (state_of example_native_first) true)
      (calls [ForceUpdate] (world_of example_native_first)) ∧
  ¬ ∃ msg c' w',
      createAnimatedComponent._animatedPropsCallback
        (example_wrapper (ViewObj 1) (state_of example_native_first) true)
        (world_of example_native_first)
      = Thrown msg c' w'.
Proof.
  split; [reflexivity|]. split; [reflexivity|].
  assert (createAnimatedComponent._animatedPropsCallback
            (example_wrapper (ViewObj 1) (state_of example_native_first) true)
            (world_of example_native_first)
          = Returned tt (example_wrapper (ViewObj 1) (state_of example_native_first) true)
              (calls [ForceUpdate] (world_of example_native_first))) as E
    by by apply (skip_flag_forces_update 1).
  split; [exact E|]. intros (msg & c' & w' & E'). rewrite E in E'. discriminate.
Qed.

(** With the override off, both listings throw and change nothing. *)
Lemma native_callback_throws_witness :
  (∃ msg, createAnimatedComponent._animatedPropsCallback
            (example_wrapper (ViewObj 1) (state_of example_native_first) false)
            (world_of example_native_first)
          = Thrown msg (example_wrapper (ViewObj 1) (state_of example_native_first) false)
              (world_of example_native_first)) ∧
  (∃ msg, createAnimatedComponent_2.callback
            (example_wrapper_2 (ViewObj 1) (state_of example_native_first))
            (world_of example_native_first)
          = Thrown msg (example_wrapper_2 (ViewObj 1) (state_of example_native_first))
              (world_of example_native_first)).
Proof.
  destruct (native_callback_throws (H:=example_host) 1 (state_of example_native_first)
              (world_of example_native_first) eq_refl eq_refl) as [first second].
  split.
  - apply first; reflexivity.
  - apply second; reflexivity.
Defined.

End Examples.

Section Examples.
#[local] Existing Instance example_host.
Import AnimatedProps.

(** After a snapshot was read the instance goes native; the next update,
    with the very same bag, replaces every animated key: node 7 is
    subscribed to again and made native before it is unsubscribed from, the
    style gets the new native composite 2 before composite 1 is let go, and
    the scroll event is bound again before it is unbound. *)
Lemma makeNative_then_updateProps_reattaches_all_witness :
  _reattachAll (state_of example_native) = true ∧
  _reattachAll (state_of example_reattached) = false ∧
  _props (state_of example_reattached) = example_props ∧
  AddChild 7 0 ∈ new_calls (world_of example_native) (world_of example_reattached) ∧
  ∃ composite w2,
    updateProps example_props (state_of example_native) (world_of example_native)
    = Returned tt
        (set_reattachAll false
           (set_props example_props (set_styleProp composite (state_of example_native))))
        w2 ∧
    new_calls (world_of example_native) w2
    = [AddChild 7 0; NodeMakeNative 7; RemoveChild 7 0;
       NewAnimatedStyle 2 (VPlain (PObj [("width", PNum 3)]));
       AddChild 2 0; NodeMakeNative 2; RemoveChild 1 0;
       EventAttach 9 1 "onScroll"; EventDetach 9 1 "onScroll"].
Proof.
  destruct (makeNative_then_updateProps_reattaches_all (H:=example_host)
              (state_of example_rendered) (world_of example_rendered))
    as (_ & _ & native).
  destruct (native (state_of example_native) (world_of example_native)
              eq_refl eq_refl ltac:(vm_compute; reflexivity))
    as (_ & flag & update).
  destruct (update example_props) as (_ & _ & returned & exactly & _).
  destruct (returned (state_of (example_reattached))
              (world_of (example_reattached))
              ltac:(vm_compute; reflexivity))
    as (cleared & stored & subscribed).
  split; [exact flag|]. split; [exact cleared|]. split; [exact stored|]. split.
  { apply (subscribed "opacity" 7); [|discriminate|reflexivity].
    apply (bool_decide_unpack _). vm_compute. reflexivity. }
  destruct exactly as (composite & w2 & run & _ & made).
  - apply (bool_decide_unpack _). vm_compute. reflexivity.
  - apply (bool_decide_unpack _). vm_compute. reflexivity.
  - split.
    + intros _. split; [exists 1; vm_compute; reflexivity|].
      intros _. vm_compute. reflexivity.
    + intros _ _. exists 1. vm_compute. reflexivity.
  - exists composite, w2. split; [exact run|].
    etransitivity; [exact made|]. vm_compute. reflexivity.
Defined.

(** When the key [scale] is removed, [updateProps] does not reattach the
    key [opacity]; and in the first listing, when an event key is added to a
    bag whose value keys stay the same, [componentWillReceiveProps] makes no
    call at all: node 7 is not subscribed to again. *)
Lemma key_set_change_reattaches_only_changed_keys :
  animatedKeys two_nodes = ["opacity"; "scale"] ∧
  animatedKeys one_node = ["opacity"] ∧
  new_calls (world_of two_nodes_created) (world_of two_nodes_updated)
  = [RemoveChild 8 0] ∧
  (AddChild 7 0 ∉ new_calls (world_of two_nodes_created) (world_of two_nodes_updated)) ∧
  animatedKeys node_and_event = ["opacity"; "onScroll"] ∧
  (∃ c', one_node_received = Returned tt c' (world_of one_node_created)) ∧
  (AddChild 7 0 ∉ new_calls (world_of one_node_created) (world_of one_node_received)).
Proof.
  split; [reflexivity|]. split; [reflexivity|].
  split; [vm_compute; reflexivity|]. split.
  { intros Hin. vm_compute in Hin. apply list_elem_of_singleton in Hin. discriminate. }
  split; [reflexivity|]. split; [eexists; vm_compute; reflexivity|].
  intros Hin. vm_compute in Hin. by apply elem_of_nil in Hin.
Qed.

(** The first listing, from [two_nodes] to [one_node]: a new instance,
    which subscribes to node 7 before the old one lets go of nodes 7 and 8.
    [updateProps] on the same change only lets go of node 8.  And after an
    update from [example_props] to [two_events], [componentDidUpdate] unbinds
    the scroll event and binds both events. *)
Lemma value_key_change_replaces_instance_witness :
  (∃ created w1,
     constructor one_node (world_of two_nodes_created) = Returned tt created w1 ∧
     _props created = one_node ∧
     AddChild 7 (self created) ∈ new_calls (world_of two_nodes_created) w1 ∧
     createAnimatedComponent._attachProps one_node None
       (example_wrapper (ViewObj 1) (state_of two_nodes_created) false)
       (world_of two_nodes_created)
     = createAnimatedComponent.onObject (state_of two_nodes_created) __detach
         (createAnimatedComponent.set_propsAnimated (Some created)
            (example_wrapper (ViewObj 1) (state_of two_nodes_created) false)) w1 ∧
     ∃ w2,
       createAnimatedComponent._attachProps one_node None
         (example_wrapper (ViewObj 1) (state_of two_nodes_created) false)
         (world_of two_nodes_created)
       = Returned tt
           (createAnimatedComponent.set_propsAnimated (Some created)
              (example_wrapper (ViewObj 1) (state_of two_nodes_created) false)) w2 ∧
       new_calls (world_of two_nodes_created) w2
       = [SuperAttach 1; AddChild 7 1; RemoveChild 7 0; RemoveChild 8 0; SuperDetach 0]) ∧
  (∃ composite w2,
     updateProps one_node (state_of two_nodes_created) (world_of two_nodes_created)
     = Returned tt
         (set_reattachAll false
            (set_props (carriedOver two_nodes one_node)
               (set_styleProp composite (state_of two_nodes_created)))) w2 ∧
     new_calls (world_of two_nodes_created) w2 = [RemoveChild 8 0]) ∧
  NativeEvents.componentDidUpdate example_props example_events_updated empty_world
  = Returned tt
      (NativeEvents.Make (NativeEvents.wrapper example_events_updated)
         [NativeEvents.Detacher 9 41 "onScroll";
          NativeEvents.Detacher 10 41 "onMomentumScrollEnd"])
      (calls [EventDetach 9 41 "onScroll"; EventAttach 9 41 "onScroll";
              EventAttach 10 41 "onMomentumScrollEnd"] empty_world).
Proof.
  destruct (value_key_change_replaces_instance (H:=example_host)
              (example_wrapper (ViewObj 1) (state_of two_nodes_created) false)
              (state_of two_nodes_created)
              (world_of two_nodes_created)
              one_node eq_refl
              ltac:(apply (bool_decide_unpack _); vm_compute; reflexivity))
    as (replaced & _ & _ & updated & _).
  destruct (value_key_change_replaces_instance (H:=example_host)
              (NativeEvents.wrapper example_events_updated)
              (state_of example_created)
              empty_world
              two_events eq_refl
              ltac:(apply (bool_decide_unpack _); vm_compute; reflexivity))
    as (_ & _ & _ & _ & events & _).
  split; [|split].
  - destruct (replaced ltac:(vm_compute; reflexivity))
      as (created & w1 & built & stored & _ & nodes & _ & _ & run & _ & exactly).
    exists created, w1. split; [exact built|]. split; [exact stored|].
    split; [apply (nodes "opacity" 7); [left|discriminate]|]. split; [exact run|].
    destruct exactly as (w2 & whole & made).
    + apply (bool_decide_unpack _). vm_compute. reflexivity.
    + intros needed. vm_compute in needed. discriminate needed.
    + intros native. vm_compute in native. discriminate native.
    + exists w2. split; [exact whole|].
      etransitivity; [exact made|]. vm_compute. reflexivity.
  - destruct (updated (state_of two_nodes_created) (world_of two_nodes_created))
      as [(composite & w2 & run & made) _].
    + reflexivity.
    + apply (bool_decide_unpack _). vm_compute. reflexivity.
    + split.
      * intros style. exfalso. revert style.
        apply (bool_decide_unpack _). vm_compute. reflexivity.
      * intros _ needed. vm_compute in needed. discriminate needed.
    + exists composite, w2. split; [exact run|].
      etransitivity; [exact made|]. vm_compute. reflexivity.
  - destruct (events example_events_updated example_props 4 eq_refl eq_refl eq_refl)
      as [rebound _].
    etransitivity; [apply rebound; vm_compute; reflexivity|].
    vm_compute. reflexivity.
Defined.

(** From [example_props] to the same bag with another node under
    [opacity]: only that key is replaced, node 8 subscribed to and then node
    7 unsubscribed from; [style] is carried over.  With another event under
    [onScroll] instead, only the event is bound and the old one unbound. *)
Lemma updateProps_reattaches_exactly_changed_witness :
  (∃ composite w',
     updateProps example_next_props (state_of example_mounted) (world_of example_mounted)
     = Returned tt
         (set_reattachAll false
            (set_props (carriedOver example_props example_next_props)
               (set_styleProp composite (state_of example_mounted)))) w' ∧
     new_calls (world_of example_mounted) w' = [AddChild 8 0; RemoveChild 7 0]) ∧
  _props (state_of example_updated) = carriedOver example_props example_next_props ∧
  prop (carriedOver example_props example_next_props) "style"
  = prop example_props "style" ∧
  prop (carriedOver example_props example_next_props) "opacity" = VNode 8 ∧
  (∃ composite w',
     updateProps example_event_props (state_of example_mounted) (world_of example_mounted)
     = Returned tt
         (set_reattachAll false
            (set_props (carriedOver example_props example_event_props)
               (set_styleProp composite (state_of example_mounted)))) w' ∧
     new_calls (world_of example_mounted) w'
     = [EventAttach 10 1 "onScroll"; EventDetach 9 1 "onScroll"]).
Proof.
  destruct (updateProps_reattaches_exactly_changed (H:=example_host)
              (state_of example_mounted) (world_of example_mounted)
              example_next_props
              eq_refl
              ltac:(apply (bool_decide_unpack _); vm_compute; reflexivity)
              ltac:(intros key; reflexivity))
    as (_ & _ & carried & stored & _ & _ & exactly & _).
  destruct (updateProps_reattaches_exactly_changed (H:=example_host)
              (state_of example_mounted) (world_of example_mounted)
              example_event_props
              eq_refl
              ltac:(apply (bool_decide_unpack _); vm_compute; reflexivity)
              ltac:(intros key; reflexivity))
    as (_ & _ & _ & _ & _ & _ & event & _).
  assert (∀ replaced next, style_ready (state_of example_mounted) replaced next) as ready.
  { intros replaced next. split.
    - intros _. split; [exists 1; vm_compute; reflexivity|].
      intros native. vm_compute in native. discriminate native.
    - intros _ _. exists 1. vm_compute. reflexivity. }
  split; [|split; [|split; [|split]]].
  - destruct exactly as (composite & w' & run & made).
    + apply (bool_decide_unpack _). vm_compute. reflexivity.
    + apply ready.
    + exists composite, w'. split; [exact run|].
      etransitivity; [exact made|]. vm_compute. reflexivity.
  - apply (stored _ (world_of example_updated)). vm_compute. reflexivity.
  - etransitivity; [exact (carried "style")|]. vm_compute. reflexivity.
  - etransitivity; [exact (carried "opacity")|]. vm_compute. reflexivity.
  - destruct event as (composite & w' & run & made).
    + apply (bool_decide_unpack _). vm_compute. reflexivity.
    + apply ready.
    + exists composite, w'. split; [exact run|].
      etransitivity; [exact made|]. vm_compute. reflexivity.
Defined.

(** Within one changed key the order is the other way round: the new node
    is subscribed to before the old one is unsubscribed from. *)
Lemma replaced_key_attaches_before_detaching :
  new_calls (world_of one_node_created) (world_of one_node_replaced)
  = [AddChild 8 0; RemoveChild 7 0] ∧
  ¬ emits_then is_detach is_attach (__replaceProp "opacity" (VNode 7) (VNode 8)).
Proof.
  split; [vm_compute; reflexivity|].
  intros Horder.
  destruct (Horder (state_of one_node_created) (world_of one_node_created))
    as (d1 & d2 & E & F1 & F2).
  vm_compute in E.
  destruct d1 as [|e1 d1].
  - simpl in E. injection E as <-.
    apply Forall_cons in F2 as [_ F2]. apply Forall_cons in F2 as [F2 _]. discriminate.
  - simpl in E. injection E as <- _. apply Forall_cons in F1 as [F1 _]. discriminate.
Qed.

(** The unchanged [style] key keeps its value.  Replacing node 7 by node 8
    subscribes to 8 and then unsubscribes from 7; replacing the style makes
    composite 2 before composite 1 is let go; detaching the scroll event
    only unbinds it.  A forced replacement of the whole instance makes the
    new instance 2 subscribe to node 8 and to its composite 3 before the old
    instance unbinds its event and lets go of node 7 and composite 1. *)
Lemma replacement_attaches_then_detaches_witness :
  prop (carriedOver example_props example_next_props) "style"
  = prop example_props "style" ∧
  (∃ attached detached,
     trace (world_of (createAnimatedComponent._attachProps example_next_props (Some true)
                        (example_wrapper (ViewObj 1) (state_of example_mounted) false)
                        (world_of example_mounted)))
     = trace (world_of example_mounted) ++ attached ++ detached ∧
     Forall (λ e, is_attach e = true) attached ∧
     Forall (λ e, is_detach e = true) detached) ∧
  (∃ s' w',
     __replaceProp "opacity" (VNode 7) (VNode 8)
       (state_of example_mounted) (world_of example_mounted) = Returned tt s' w' ∧
     new_calls (world_of example_mounted) w' = [AddChild 8 0; RemoveChild 7 0]) ∧
  (∃ s' w',
     __replaceProp "style" (VPlain (PObj [("width", PNum 3)]))
       (VPlain (PObj [("width", PNum 4)]))
       (state_of example_mounted) (world_of example_mounted) = Returned tt s' w' ∧
     new_calls (world_of example_mounted) w'
     = [NewAnimatedStyle 2 (VPlain (PObj [("width", PNum 4)])); AddChild 2 0;
        RemoveChild 1 0]) ∧
  (∃ s' w',
     __detachProp "onScroll" (VEvent example_event)
       (state_of example_mounted) (world_of example_mounted) = Returned tt s' w' ∧
     new_calls (world_of example_mounted) w' = [EventDetach 9 1 "onScroll"]) ∧
  (∃ composite w',
     updateProps example_next_props (state_of example_mounted) (world_of example_mounted)
     = Returned tt
         (set_reattachAll false
            (set_props (carriedOver example_props example_next_props)
               (set_styleProp composite (state_of example_mounted)))) w' ∧
     new_calls (world_of example_mounted) w' = [AddChild 8 0; RemoveChild 7 0]) ∧
  (∃ created w',
     createAnimatedComponent._attachProps example_next_props (Some true)
       (example_wrapper (ViewObj 1) (state_of example_mounted) false)
       (world_of example_mounted)
     = Returned tt
         (createAnimatedComponent.set_propsAnimated (Some created)
            (example_wrapper (ViewObj 1) (state_of example_mounted) false)) w' ∧
     new_calls (world_of example_mounted) w'
     = [SuperAttach 2; AddChild 8 2;
        NewAnimatedStyle 3 (VPlain (PObj [("width", PNum 3)])); AddChild 3 2;
        EventDetach 9 1 "onScroll"; RemoveChild 7 0; RemoveChild 1 0; SuperDetach 0]).
Proof.
  destruct (replacement_attaches_then_detaches (H:=example_host) example_next_props)
    as (_ & _ & minimal & wholesale & replaced & detached & updated & whole & _).
  assert (NoDup (keys example_props)) as distinct.
  { apply (bool_decide_unpack _). vm_compute. reflexivity. }
  assert (NoDup (keys example_next_props)) as distinct_next.
  { apply (bool_decide_unpack _). vm_compute. reflexivity. }
  split; [|split; [|split; [|split; [|split; [|split]]]]].
  - destruct (minimal (state_of example_mounted) (world_of example_mounted) eq_refl
                distinct_next) as [_ carried].
    apply (carried "style").
    + apply (bool_decide_unpack _). vm_compute. reflexivity.
    + vm_compute. reflexivity.
  - apply wholesale. reflexivity.
  - destruct (replaced "opacity" (VNode 7) (VNode 8)
                (state_of example_mounted) (world_of example_mounted))
      as (s' & w' & run & made); [intros style; discriminate style|].
    exists s', w'. split; [exact run|].
    etransitivity; [exact made|]. vm_compute. reflexivity.
  - destruct (replaced "style" (VPlain (PObj [("width", PNum 3)]))
                (VPlain (PObj [("width", PNum 4)]))
                (state_of example_mounted) (world_of example_mounted))
      as (s' & w' & run & made).
    { intros _. split; [exists 1; vm_compute; reflexivity|]. intros _. reflexivity. }
    exists s', w'. split; [exact run|].
    etransitivity; [exact made|]. vm_compute. reflexivity.
  - destruct (detached "onScroll" (VEvent example_event)
                (state_of example_mounted) (world_of example_mounted))
      as (s' & w' & run & made).
    { intros through. vm_compute in through. discriminate through. }
    exists s', w'. split; [exact run|].
    etransitivity; [exact made|]. vm_compute. reflexivity.
  - destruct (updated (state_of example_mounted) (world_of example_mounted) eq_refl
                distinct_next distinct)
      as (composite & w' & run & made).
    { split.
      - intros _. split; [exists 1; vm_compute; reflexivity|].
        intros native. vm_compute in native. discriminate native.
      - intros _ _. exists 1. vm_compute. reflexivity. }
    exists composite, w'. split; [exact run|].
    etransitivity; [exact made|]. vm_compute. reflexivity.
  - destruct (whole (example_wrapper (ViewObj 1) (state_of example_mounted) false)
                (state_of example_mounted) (world_of example_mounted) (Some true)
                eq_refl eq_refl distinct_next distinct)
      as (created & w' & run & _ & _ & made).
    { intros _. exists 1. vm_compute. reflexivity. }
    { intros native. vm_compute in native. discriminate native. }
    exists created, w'. split; [exact run|].
    etransitivity; [exact made|]. vm_compute. reflexivity.
Defined.

(** Node 7 and the style composite 1 are both native: [opacity] is left out
    of the snapshot, [style] is not. *)
Lemma native_style_stays_in_snapshot :
  _styleProp (state_of example_native_first) = Some 1 ∧
  1 ∈ native_nodes (world_of example_native_first) ∧
  7 ∈ native_nodes (world_of example_native_first) ∧
  ∃ rendered,
    __getValue (state_of example_native_first) (world_of example_native_first)
    = Returned rendered (set_firstValueReturned true (state_of example_native_first))
        (world_of example_native_first) ∧
    lookup_key rendered "opacity" = None ∧
    lookup_key rendered "style" = Some (RValue 1).
Proof.
  split; [reflexivity|].
  split; [apply (bool_decide_unpack _); vm_compute; reflexivity|].
  split; [apply (bool_decide_unpack _); vm_compute; reflexivity|].
  eexists. split; [vm_compute; reflexivity|]. split; reflexivity.
Qed.

(** The snapshot of the mounted example. *)
Lemma getValue_resolves_witness :
  ∃ rendered,
    __getValue (state_of example_mounted) (world_of example_mounted)
    = Returned rendered (set_firstValueReturned true (state_of example_mounted))
        (world_of example_mounted) ∧
    lookup_key rendered "opacity" = Some (RValue 7) ∧
    lookup_key rendered "style" = Some (RValue 1) ∧
    lookup_key rendered "onScroll" = Some (RHandler example_event) ∧
    lookup_key rendered "collapsable" = Some (RPlain (PBool true)).
Proof.
  destruct (getValue_resolves
              (state_of example_mounted) (world_of example_mounted)
              ltac:(apply (bool_decide_unpack _); vm_compute; reflexivity)
              ltac:(intros _; vm_compute; eexists; reflexivity))
    as (rendered & run & _ & _ & entries).
  exists rendered. split; [exact run|].
  split; [exact (proj2 (entries "opacity" _ eq_refl) ltac:(discriminate))|].
  split; [exact (proj1 (proj1 (entries "style" _ eq_refl) eq_refl))|].
  split; [exact (proj2 (entries "onScroll" _ eq_refl) ltac:(discriminate))|].
  exact (proj2 (entries "collapsable" _ eq_refl) ltac:(discriminate)).
Defined.

(** C8. An instance built from [{opacity: node 7}] is updated with
    [{opacity: node 7, style: undefined}].  The [style] key compares equal to
    the key that was missing, so it is carried over and no composite is made
    for it: the update returns without any call, the bag now has a [style]
    key, no composite is cached, and the next snapshot hits the assertion of
    [__getValue]. *)
Theorem style_key_left_without_composite :
  (∃ s1, one_node_styled = Returned tt s1 (world_of one_node_created)) ∧
  _props (state_of one_node_styled) = node_and_undefined_style ∧
  _styleProp (state_of one_node_styled) = None ∧
  ¬ style_inv (state_of one_node_styled) ∧
  ∃ s2 w2, after one_node_styled __getValue = Thrown "Expected style prop" s2 w2.
Proof.
  split; [eexists; vm_compute; reflexivity|].
  split; [reflexivity|]. split; [reflexivity|]. split.
  - unfold style_inv. vm_compute. discriminate.
  - eexists _, _. vm_compute. reflexivity.
Qed.

(** Scenario D of the specification, and a move from view 1 to the scroll
    container 4. *)
Lemma updateView_same_view_or_rebind_witness :
  updateView (ViewObj 1) (state_of example_native_first) (world_of example_native_first)
  = Returned tt (state_of example_native_first) (world_of example_native_first) ∧
  updateView (ViewObj 4) (state_of example_native_first) (world_of example_native_first)
  = Returned tt (set_view (ViewObj 4) (state_of example_native_first))
      (calls [EventDetach 9 1 "onScroll";
              DisconnectAnimatedNodeFromView 0 101;
              ConnectAnimatedNodeToView 0 104;
              EventAttach 9 41 "onScroll"] (world_of example_native_first)).
Proof.
  destruct (updateView_same_view_or_rebind (H:=example_host)
              (state_of example_native_first) (world_of example_native_first))
    as (same & rebind & _).
  split; [exact same|].
  refine (rebind (ViewObj 4) ltac:(discriminate) _ _).
  - intros _ v [= <-]. vm_compute. eexists. reflexivity.
  - intros _ v [= <-]. vm_compute. eexists. reflexivity.
Defined.

(** The mounted example renders with the caller's [collapsable]; once
    native, it renders with [false]. *)
Lemma render_collapsable_witness :
  (∃ c' w',
     createAnimatedComponent.render
       (example_wrapper (ViewObj 1) (state_of example_mounted) false)
       (world_of example_mounted)
     = Returned (bag_set "collapsable" (RPlain (PBool true))
                   (match example_rendered with Returned r _ _ => r | _ => [] end)) c' w') ∧
  (∃ element c' w',
     createAnimatedComponent_2.render
       (example_wrapper_2 (ViewObj 1) (state_of example_native_first))
       (world_of example_native_first)
     = Returned element c' w' ∧
     lookup_key element "collapsable" = Some (RPlain (PBool false))).
Proof.
  split.
  - destruct (render_collapsable
                (state_of example_mounted) (state_of example_rendered)
                (world_of example_mounted) (world_of example_rendered)
                (match example_rendered with Returned r _ _ => r | _ => [] end)
                ltac:(vm_compute; reflexivity))
      as (first & _ & _ & _ & plain).
    eexists _, _.
    rewrite (first (example_wrapper (ViewObj 1) (state_of example_mounted) false) eq_refl).
    reflexivity.
  - destruct (render_collapsable
                (state_of example_native_first)
                (state_of (example_native_rendered))
                (world_of example_native_first)
                (world_of (example_native_rendered))
                (match example_native_rendered with
                 | Returned r _ _ => r | _ => [] end)
                ltac:(vm_compute; reflexivity))
      as (_ & second & looked & native & _).
    eexists _, _, _. split.
    + apply (second (example_wrapper_2 (ViewObj 1) (state_of example_native_first)) eq_refl).
    + rewrite (looked "collapsable"), (native eq_refl). reflexivity.
Defined.

End Examples.

(** ** The further properties on the examples *)

Section Examples.
#[local] Existing Instance example_host.
Import AnimatedProps.

Lemma example_props_distinct : NoDup (keys example_props).
Proof. apply (bool_decide_unpack _). vm_compute. reflexivity. Defined.

(** The example bag: node 7 is subscribed to, then the plain style is
    wrapped in the composite 1 and subscribed to. *)
Lemma constructor_subscribes_in_order_witness :
  constructor example_props empty_world
  = Returned tt
      (Make 0 ViewUndefined example_props (Some 1) false false false)
      (World ∅ 2
         [SuperAttach 0; AddChild 7 0;
          NewAnimatedStyle 1 (VPlain (PObj [("width", PNum 3)])); AddChild 1 0]).
Proof.
  destruct (constructor_subscribes_in_order (H:=example_host) example_props empty_world)
    as [built _].
  etransitivity; [exact (built example_props_distinct)|reflexivity].
Defined.

(** The mounted example is detached from view 1. *)
Lemma detach_unbinds_in_order_witness :
  __detach (state_of example_mounted) (world_of example_mounted)
  = Returned tt (set_styleProp None (state_of example_mounted))
      (calls [EventDetach 9 1 "onScroll"; RemoveChild 7 0; RemoveChild 1 0;
              SuperDetach 0]
             (world_of example_mounted)).
Proof.
  destruct (detach_unbinds_in_order (H:=example_host)
              (state_of example_mounted) (world_of example_mounted)) as [run _].
  etransitivity.
  - apply run; [exact example_props_distinct| |discriminate].
    intros _. vm_compute. eexists. reflexivity.
  - vm_compute. reflexivity.
Defined.

(** The example bag, built and detached at once. *)
Lemma detach_undoes_constructor_witness :
  ∃ created w1 detached w2,
    constructor example_props empty_world = Returned tt created w1 ∧
    __detach created w1 = Returned tt detached w2 ∧
    _styleProp detached = None ∧
    new_calls w1 w2 = [RemoveChild 7 0; RemoveChild 1 0; SuperDetach 0].
Proof.
  destruct (detach_undoes_constructor (H:=example_host) example_props empty_world
              example_props_distinct)
    as (created & w1 & detached & w2 & built & detached_run & forgotten & undone & _).
  exists created, w1, detached, w2.
  split; [exact built|]. split; [exact detached_run|]. split; [exact forgotten|].
  rewrite undone.
  assert (Returned tt created w1 = example_created) as E by (symmetry; exact built).
  assert (w1 = world_of example_created) as -> by (by rewrite <- E).
  assert (created = state_of example_created) as -> by (by rewrite <- E).
  vm_compute. reflexivity.
Defined.

(** The mounted example goes native: node 7, then the composite 1, then
    the view. *)
Lemma makeNative_makes_every_node_native_witness :
  animated_nodes (Some 1) example_props = [("opacity", 7); ("style", 1)] ∧
  __makeNative (state_of example_mounted) (world_of example_mounted)
  = Returned tt (gone_native (state_of example_mounted))
      (calls [ConnectAnimatedNodeToView 0 101]
             (made_native (Some 1) example_props (world_of example_mounted))).
Proof.
  split; [reflexivity|].
  destruct (makeNative_makes_every_node_native (H:=example_host)
              (state_of example_mounted) (world_of example_mounted) eq_refl)
    as [run _].
  etransitivity.
  - apply run.
    + intros _. vm_compute. eexists. reflexivity.
    + intros _ v [= <-]. vm_compute. eexists. reflexivity.
  - reflexivity.
Defined.

(** On view 0, which the backend cannot locate, going native fails, and
    is not tried again. *)
Lemma failed_makeNative_is_not_retried_witness :
  example_failed_native
  = Thrown "Unable to locate view in the native tree"
      (state_of example_failed_native) (world_of example_failed_native) ∧
  __isNative (state_of example_failed_native) = true ∧
  __makeNative (state_of example_failed_native) (world_of example_failed_native)
  = Returned tt (state_of example_failed_native) (world_of example_failed_native).
Proof.
  split; [vm_compute; reflexivity|].
  destruct (failed_makeNative_is_not_retried (H:=example_host)
              (state_of example_unlocated) (world_of example_unlocated)
              "Unable to locate view in the native tree"
              (state_of example_failed_native) (world_of example_failed_native)
              eq_refl ltac:(vm_compute; reflexivity))
    as (native & again & _).
  split; [exact native|apply again].
Defined.

(** Once the mounted example is native, its snapshot has no [opacity]. *)
Lemma native_nodes_leave_the_snapshot_witness :
  ∃ rendered,
    __getValue (state_of example_native_first) (world_of example_native_first)
    = Returned rendered (set_firstValueReturned true (state_of example_native_first))
        (world_of example_native_first) ∧
    lookup_key rendered "opacity" = None ∧
    lookup_key rendered "style" = Some (RValue 1) ∧
    lookup_key rendered "collapsable" = Some (RPlain (PBool true)).
Proof.
  destruct (native_nodes_leave_the_snapshot (H:=example_host)
              (state_of example_mounted) (world_of example_mounted)
              (state_of example_native_first) (world_of example_native_first)
              example_props_distinct
              ltac:(intros _; vm_compute; eexists; reflexivity)
              eq_refl ltac:(vm_compute; reflexivity))
    as (rendered & run & entries).
  exists rendered. split; [exact run|]. rewrite !entries.
  split; [reflexivity|]. split; reflexivity.
Defined.

(** The two accessors on the mounted example. *)
Lemma accessors_read_the_animated_nodes_witness :
  __getAnimatedValue (state_of example_mounted) (world_of example_mounted)
  = Returned [("opacity", RAnimatedValue 7); ("style", RAnimatedValue 1)]
      (state_of example_mounted) (world_of example_mounted) ∧
  __getNativeConfig (state_of example_mounted) (world_of example_mounted)
  = Returned [("opacity", RNativeTag 7); ("style", RNativeTag 1)]
      (state_of example_mounted) (world_of example_mounted) ∧
  createAnimatedComponent.animatedValueKeys example_props = ["opacity"; "style"].
Proof.
  destruct (accessors_read_the_animated_nodes
              (state_of example_mounted) (world_of example_mounted)
              example_props_distinct
              ltac:(intros _; vm_compute; eexists; reflexivity))
    as (animated & config & _ & _).
  split; [etransitivity; [exact animated|reflexivity]|].
  split; [etransitivity; [exact config|reflexivity]|reflexivity].
Defined.

(** The update of the example to another node under [opacity], repeated. *)
Lemma updateProps_again_is_quiet_witness :
  example_updated
  = Returned tt (state_of example_updated) (world_of example_updated) ∧
  updateProps example_next_props (state_of example_updated) (world_of example_updated)
  = Returned tt (state_of example_updated) (world_of example_updated).
Proof.
  split; [vm_compute; reflexivity|].
  apply (updateProps_again_is_quiet (H:=example_host) example_next_props
           (state_of example_mounted) (world_of example_mounted)).
  - apply (bool_decide_unpack _). vm_compute. reflexivity.
  - intros key Hkey. vm_compute in Hkey.
    repeat (apply elem_of_cons in Hkey as [->|Hkey]; [vm_compute; reflexivity|]).
    by apply elem_of_nil in Hkey.
  - vm_compute. reflexivity.
Defined.

(** The invariant on the example, when built and when updated. *)
Lemma style_invariant_is_kept_witness :
  style_inv (state_of example_created) ∧ style_inv (state_of example_updated).
Proof.
  destruct (style_invariant_is_kept (H:=example_host)) as [built kept].
  split; [exact (built example_props empty_world example_props_distinct)|].
  destruct (kept (state_of example_mounted) (world_of example_mounted))
    as (_ & _ & _ & updated).
  { vm_compute. reflexivity. }
  apply (updated example_next_props (state_of example_updated) (world_of example_updated)).
  - exact example_props_distinct.
  - apply (bool_decide_unpack _). vm_compute. reflexivity.
  - intros _. apply (bool_decide_unpack _). vm_compute. reflexivity.
  - vm_compute. reflexivity.
Defined.

(** A [style] key that holds an event is a value key and an event key. *)
Lemma animatedKeys_are_value_keys_and_event_keys_witness :
  "style" ∈ createAnimatedComponent.animatedValueKeys style_event ∧
  "style" ∈ createAnimatedComponent.animatedEventKeys style_event ∧
  "style" ∈ animatedKeys style_event.
Proof.
  destruct (animatedKeys_are_value_keys_and_event_keys
              style_event "style") as [[_ animated] _].
  assert ("style" ∈ createAnimatedComponent.animatedValueKeys style_event) as Hv by left.
  split; [exact Hv|]. split; [left|]. apply animated. by left.
Defined.

(** The ref moves from view 1 to view 2: the event is rebound once. *)
Lemma componentDidUpdate_rebinds_once_witness :
  ∃ s1 w1,
    createAnimatedComponent_2.componentDidUpdate
      (example_wrapper_2 (ViewObj 2) (state_of example_mounted))
      (world_of example_mounted)
    = Returned tt s1 w1 ∧
    new_calls (world_of example_mounted) w1
    = [EventDetach 9 1 "onScroll"; EventAttach 9 2 "onScroll"] ∧
    createAnimatedComponent_2.componentDidUpdate s1 w1 = Returned tt s1 w1.
Proof.
  eexists _, _. split; [vm_compute; reflexivity|]. split; [vm_compute; reflexivity|].
  refine (proj2 (componentDidUpdate_rebinds_once (H:=example_host)
                   (example_wrapper_2 (ViewObj 2) (state_of example_mounted))
                   (world_of example_mounted) _ _ _)).
  vm_compute. reflexivity.
Defined.

(** The example component mounts on view 1 and unmounts. *)
Lemma mount_then_unmount_leaves_nothing_witness :
  ∃ s' w',
    (createAnimatedComponent_2.componentWillMount ;;
     createAnimatedComponent_2._setComponentRef (ViewObj 1) ;;
     createAnimatedComponent_2.componentDidMount ;;
     createAnimatedComponent_2.componentWillUnmount) example_unmounted_2 empty_world
    = Returned tt s' w' ∧
    new_calls empty_world w'
    = [SuperAttach 0; AddChild 7 0;
       NewAnimatedStyle 1 (VPlain (PObj [("width", PNum 3)])); AddChild 1 0;
       EventAttach 9 1 "onScroll"; EventDetach 9 1 "onScroll";
       RemoveChild 7 0; RemoveChild 1 0; SuperDetach 0].
Proof.
  destruct (mount_then_unmount_leaves_nothing (H:=example_host)
              example_unmounted_2 empty_world 1 example_props_distinct)
    as (s' & w' & run & _ & made).
  exists s', w'. split; [exact run|]. rewrite made. reflexivity.
Defined.

(** On the scroll container 4 the event is bound on the scrollable node
    41, and unbound from it after the ref has moved to view 1. *)
Lemma native_events_are_unbound_where_they_were_bound_witness :
  ∃ s',
    (NativeEvents._attachNativeEvents ;;
     NativeEvents.onWrapper (createAnimatedComponent._setComponentRef (ViewObj 1)) ;;
     NativeEvents._detachNativeEvents) example_events empty_world
    = Returned tt s'
        (calls [EventAttach 9 41 "onScroll"; EventDetach 9 41 "onScroll"] empty_world) ∧
    NativeEvents._eventDetachers s' = [].
Proof.
  destruct (native_events_are_unbound_where_they_were_bound (H:=example_host)
              example_events empty_world) as [round_trip _].
  destruct (round_trip 4 (ViewObj 1) eq_refl eq_refl) as (s' & run & forgotten & _).
  exists s'. split; [|exact forgotten]. etransitivity; [exact run|reflexivity].
Defined.

(** The native example receives node 8 under [opacity]: node 8 is native
    when the update returns. *)
Lemma native_instance_holds_native_nodes_witness :
  __isNative (state_of example_native_updated) = true ∧
  8 ∈ native_nodes (world_of example_native_updated).
Proof.
  destruct (native_instance_holds_native_nodes (H:=example_host)
              (state_of example_native_first) (world_of example_native_first)
              (state_of example_native_updated) (world_of example_native_updated))
    as [_ kept].
  destruct (kept example_next_props) as [native nodes].
  - reflexivity.
  - intros key n Hin Hk. vm_compute in Hin.
    repeat (apply elem_of_cons in Hin as [Hin|Hin];
            [try discriminate; injection Hin as -> ->;
             apply (bool_decide_unpack _); vm_compute; reflexivity|]).
    by apply elem_of_nil in Hin.
  - apply (bool_decide_unpack _). vm_compute. reflexivity.
  - vm_compute. reflexivity.
  - split; [exact native|]. apply (nodes "opacity" 8); [|discriminate].
    vm_compute. left.
Defined.

(** An instance built without a [style] key receives one. *)
Lemma updateProps_cannot_bring_in_a_new_style_witness :
  ∃ w', updateProps node_and_style (state_of one_node_created) (world_of one_node_created)
        = Thrown "Expected style prop to detach" (state_of one_node_created) w'.
Proof.
  apply (updateProps_cannot_bring_in_a_new_style (H:=example_host) node_and_style
           (state_of one_node_created) (world_of one_node_created)).
  - apply (bool_decide_unpack _). vm_compute. reflexivity.
  - reflexivity.
  - apply (bool_decide_unpack _). vm_compute. reflexivity.
  - right. vm_compute. reflexivity.
Defined.

(** A wrapper without an instance unmounts: its one detacher runs.  A
    wrapper around the example instance unmounts: the instance lets go of
    node 7 and of composite 1 first, and the detacher runs after that.  A
    wrapper around an instance that lost track of its composite unmounts:
    the instance lets go of node 7 and throws, and the detacher stays
    pending, the scroll event bound. *)
Lemma componentWillUnmount_detaches_the_instance_first_witness :
  NativeEvents.componentWillUnmount example_events_only empty_world
  = Returned tt (NativeEvents.set_eventDetachers [] example_events_only)
      (calls [EventDetach 9 41 "onScroll"] empty_world) ∧
  NativeEvents.componentWillUnmount example_events_pending (world_of example_created)
  = Returned tt
      (NativeEvents.Make
         (createAnimatedComponent.set_propsAnimated
            (Some (state_of (after example_created __detach)))
            (NativeEvents.wrapper example_events_pending)) [])
      (calls [RemoveChild 7 0; RemoveChild 1 0; SuperDetach 0;
              EventDetach 9 41 "onScroll"] (world_of example_created)) ∧
  NativeEvents.componentWillUnmount example_events_broken (world_of one_node_styled)
  = Thrown "Expected style prop to detach"
      (NativeEvents.Make
         (createAnimatedComponent.set_propsAnimated
            (Some (state_of (after one_node_styled __detach)))
            (NativeEvents.wrapper example_events_broken))
         [NativeEvents.Detacher 9 41 "onScroll"])
      (calls [RemoveChild 7 0] (world_of one_node_styled)).
Proof.
  destruct (componentWillUnmount_detaches_the_instance_first (H:=example_host)
              example_events_only empty_world) as [alone _].
  destruct (componentWillUnmount_detaches_the_instance_first (H:=example_host)
              example_events_pending (world_of example_created)) as (_ & first & _).
  destruct (componentWillUnmount_detaches_the_instance_first (H:=example_host)
              example_events_broken (world_of one_node_styled)) as (_ & _ & thrown).
  split; [exact (alone eq_refl)|]. split.
  - etransitivity.
    + apply (first (state_of example_created)
               (state_of (after example_created __detach))
               (world_of (after example_created __detach)) eq_refl).
      vm_compute. reflexivity.
    + vm_compute. reflexivity.
  - etransitivity.
    + apply (thrown (state_of one_node_styled) "Expected style prop to detach"
               (state_of (after one_node_styled __detach))
               (world_of (after one_node_styled __detach)) eq_refl).
      vm_compute. reflexivity.
    + vm_compute. reflexivity.
Defined.

End Examples.
